(** * bot.ts: the log-to-channel bridge

    A shallow embedding of the pure and stateful core of [src/bot.ts]:
    [sanitizeLine], [splitToChunks], the outbound queue ([enqueue],
    [flushQueue], alone and on the event loop), the stream handler [push],
    the list of allowed users, the remote-console session manager
    ([RconManager]), the [messageCreate] handler and the [shutdown] routine,
    followed by their properties.

    JavaScript strings are sequences of UTF-16 code units; a string is
    modelled as the list of its code units, so that [length], [slice],
    [split], [trim] and [replaceAll] count what the program counts. *)

From Stdlib Require Import String Ascii Decimal.
From Stdlib Require Import ZArith List Bool Lia Permutation.
Import ListNotations.
Local Open Scope Z_scope.

(** ** Strings as code-unit sequences *)

Definition str := list Z.

(** [s.length] *)
Definition len (s : str) : Z := Z.of_nat (length s).

(** The code units of an ASCII literal of the source. *)
Definition lit (s : string) : str :=
  map (fun a => Z.of_N (N_of_ascii a)) (list_ascii_of_string s).

Definition AT : Z := 64.          (* "@" *)
Definition BACKTICK : Z := 96.    (* "`" *)
Definition NEWLINE : Z := 10.     (* "\n" *)
Definition ZWSP : Z := 0x200B.    (* U+200B ZERO WIDTH SPACE *)
Definition ZWJ : Z := 0x200D.     (* U+200D ZERO WIDTH JOINER *)

(** [String.prototype.slice]: a negative index counts from the end, both
    indices are clamped to the string. *)
Definition clamp_index (n k : Z) : Z :=
  if k <? 0 then Z.max (n + k) 0 else Z.min k n.

Definition slice (s : str) (a b : Z) : str :=
  let from := clamp_index (len s) a in
  let to := clamp_index (len s) b in
  firstn (Z.to_nat (to - from)) (skipn (Z.to_nat from) s).

(** [lines.length] for an array of strings *)
Definition len_lines (ls : list str) : Z := Z.of_nat (length ls).

(** [lines.join(sep)] *)
Fixpoint join (sep : str) (ls : list str) : str :=
  match ls with
  | [] => []
  | l :: rest =>
      match rest with
      | [] => l
      | _ :: _ => l ++ sep ++ join sep rest
      end
  end.

(** Template-literal rendering of an integer-valued number. *)
Fixpoint uint_units (d : Decimal.uint) : str :=
  match d with
  | Nil => []
  | D0 d => 48 :: uint_units d
  | D1 d => 49 :: uint_units d
  | D2 d => 50 :: uint_units d
  | D3 d => 51 :: uint_units d
  | D4 d => 52 :: uint_units d
  | D5 d => 53 :: uint_units d
  | D6 d => 54 :: uint_units d
  | D7 d => 55 :: uint_units d
  | D8 d => 56 :: uint_units d
  | D9 d => 57 :: uint_units d
  end.

Definition numToString (n : Z) : str :=
  match Z.to_int n with
  | Decimal.Pos d => uint_units d
  | Decimal.Neg d => 45 :: uint_units d
  end.

(** ** [String.prototype.replaceAll] with a string pattern

    Occurrences are found left to right and do not overlap: after a match
    the scan resumes behind it.  [skip] counts the code units of the current
    match that are still to be passed over.  The replacement strings of the
    program hold no dollar sign, so they are inserted literally. *)

Fixpoint starts_with (pat s : str) : bool :=
  match pat, s with
  | [], _ => true
  | _ :: _, [] => false
  | p :: pat', c :: s' => (p =? c) && starts_with pat' s'
  end.

Fixpoint replaceAll_from (skip : nat) (pat rep s : str) : str :=
  match s with
  | [] => match pat with [] => rep | _ :: _ => [] end
  | c :: s' =>
      match skip with
      | S k => replaceAll_from k pat rep s'
      | O =>
          if starts_with pat s then
            match pat with
            | [] => rep ++ c :: replaceAll_from 0 pat rep s'
            | _ :: pat' => rep ++ replaceAll_from (length pat') pat rep s'
            end
          else c :: replaceAll_from 0 pat rep s'
      end
  end.

Definition replaceAll (pat rep s : str) : str := replaceAll_from 0 pat rep s.

(** ** [sanitizeLine] (bot.ts, line 84) *)

Definition FENCE : str := [BACKTICK; BACKTICK; BACKTICK].

Definition sanitizeLine (line : str) : str :=
  replaceAll FENCE [BACKTICK; ZWSP; BACKTICK; BACKTICK]
    (replaceAll [AT] [AT; ZWSP] line).

(** ** [splitToChunks] (bot.ts, line 87)

    The [for] loop carries [i] and [out]; one unit of fuel is one iteration.
    [None] means the fuel ran out with the guard [i < s.length] still true. *)

Fixpoint splitLoop (fuel : nat) (s : str) (max i : Z) (out : list str)
  : option (list str) :=
  if i <? len s then
    match fuel with
    | O => None
    | S fuel' => splitLoop fuel' s max (i + max) (out ++ [slice s i (i + max)])
    end
  else Some out.

(** With a step of at least one the loop runs at most [s.length] times. *)
Definition splitToChunks (s : str) (max : Z) : option (list str) :=
  splitLoop (length s) s max 0 [].

(** *** The chunking the specification describes: cut [max] units at a time. *)

Fixpoint chunks_by (fuel : nat) (n : nat) (s : str) : list str :=
  match fuel with
  | O => []
  | S fuel' =>
      match s with
      | [] => []
      | _ :: _ => firstn n s :: chunks_by fuel' n (skipn n s)
      end
  end.

Definition chunks (s : str) (max : Z) : list str :=
  chunks_by (length s) (Z.to_nat max) s.


(** ** The outbound queue (bot.ts, lines 102-172) *)

Definition DISCORD_HARD_LIMIT : Z := 2000.
Definition SAFETY_HEADROOM : Z := 10.
Definition MAX_CONTENT : Z := DISCORD_HARD_LIMIT - SAFETY_HEADROOM.

(** What one call of [sendPacked] carries: the in-progress batch
    ([sendPacked(current)]), or one piece of an oversized line with its
    one-based position and the number of pieces
    ([sendPacked([chunks[i] + suffix])]). *)
Inductive message : Type :=
| Batch (lines : list str)
| Fragment (text : str) (index total : Z).

(** [chunks.length > 1 ? ` [${i + 1}/${chunks.length}]` : ""] *)
Definition suffix (index total : Z) : str :=
  if 1 <? total
  then lit " [" ++ numToString index ++ lit "/" ++ numToString total ++ lit "]"
  else [].

(** The array [sendPacked] receives, and the [content] it hands to
    [channel.send]. *)
Definition packed_lines (m : message) : list str :=
  match m with
  | Batch ls => ls
  | Fragment text index total => [text ++ suffix index total]
  end.

Definition content (m : message) : str := join [NEWLINE] (packed_lines m).

(** A send that was attempted, with its outcome ([true]: the promise of
    [channel.send] resolved; [false]: it rejected and the error was logged). *)
Definition attempt : Type := (message * bool)%type.

Definition delivered (tr : list attempt) : list message :=
  map fst (filter snd tr).

Definition no_send_failed (tr : list attempt) : Prop :=
  Forall (fun a => snd a = true) tr.

(** The text a message carries for the reader of the channel, positional
    suffixes left out. *)
Definition payload (m : message) : list str :=
  match m with
  | Batch ls => ls
  | Fragment text _ _ => [text]
  end.

Definition delivered_text (ms : list message) : str :=
  concat (flat_map payload ms).

(** The lines a sequence of messages carries: a batch gives its lines, the
    pieces of an oversized line are glued until the last piece
    ([index = total]) closes the line. *)
Fixpoint reassemble (acc : str) (ms : list message) : list str :=
  match ms with
  | [] => []
  | Batch ls :: ms' => ls ++ reassemble [] ms'
  | Fragment text index total :: ms' =>
      if index =? total then (acc ++ text) :: reassemble [] ms'
      else reassemble (acc ++ text) ms'
  end.

Record flush_state : Type := mkFlush {
  current : list str;
  currentLen : Z;
  sent : list attempt
}.

Record system : Type := mkSystem {
  channel : bool;            (* [channel !== null] *)
  queue : list str;
  flushTimer : bool;         (* [flushTimer !== null] *)
  outbox : list attempt      (* every send attempted so far, oldest first *)
}.

Section Outbound.

(** [toInt(process.env.MAX_LINES_PER_BATCH, 40)] *)
Variable MAX_LINES_PER_BATCH : Z.
(** The Messenger: whether [channel.send({ content })] resolves. *)
Variable channel_send : str -> bool.

Definition sendPacked (m : message) (tr : list attempt) : list attempt :=
  match packed_lines m with
  | [] => tr
  | _ :: _ => tr ++ [(m, channel_send (content m))]
  end.

Definition flushCurrent (st : flush_state) : flush_state :=
  {| current := [];
     currentLen := 0;
     sent := match current st with
             | [] => sent st
             | _ :: _ => sendPacked (Batch (current st)) (sent st)
             end |}.

(** The loop over [chunks]; [i] is the zero-based index of the next piece. *)
Fixpoint sendChunks (total i : Z) (rest : list str) (tr : list attempt)
  : list attempt :=
  match rest with
  | [] => tr
  | c :: rest' =>
      sendChunks total (i + 1) rest' (sendPacked (Fragment c (i + 1) total) tr)
  end.

(** One iteration of [while (queue.length > 0)] on the line just shifted. *)
Definition process (raw : str) (st : flush_state) : option flush_state :=
  if MAX_CONTENT <? len raw then
    match splitToChunks raw MAX_CONTENT with
    | None => None
    | Some cs =>
        let st1 := match current st with
                   | [] => st
                   | _ :: _ => flushCurrent st
                   end in
        Some {| current := current st1;
                currentLen := currentLen st1;
                sent := sendChunks (len_lines cs) 0 cs (sent st1) |}
    end
  else
    let addLen := (match current st with [] => 0 | _ :: _ => 1 end) + len raw in
    let wouldOverflowChars := MAX_CONTENT <? currentLen st + addLen in
    let wouldOverflowLines :=
      MAX_LINES_PER_BATCH <? len_lines (current st) + 1 in
    let st1 := if wouldOverflowChars || wouldOverflowLines
               then flushCurrent st else st in
    Some {| current := current st1 ++ [raw];
            currentLen := currentLen st1 + addLen;
            sent := sent st1 |}.

Fixpoint drain (q : list str) (st : flush_state) : option flush_state :=
  match q with
  | [] => Some st
  | raw :: q' =>
      match process raw st with
      | None => None
      | Some st' => drain q' st'
      end
  end.

Definition startFlushTimer (sys : system) : system :=
  if flushTimer sys then sys
  else {| channel := channel sys; queue := queue sys;
          flushTimer := true; outbox := outbox sys |}.

Definition enqueue (line : str) (sys : system) : system :=
  startFlushTimer
    {| channel := channel sys; queue := queue sys ++ [sanitizeLine line];
       flushTimer := flushTimer sys; outbox := outbox sys |}.

Definition stopTimerIfForced (force : bool) (sys : system) : system :=
  if force && flushTimer sys
  then {| channel := channel sys; queue := queue sys;
          flushTimer := false; outbox := outbox sys |}
  else sys.

Definition flushQueue (force : bool) (sys : system) : option system :=
  if negb (channel sys) || (len_lines (queue sys) =? 0) then
    Some (stopTimerIfForced force sys)
  else
    match drain (queue sys) {| current := []; currentLen := 0;
                               sent := outbox sys |} with
    | None => None
    | Some st =>
        Some (stopTimerIfForced force
                {| channel := channel sys; queue := [];
                   flushTimer := flushTimer sys;
                   outbox := sent (flushCurrent st) |})
    end.

(** Calls of [enqueue] and [flushQueue], each run to completion. *)
Inductive op : Type :=
| Enqueue (line : str)
| Flush (force : bool).

Definition exec_op (o : op) (sys : system) : option system :=
  match o with
  | Enqueue line => Some (enqueue line sys)
  | Flush force => flushQueue force sys
  end.

Fixpoint run (ops : list op) (sys : system) : option system :=
  match ops with
  | [] => Some sys
  | o :: ops' =>
      match exec_op o sys with
      | None => None
      | Some sys' => run ops' sys'
      end
  end.

Fixpoint enqueued (ops : list op) : list str :=
  match ops with
  | [] => []
  | Enqueue line :: ops' => line :: enqueued ops'
  | Flush _ :: ops' => enqueued ops'
  end.

End Outbound.

Definition booted : system :=
  {| channel := true; queue := []; flushTimer := false; outbox := [] |}.

(** ** [flushQueue] on the event loop

    [flushQueue] is an async function.  A call runs without interruption up
    to an [await] on a send; there it is suspended, and until the send
    settles other callbacks run: [enqueue] from the output streams, and
    further calls of [flushQueue] from the timer, the [close] handler or
    [shutdown].  The queue and the outbox are shared, [current] and
    [currentLen] belong to the call.  ([await flushCurrent()] with nothing
    to send goes on before any timer, stream or process callback runs: it
    is not a suspension here.)

    A suspended call is recorded with what it does when it is resumed. *)

Module Async.

Inductive cont : Type :=
| PushThenLoop (raw : str) (addLen : Z)
    (* [current.push(raw); currentLen += addLen], back to the loop test *)
| PiecesThenLoop (total i : Z) (rest : list str)
    (* the [for] loop over [chunks] at index [i], then the loop test *)
| Finish.
    (* the timer is cleared if [force] is set, and the call returns *)

(** A call between two suspensions. *)
Record turn : Type := mkTurn {
  rest_queue : list str;
  state : flush_state;
  next : option cont
}.

Record activation : Type := mkActivation {
  force : bool;
  held : list str;         (* its [current] *)
  heldLen : Z;             (* its [currentLen] *)
  todo : cont
}.

Record world : Type := mkWorld {
  sys : system;
  flushes : list activation     (* the suspended calls of [flushQueue] *)
}.

Inductive event : Type :=
| Enqueue (line : str)     (* a line from [stdout] or [stderr] *)
| Start (force : bool)     (* a call of [flushQueue] *)
| Resume (a : nat).        (* the send that call [a] awaits settles *)

Section Outbound.

Variable MAX_LINES_PER_BATCH : Z.
Variable channel_send : str -> bool.

Definition push (raw : str) (addLen : Z) (st : flush_state) : flush_state :=
  {| current := current st ++ [raw];
     currentLen := currentLen st + addLen;
     sent := sent st |}.

Definition sendPiece (total i : Z) (c : str) (st : flush_state)
  : flush_state :=
  {| current := current st;
     currentLen := currentLen st;
     sent := sendPacked channel_send (Fragment c (i + 1) total) (sent st) |}.

(** From the loop test to the next suspension, or to the end of the call. *)
Fixpoint loop (q : list str) (st : flush_state) : option turn :=
  match q with
  | [] =>
      Some {| rest_queue := [];
              state := flushCurrent channel_send st;
              next := match current st with
                      | [] => None
                      | _ :: _ => Some Finish
                      end |}
  | raw :: q' =>
      if MAX_CONTENT <? len raw then
        match splitToChunks raw MAX_CONTENT with
        | None => None
        | Some cs =>
            match current st with
            | [] =>
                match cs with
                | [] => loop q' st
                | c :: rest =>
                    Some {| rest_queue := q';
                            state := sendPiece (len_lines cs) 0 c st;
                            next := Some (PiecesThenLoop (len_lines cs) 1
                                            rest) |}
                end
            | _ :: _ =>
                Some {| rest_queue := q';
                        state := flushCurrent channel_send st;
                        next := Some (PiecesThenLoop (len_lines cs) 0 cs) |}
            end
        end
      else
        let addLen :=
          (match current st with [] => 0 | _ :: _ => 1 end) + len raw in
        let wouldOverflowChars := MAX_CONTENT <? currentLen st + addLen in
        let wouldOverflowLines :=
          MAX_LINES_PER_BATCH <? len_lines (current st) + 1 in
        if wouldOverflowChars || wouldOverflowLines then
          match current st with
          | [] => loop q' (push raw addLen (flushCurrent channel_send st))
          | _ :: _ =>
              Some {| rest_queue := q';
                      state := flushCurrent channel_send st;
                      next := Some (PushThenLoop raw addLen) |}
          end
        else loop q' (push raw addLen st)
  end.

(** A suspended call goes on, on the queue as it is by now. *)
Definition resume_turn (k : cont) (q : list str) (st : flush_state)
  : option turn :=
  match k with
  | PushThenLoop raw addLen => loop q (push raw addLen st)
  | PiecesThenLoop total i rest =>
      match rest with
      | [] => loop q st
      | c :: rest' =>
          Some {| rest_queue := q;
                  state := sendPiece total i c st;
                  next := Some (PiecesThenLoop total (i + 1) rest') |}
      end
  | Finish => Some {| rest_queue := q; state := st; next := None |}
  end.

Definition after_turn (f : bool) (s : system) (t : turn)
  : system * list activation :=
  let s' := {| channel := channel s; queue := rest_queue t;
               flushTimer := flushTimer s; outbox := sent (state t) |} in
  match next t with
  | None => (stopTimerIfForced f s', [])
  | Some k =>
      (s', [{| force := f; held := current (state t);
               heldLen := currentLen (state t); todo := k |}])
  end.

Definition start (f : bool) (w : world) : option world :=
  if negb (channel (sys w)) || (len_lines (queue (sys w)) =? 0) then
    Some {| sys := stopTimerIfForced f (sys w); flushes := flushes w |}
  else
    match loop (queue (sys w))
            {| current := []; currentLen := 0; sent := outbox (sys w) |} with
    | None => None
    | Some t =>
        let (s', a) := after_turn f (sys w) t in
        Some {| sys := s'; flushes := flushes w ++ a |}
    end.

Definition resume (a : nat) (w : world) : option world :=
  match nth_error (flushes w) a with
  | None => Some w
  | Some act =>
      match resume_turn (todo act) (queue (sys w))
              {| current := held act; currentLen := heldLen act;
                 sent := outbox (sys w) |} with
      | None => None
      | Some t =>
          let (s', act') := after_turn (force act) (sys w) t in
          Some {| sys := s';
                  flushes := firstn a (flushes w) ++ act'
                             ++ skipn (S a) (flushes w) |}
      end
  end.

Definition step (e : event) (w : world) : option world :=
  match e with
  | Enqueue line =>
      Some {| sys := enqueue line (sys w); flushes := flushes w |}
  | Start f => start f w
  | Resume a => resume a w
  end.

Fixpoint run (es : list event) (w : world) : option world :=
  match es with
  | [] => Some w
  | e :: es' =>
      match step e w with
      | None => None
      | Some w' => run es' w'
      end
  end.

Fixpoint enqueued (es : list event) : list str :=
  match es with
  | [] => []
  | Enqueue line :: es' => line :: enqueued es'
  | _ :: es' => enqueued es'
  end.

(** No call of [flushQueue] starts while another is suspended. *)
Fixpoint serial (es : list event) (w : world) : bool :=
  match es with
  | [] => true
  | e :: es' =>
      match e with
      | Start _ => match flushes w with [] => true | _ :: _ => false end
      | _ => true
      end
      && match step e w with
         | None => true
         | Some w' => serial es' w'
         end
  end.

End Outbound.

(** What a suspended call still has to send. *)
Definition cont_text (k : cont) : str :=
  match k with
  | PushThenLoop raw _ => raw
  | PiecesThenLoop _ _ rest => concat rest
  | Finish => []
  end.

Definition activation_text (act : activation) : str :=
  concat (held act) ++ cont_text (todo act).

Definition booted : world := {| sys := booted; flushes := [] |}.

End Async.

(** ** [RconManager] (bot.ts, lines 174-225)

    The methods read and write the fields of the manager and talk to the
    transport; a transport call may throw.  They are written in a state
    monad with exceptions: a computation returns a value or throws, and in
    both cases leaves a world behind. *)

Module Rcon.

Definition session : Type := nat.
Definition error : Type := str.

(** Calls made on the transport, in order. *)
Inductive call : Type :=
| Connect
| Exec (s : session) (command : str)
| End (s : session).

Record manager : Type := mkManager {
  rcon : option session;
  connected : bool;
  connecting : bool
}.

Record world : Type := mkWorld {
  mgr : manager;
  calls : list call
}.

Inductive outcome (A : Type) : Type :=
| Return (a : A)
| Throw (e : error).

Arguments Return {A} a.
Arguments Throw {A} e.

Definition M (A : Type) : Type := world -> outcome A * world.

Definition ret {A} (a : A) : M A := fun w => (Return a, w).

Definition throw {A} (e : error) : M A := fun w => (Throw e, w).

Definition bind {A B} (c : M A) (k : A -> M B) : M B :=
  fun w =>
    match c w with
    | (Return a, w') => k a w'
    | (Throw e, w') => (Throw e, w')
    end.

Notation "x <- c ;; k" := (bind c (fun x => k))
  (at level 61, c at next level, right associativity).
Notation "c ;; k" := (bind c (fun _ => k))
  (at level 61, right associativity).

(** [try { body } catch (e) { handler }] *)
Definition try_catch {A} (body : M A) (handler : error -> M A) : M A :=
  fun w =>
    match body w with
    | (Return a, w') => (Return a, w')
    | (Throw e, w') => handler e w'
    end.

(** [try { body } finally { cleanup }] *)
Definition try_finally {A} (body : M A) (cleanup : M unit) : M A :=
  fun w =>
    match body w with
    | (res, w') =>
        match cleanup w' with
        | (Return _, w'') => (res, w'')
        | (Throw e, w'') => (Throw e, w'')
        end
    end.

Definition this : M manager := fun w => (Return (mgr w), w).

Definition set_rcon (r : option session) : M unit :=
  fun w => (Return tt,
            {| mgr := {| rcon := r; connected := connected (mgr w);
                         connecting := connecting (mgr w) |};
               calls := calls w |}).

Definition set_connected (b : bool) : M unit :=
  fun w => (Return tt,
            {| mgr := {| rcon := rcon (mgr w); connected := b;
                         connecting := connecting (mgr w) |};
               calls := calls w |}).

Definition set_connecting (b : bool) : M unit :=
  fun w => (Return tt,
            {| mgr := {| rcon := rcon (mgr w); connected := connected (mgr w);
                         connecting := b |};
               calls := calls w |}).

(** [this.connected && this.rcon] *)
Definition live (m : manager) : bool :=
  connected m && match rcon m with Some _ => true | None => false end.

Section Transport.

Variable RCON_ENABLED : bool.
(** The transport is a black box: what it answers may depend on every call
    made before. *)
Variable connect_reply : list call -> outcome session.
Variable exec_reply : list call -> session -> str -> outcome str.
Variable end_reply : list call -> session -> outcome unit.

Definition transport {A} (c : call) (reply : list call -> outcome A) : M A :=
  fun w => (reply (calls w), {| mgr := mgr w; calls := calls w ++ [c] |}).

(** [Rcon.connect({...})], [this.rcon.send(command)], [this.rcon.end()] *)
Definition rcon_connect : M session := transport Connect connect_reply.

Definition rcon_send (s : session) (command : str) : M str :=
  transport (Exec s command) (fun log => exec_reply log s command).

Definition rcon_end (s : session) : M unit :=
  transport (End s) (fun log => end_reply log s).

(** [await new Promise((r) => setTimeout(r, 250))]: no other caller runs in
    this model, so the wait leaves the world as it is. *)
Definition backoff : M unit := ret tt.

Definition ensureConnected : M unit :=
  if negb RCON_ENABLED then throw (lit "RCON is disabled")
  else
    m <- this ;;
    if live m then ret tt
    else
      ready <- (if connecting m
                then backoff ;; m' <- this ;; ret (live m')
                else ret false) ;;
      if (ready : bool) then ret tt
      else
        set_connecting true ;;
        try_finally
          (s <- rcon_connect ;;
           set_rcon (Some s) ;;
           set_connected true)
          (set_connecting false).

Definition send (command : str) : M str :=
  ensureConnected ;;
  m <- this ;;
  match rcon m with
  | None => throw (lit "RCON not connected")
  | Some s =>
      try_catch (rcon_send s command)
        (fun e => set_connected false ;; set_rcon None ;; throw e)
  end.

Definition close : M unit :=
  try_catch
    (m <- this ;;
     match rcon m with
     | Some s => rcon_end s
     | None => ret tt
     end)
    (fun _ => ret tt) ;;
  set_rcon None ;;
  set_connected false.

(** The handler registered with [this.rcon.on("end", ...)]. *)
Definition on_end : M unit := set_connected false ;; set_rcon None.

End Transport.

Definition fresh : manager :=
  {| rcon := None; connected := false; connecting := false |}.

End Rcon.

(** ** [shutdown] (bot.ts, lines 298-353)

    [shutdown] is an async function: between two [await]s it runs without
    interruption, at an [await] other callbacks (a second signal among them)
    may run.  An activation of [shutdown] that passed the guard is recorded
    by the number of the segment it will run next. *)

Module Shutdown.

Inductive action : Type :=
| Announce
| WriteNoRestartFlag
| PoliteStop
| GraceWait
| ForceKill
| ForceFlush
| RconClose
| MessengerDisconnect
| Exit.

Definition action_eq_dec (a b : action) : {a = b} + {a <> b}.
Proof. decide equality. Defined.

Record process : Type := mkProcess {
  shuttingDown : bool;
  activations : list nat;
  performed : list action;
  exited : bool
}.

Inductive event : Type :=
| Signal                (* SIGINT or SIGTERM: [void shutdown()] *)
| Resume (a : nat).     (* the awaited promise of activation [a] settles *)

Section Environment.

Variable stdin_writable : bool.    (* [server?.stdin.writable] *)
Variable closed_in_grace : bool.   (* the value [closed] resolves to *)

(** The code of [shutdown] after the guard, cut at its [await]s. *)
Definition segment (k : nat) : list action :=
  match k with
  | 0%nat => [Announce]
  | 1%nat => [WriteNoRestartFlag]
             ++ (if stdin_writable then [PoliteStop] else [])
             ++ [GraceWait]
  | 2%nat => (if closed_in_grace then [] else [ForceKill]) ++ [ForceFlush]
  | 3%nat => [RconClose]
  | 4%nat => [MessengerDisconnect]
  | 5%nat => [Exit]
  | _ => []
  end.

Definition last_segment : nat := 5.

Definition teardown : list action :=
  concat (map segment (seq 0 (S last_segment))).

(** A call of [shutdown]: the guard, the flag, and the code up to the first
    [await]. *)
Definition shutdown (p : process) : process :=
  if shuttingDown p then p
  else {| shuttingDown := true;
          activations := activations p ++ [1%nat];
          performed := performed p ++ segment 0;
          exited := exited p |}.

Fixpoint set_nth (a : nat) (k : nat) (l : list nat) : list nat :=
  match l, a with
  | [], _ => []
  | _ :: l', O => k :: l'
  | x :: l', S a' => x :: set_nth a' k l'
  end.

Fixpoint remove_nth (a : nat) (l : list nat) : list nat :=
  match l, a with
  | [], _ => []
  | _ :: l', O => l'
  | x :: l', S a' => x :: remove_nth a' l'
  end.

(** Activation [a] runs its next segment; [process.exit(0)] ends everything. *)
Definition resume (a : nat) (p : process) : process :=
  if exited p then p
  else
    match nth_error (activations p) a with
    | None => p
    | Some k =>
        if (k =? last_segment)%nat then
          {| shuttingDown := shuttingDown p;
             activations := remove_nth a (activations p);
             performed := performed p ++ segment k;
             exited := true |}
        else
          {| shuttingDown := shuttingDown p;
             activations := set_nth a (S k) (activations p);
             performed := performed p ++ segment k;
             exited := exited p |}
    end.

Definition handle (e : event) (p : process) : process :=
  if exited p then p
  else
    match e with
    | Signal => shutdown p
    | Resume a => resume a p
    end.

Definition run (es : list event) (p : process) : process :=
  fold_left (fun p e => handle e p) es p.

End Environment.

Definition started : process :=
  {| shuttingDown := false; activations := []; performed := [];
     exited := false |}.

End Shutdown.

(** ** Text helpers of the standard library of the language *)

Definition SPACE : Z := 32.       (* " " *)
Definition CR : Z := 13.          (* "\r" *)
Definition COMMA : Z := 44.       (* "," *)

(** [a === b] on strings *)
Fixpoint str_eqb (a b : str) : bool :=
  match a, b with
  | [], [] => true
  | x :: a', y :: b' => (x =? y) && str_eqb a' b'
  | _, _ => false
  end.

(** [Boolean(s)], [!s] negated: a string is truthy when it is not empty. *)
Definition truthy (s : str) : bool := negb (len s =? 0).

(** [array.includes(s)] on an array of strings *)
Definition includes (l : list str) (s : str) : bool := existsb (str_eqb s) l.

(** The code units [String.prototype.trim] removes: WhiteSpace (TAB, VT, FF,
    ZWNBSP and the space separators) and LineTerminator (LF, CR, LS, PS).
    U+200B is not among them. *)
Definition is_space (c : Z) : bool :=
  (c =? 0x9) || (c =? 0xA) || (c =? 0xB) || (c =? 0xC) || (c =? 0xD)
  || (c =? 0x20) || (c =? 0xA0) || (c =? 0x1680)
  || ((0x2000 <=? c) && (c <=? 0x200A))
  || (c =? 0x2028) || (c =? 0x2029) || (c =? 0x202F) || (c =? 0x205F)
  || (c =? 0x3000) || (c =? 0xFEFF).

Fixpoint trimStart (s : str) : str :=
  match s with
  | [] => []
  | c :: s' => if is_space c then trimStart s' else s
  end.

Definition trimEnd (s : str) : str := rev (trimStart (rev s)).

Definition trim (s : str) : str := trimEnd (trimStart s).

(** [s.split(sep)] for a separator of one code unit: the pieces between the
    separators, one more than there are separators. *)
Fixpoint split_on (sep : Z) (s : str) : list str :=
  match s with
  | [] => [[]]
  | c :: s' =>
      if c =? sep then [] :: split_on sep s'
      else match split_on sep s' with
           | [] => [[c]]
           | piece :: rest => (c :: piece) :: rest
           end
  end.

(** [s.split(/\r?\n/)]: a line break is a line feed, or a carriage return
    with the line feed behind it; the leftmost break is taken first.  [skip]
    is set on the line feed of a break that began at the carriage return. *)
Fixpoint split_lines_from (skip : bool) (s : str) : list str :=
  match s with
  | [] => [[]]
  | c :: s' =>
      if skip then split_lines_from false s'
      else if c =? NEWLINE then [] :: split_lines_from false s'
      else if (c =? CR) && starts_with [NEWLINE] s'
      then [] :: split_lines_from true s'
      else match split_lines_from false s' with
           | [] => [[c]]
           | piece :: rest => (c :: piece) :: rest
           end
  end.

Definition split_lines (s : str) : list str := split_lines_from false s.

(** ** The output of the server process (bot.ts, lines 260-271)

    [push] is the handler of the [data] events of [stdout] and [stderr];
    [data] is the text [data.toString("utf8")] gives. *)

Definition push_line (prefix : str) (sys : system) (line : str) : system :=
  if truthy (trim line) then enqueue (prefix ++ SPACE :: line) sys else sys.

Definition push (prefix data : str) (sys : system) : system :=
  fold_left (push_line prefix) (split_lines data) sys.

Definition OUT : str := lit "[OUT]".
Definition ERR : str := lit "[ERR]".

(** ** The configuration read at start-up (bot.ts, lines 46-49)

    [(process.env.RCON_ALLOWED_USER_IDS ?? "").split(",").map((s) =>
    s.trim()).filter(Boolean)]; [None] is a variable that is not set. *)

Definition allowed_user_ids (env : option str) : list str :=
  filter truthy
    (map trim (split_on COMMA (match env with Some v => v | None => [] end))).

(** ** The [messageCreate] handler (bot.ts, lines 361-416)

    The handler answers a chat message that asks for a console command.  It
    talks to the chat platform ([msg.reply], [sendTyping]), which may throw,
    and to the [RconManager].  One handler runs at a time here. *)

Module Command.

Record message : Type := mkMessage {
  author_bot : bool;                  (* [msg.author.bot] *)
  author_id : str;                    (* [msg.author.id] *)
  channelId : str;                    (* [msg.channelId] *)
  content : str;                      (* [msg.content ?? ""] *)
  member_roles : option (list str);
    (* the role ids of [await msg.guild?.members.fetch(id).catch(() => null)];
       [None] without a guild or when the fetch fails *)
  can_type : bool
    (* ["sendTyping" in msg.channel] and it is a function *)
}.

(** What the handler asks of the chat platform, in order. *)
Inductive effect : Type :=
| Reply (content : str)
| Typing.

Record world : Type := mkWorld {
  rconManager : Rcon.world;
  effects : list effect
}.

(** A computation returns, throws, or does not come to an end ([None]). *)
Definition M (A : Type) : Type := world -> option (Rcon.outcome A * world).

Definition ret {A} (a : A) : M A := fun w => Some (Rcon.Return a, w).

Definition bind {A B} (c : M A) (k : A -> M B) : M B :=
  fun w =>
    match c w with
    | None => None
    | Some (Rcon.Return a, w') => k a w'
    | Some (Rcon.Throw e, w') => Some (Rcon.Throw e, w')
    end.

Notation "x <- c ;; k" := (bind c (fun x => k))
  (at level 61, c at next level, right associativity).
Notation "c ;; k" := (bind c (fun _ => k))
  (at level 61, right associativity).

Definition try_catch {A} (body : M A) (handler : Rcon.error -> M A) : M A :=
  fun w =>
    match body w with
    | None => None
    | Some (Rcon.Return a, w') => Some (Rcon.Return a, w')
    | Some (Rcon.Throw e, w') => handler e w'
    end.

(** A method of the manager, run on the manager of this world. *)
Definition lift {A} (c : Rcon.M A) : M A :=
  fun w =>
    let (res, m) := c (rconManager w) in
    Some (res, {| rconManager := m; effects := effects w |}).

(** The result of a loop that may run out of fuel. *)
Definition terminating {A} (o : option A) : M A :=
  fun w => match o with
           | None => None
           | Some a => Some (Rcon.Return a, w)
           end.

Section Chat.

Variable RCON_ENABLED : bool.
Variable CHANNEL_ID : str.
Variable RCON_PREFIX : str.
Variable RCON_ALLOWED_USER_IDS : list str.
Variable RCON_ALLOWED_ROLE_ID : str.
Variable connect_reply : list Rcon.call -> Rcon.outcome Rcon.session.
Variable exec_reply :
  list Rcon.call -> Rcon.session -> str -> Rcon.outcome str.
(** The chat platform is a black box: whether a request succeeds may depend
    on every request made before. *)
Variable reply_result : list effect -> str -> Rcon.outcome unit.
Variable typing_result : list effect -> Rcon.outcome unit.

Definition platform {A} (e : effect) (result : list effect -> Rcon.outcome A)
  : M A :=
  fun w =>
    Some (result (effects w),
          {| rconManager := rconManager w; effects := effects w ++ [e] |}).

(** [await msg.reply(content)], [await msg.channel.sendTyping()] *)
Definition reply (c : str) : M unit :=
  platform (Reply c) (fun log => reply_result log c).

Definition sendTyping : M unit := platform Typing typing_result.

Definition NOT_ALLOWED : str :=
  0x274C :: lit " You are not allowed to use RCON here.".

Definition usage : str :=
  [0x2139; 0xFE0F] ++ lit " Usage: `" ++ RCON_PREFIX
  ++ lit "<minecraft command>`".

Definition NO_OUTPUT : str := 0x2705 :: lit " Executed (no output)".

(** [err?.message ?? String(err)], cut to 1800 units, in its frame. *)
Definition error_reply (e : Rcon.error) : str :=
  0x274C :: lit " RCON error: `" ++ slice e 0 1800 ++ lit "`".

(** [for (const c of chunks) await msg.reply({ content: c })] *)
Fixpoint reply_each (cs : list str) : M unit :=
  match cs with
  | [] => ret tt
  | c :: cs' => reply c ;; reply_each cs'
  end.

(** The end of the [try] block: the result of the command goes back to
    the channel in a code fence, cut to fit. *)
Definition report (result : str) : M unit :=
  let text := if truthy (trim result) then trim result else NO_OUTPUT in
  chunks <- terminating
              (splitToChunks (FENCE ++ text ++ FENCE)
                 (DISCORD_HARD_LIMIT - 1)) ;;
  reply_each chunks.

(** The [try] block. *)
Definition answer (msg : message) : M unit :=
  if negb RCON_ENABLED then ret tt
  else if author_bot msg then ret tt
  else if negb (str_eqb (channelId msg) CHANNEL_ID) then ret tt
  else if negb (starts_with RCON_PREFIX (content msg)) then ret tt
  else if (0 <? len_lines RCON_ALLOWED_USER_IDS)
          && negb (includes RCON_ALLOWED_USER_IDS (author_id msg))
  then reply NOT_ALLOWED
  else if truthy RCON_ALLOWED_ROLE_ID
          && negb match member_roles msg with
                  | None => false
                  | Some roles => includes roles RCON_ALLOWED_ROLE_ID
                  end
  then reply NOT_ALLOWED
  else
    let command :=
      trim (slice (content msg) (len RCON_PREFIX) (len (content msg))) in
    if negb (truthy command) then reply usage
    else
      (if can_type msg then sendTyping else ret tt) ;;
      result <- lift (Rcon.send RCON_ENABLED connect_reply exec_reply
                        command) ;;
      report result.

(** The handler: the [try] block, and the [catch] that reports the error
    and swallows a failure of that report. *)
Definition messageCreate (msg : message) : M unit :=
  try_catch (answer msg)
    (fun err => try_catch (reply (error_reply err)) (fun _ => ret tt)).

End Chat.

Definition started : world :=
  {| rconManager := {| Rcon.mgr := Rcon.fresh; Rcon.calls := [] |};
     effects := [] |}.

End Command.

(** ** The manager in use

    What the rest of the program does with the manager, one call after the
    other: [rconManager.send] from the message handler, [rconManager.close]
    from [shutdown], and the [end] event of the session. *)

Inductive manager_use : Type :=
| UseSend (command : str)
| UseClose
| SessionEnded.

Section ManagerUse.

Variable RCON_ENABLED : bool.
Variable connect_reply : list Rcon.call -> Rcon.outcome Rcon.session.
Variable exec_reply :
  list Rcon.call -> Rcon.session -> str -> Rcon.outcome str.
Variable end_reply : list Rcon.call -> Rcon.session -> Rcon.outcome unit.

Definition use_manager (w : Rcon.world) (u : manager_use) : Rcon.world :=
  match u with
  | UseSend command =>
      snd (Rcon.send RCON_ENABLED connect_reply exec_reply command w)
  | UseClose => snd (Rcon.close end_reply w)
  | SessionEnded => snd (Rcon.on_end w)
  end.

Definition use_manager_all (us : list manager_use) (w : Rcon.world)
  : Rcon.world :=
  fold_left use_manager us w.

End ManagerUse.

(** ** Vocabulary for the message handler *)

Section CommandVocabulary.

Variable RCON_ENABLED : bool.
Variable CHANNEL_ID : str.
Variable RCON_PREFIX : str.
Variable RCON_ALLOWED_USER_IDS : list str.
Variable RCON_ALLOWED_ROLE_ID : str.

(** A message the handler does not look at. *)
Definition ignored (msg : Command.message) : Prop :=
  RCON_ENABLED = false
  \/ Command.author_bot msg = true
  \/ Command.channelId msg <> CHANNEL_ID
  \/ ~ (exists rest, Command.content msg = RCON_PREFIX ++ rest).

(** A message whose command may go to the console. *)
Definition permitted (msg : Command.message) : Prop :=
  RCON_ENABLED = true
  /\ Command.author_bot msg = false
  /\ Command.channelId msg = CHANNEL_ID
  /\ (exists rest,
         Command.content msg = RCON_PREFIX ++ rest /\ trim rest <> [])
  /\ (RCON_ALLOWED_USER_IDS = []
      \/ In (Command.author_id msg) RCON_ALLOWED_USER_IDS)
  /\ (RCON_ALLOWED_ROLE_ID = []
      \/ exists roles,
           Command.member_roles msg = Some roles
           /\ In RCON_ALLOWED_ROLE_ID roles).

(** A request the chat platform can take: a reply below the limit of a
    message (the usage hint apart, whose size is that of the prefix). *)
Definition fits (e : Command.effect) : Prop :=
  match e with
  | Command.Reply c =>
      len c < DISCORD_HARD_LIMIT \/ c = Command.usage RCON_PREFIX
  | Command.Typing => True
  end.

End CommandVocabulary.

(** ** Vocabulary for the end of [shutdown] *)

(** How many times the awaited promise of the first activation settles. *)
Definition settled (es : list Shutdown.event) : nat :=
  length (filter (fun e => match e with
                           | Shutdown.Resume 0 => true
                           | _ => false
                           end) es).

(** The awaits an activation still has before it, the exit included. *)
Definition awaits_left (p : Shutdown.process) : nat :=
  match Shutdown.activations p with
  | [] => 0
  | k :: _ => S Shutdown.last_segment - k
  end.

(** ** Vocabulary for the accounts of the queue

    What the Messenger is handed is counted in texts: a line that fits is
    one text, an oversized line is the texts of its chunks. *)

Definition pieces (line : str) : list str :=
  if MAX_CONTENT <? len line then chunks line MAX_CONTENT else [line].

(** The texts of the sends attempted so far. *)
Definition sent_pieces (tr : list attempt) : list str :=
  flat_map payload (map fst tr).

(** The texts a suspended call holds or has still to send. *)
Definition cont_pieces (k : Async.cont) : list str :=
  match k with
  | Async.PushThenLoop raw _ => [raw]
  | Async.PiecesThenLoop _ _ rest => rest
  | Async.Finish => []
  end.

Definition next_pieces (k : option Async.cont) : list str :=
  match k with
  | None => []
  | Some k => cont_pieces k
  end.

Definition activation_pieces (act : Async.activation) : list str :=
  Async.held act ++ cont_pieces (Async.todo act).

(** Every text the program has taken charge of: sent, held by a suspended
    call, or waiting in the queue. *)
Definition account (w : Async.world) : list str :=
  sent_pieces (outbox (Async.sys w))
  ++ flat_map activation_pieces (Async.flushes w)
  ++ flat_map pieces (queue (Async.sys w)).

(** ** What the specification says of [sanitize]

    Read from left to right, with [zw] the zero-width mark: an at-sign gets
    the mark behind it, a fence of three backticks gets the mark behind its
    first backtick, every other code unit is kept. *)

Inductive Sanitized (zw : Z) : str -> str -> Prop :=
| San_end : Sanitized zw [] []
| San_at s t :
    Sanitized zw s t ->
    Sanitized zw (AT :: s) (AT :: zw :: t)
| San_fence s t :
    Sanitized zw s t ->
    Sanitized zw (BACKTICK :: BACKTICK :: BACKTICK :: s)
                 (BACKTICK :: zw :: BACKTICK :: BACKTICK :: t)
| San_keep c s t :
    c <> AT ->
    starts_with FENCE (c :: s) = false ->
    Sanitized zw s t ->
    Sanitized zw (c :: s) (c :: t).

(** ** Vocabulary for the properties of the queue *)

(** The messages the loop over [chunks] produces, from zero-based index [i]. *)
Fixpoint fragments (total i : Z) (cs : list str) : list message :=
  match cs with
  | [] => []
  | c :: cs' => Fragment c (i + 1) total :: fragments total (i + 1) cs'
  end.

(** The two bounds of a batch. *)
Definition batch_ok (max_lines : Z) (ls : list str) : Prop :=
  len (join [NEWLINE] ls) <= MAX_CONTENT /\ len_lines ls <= max_lines.

Definition batches_ok (max_lines : Z) (ms : list message) : Prop :=
  Forall (fun m => match m with
                   | Batch ls => batch_ok max_lines ls
                   | Fragment _ _ _ => True
                   end) ms.

(** A run of messages that ends no line half-way. *)
Definition complete (ms : list message) : Prop :=
  forall rest,
    reassemble [] (ms ++ rest) = reassemble [] ms ++ reassemble [] rest.

(** A send with the outcome the Messenger gives it. *)
Definition attempted (channel_send : str -> bool) (m : message) : attempt :=
  (m, channel_send (content m)).

(** The batch [flushCurrent] sends, if any. *)
Definition pending_batch (ls : list str) : list message :=
  match ls with
  | [] => []
  | _ :: _ => [Batch ls]
  end.

(** The same flush, started on a trace that already holds [tr]. *)
Definition prepend (tr : list attempt) (st : flush_state) : flush_state :=
  {| current := current st; currentLen := currentLen st;
     sent := tr ++ sent st |}.

(** The state of a flush that has sent nothing and holds nothing. *)
Definition idle : flush_state :=
  {| current := []; currentLen := 0; sent := [] |}.

(** The sends of one flush of the lines [q], on an empty outbox; neither
    [force] nor the timer has a part in them. *)
Definition flush_trace (max_lines : Z) (channel_send : str -> bool)
  (q : list str) : option (list attempt) :=
  option_map outbox
    (flushQueue max_lines channel_send true
       {| channel := true; queue := q; flushTimer := true; outbox := [] |}).

(** A message the Messenger can take. *)
Definition within_limit (m : message) : Prop :=
  len (content m) <= DISCORD_HARD_LIMIT.

(** ceil(a / b) for positive [b]. *)
Definition ceil_div (a b : Z) : Z := (a + b - 1) / b.

(** [sanitizeLine]'s first pass, unit by unit. *)
Definition mark_at (c : Z) : str := if c =? AT then [AT; ZWSP] else [c].

Section OutboundVocabulary.

Variable MAX_LINES_PER_BATCH : Z.
Variable channel_send : str -> bool.

(** What one iteration does, by cases. *)
Inductive step_spec (raw : str) (st : flush_state) : flush_state -> Prop :=
| Step_oversized :
    MAX_CONTENT < len raw ->
    step_spec raw st
      {| current := [];
         currentLen := match current st with
                       | [] => currentLen st
                       | _ :: _ => 0
                       end;
         sent := sent st
                 ++ map (attempted channel_send)
                      (pending_batch (current st)
                       ++ fragments (len_lines (chunks raw MAX_CONTENT)) 0
                            (chunks raw MAX_CONTENT)) |}
| Step_flush :
    len raw <= MAX_CONTENT ->
    (MAX_CONTENT
     < currentLen st + match current st with [] => 0 | _ :: _ => 1 end + len raw
     \/ MAX_LINES_PER_BATCH < len_lines (current st) + 1) ->
    step_spec raw st
      {| current := [raw];
         currentLen := match current st with [] => 0 | _ :: _ => 1 end
                       + len raw;
         sent := sent st
                 ++ map (attempted channel_send)
                      (pending_batch (current st)) |}
| Step_append :
    len raw <= MAX_CONTENT ->
    currentLen st + match current st with [] => 0 | _ :: _ => 1 end + len raw
    <= MAX_CONTENT ->
    len_lines (current st) + 1 <= MAX_LINES_PER_BATCH ->
    step_spec raw st
      {| current := current st ++ [raw];
         currentLen := currentLen st
                       + (match current st with [] => 0 | _ :: _ => 1 end
                          + len raw);
         sent := sent st |}.

(** The loop, as a chain of iterations. *)
Inductive steps : list str -> flush_state -> flush_state -> Prop :=
| steps_done st : steps [] st st
| steps_next raw q st st1 st2 :
    step_spec raw st st1 -> steps q st1 st2 -> steps (raw :: q) st st2.

End OutboundVocabulary.

(** The running length never falls short of the text that is held, the
    text that is held fits, and an empty batch has running length 0. *)
Record wf (st : flush_state) : Prop := mkWf {
  wf_empty : current st = [] -> currentLen st = 0;
  wf_len : len (join [NEWLINE] (current st)) <= currentLen st;
  wf_fit : len (join [NEWLINE] (current st)) <= MAX_CONTENT
}.

Section ShutdownVocabulary.

Variable stdin_writable : bool.
Variable closed_in_grace : bool.

(** The teardown done by the first [k] segments. *)
Definition done_upto (k : nat) : list Shutdown.action :=
  concat (map (Shutdown.segment stdin_writable closed_in_grace) (seq 0 k)).

(** The states the process can be in: no shutdown yet; one activation,
    about to run segment [k]; or exited, with the whole teardown done. *)
Inductive progress : Shutdown.process -> Prop :=
| Not_started : progress Shutdown.started
| Running k :
    (1 <= k <= Shutdown.last_segment)%nat ->
    progress {| Shutdown.shuttingDown := true;
                Shutdown.activations := [k];
                Shutdown.performed := done_upto k;
                Shutdown.exited := false |}
| Finished :
    progress {| Shutdown.shuttingDown := true;
                Shutdown.activations := [];
                Shutdown.performed :=
                  Shutdown.teardown stdin_writable closed_in_grace;
                Shutdown.exited := true |}.

End ShutdownVocabulary.

(** ** Vocabulary for the event loop *)

(** What a suspended call may carry: a line that fits, with a running
    length that covers it; or pieces that fit. *)
Definition cont_ok (k : Async.cont) : Prop :=
  match k with
  | Async.PushThenLoop raw addLen => len raw <= MAX_CONTENT /\ len raw <= addLen
  | Async.PiecesThenLoop _ _ rest => Forall (fun c => len c <= MAX_CONTENT) rest
  | Async.Finish => True
  end.

(** A call is suspended with an empty batch: it has just sent what it held,
    or it is sending pieces. *)
Definition activation_ok (act : Async.activation) : Prop :=
  Async.held act = [] /\ Async.heldLen act = 0 /\ cont_ok (Async.todo act).

Definition good (w : Async.world) : Prop :=
  Forall activation_ok (Async.flushes w).

Definition next_text (k : option Async.cont) : str :=
  match k with
  | None => []
  | Some k => Async.cont_text k
  end.

Definition next_ok (k : option Async.cont) : Prop :=
  match k with
  | None => True
  | Some k => cont_ok k
  end.

(** The text of all suspended calls, oldest first. *)
Definition flushes_text (acts : list Async.activation) : str :=
  concat (map Async.activation_text acts).

(** What a turn leaves behind, in terms of what it started from: [new] are
    the sends of the turn, [text] is what the call held or had to send when
    the turn began, [q] the queue it found, [lines] the size of its batch. *)
Definition turn_spec (max_lines : Z) (channel_send : str -> bool)
  (st : flush_state) (text : str) (q : list str) (lines : Z)
  (t : Async.turn) : Prop :=
  current (Async.state t) = []
  /\ currentLen (Async.state t) = 0
  /\ next_ok (Async.next t)
  /\ exists new,
      sent (Async.state t) = sent st ++ map (attempted channel_send) new
      /\ delivered_text new ++ next_text (Async.next t)
         ++ concat (Async.rest_queue t)
         = text ++ concat q
      /\ (1 <= max_lines -> lines <= max_lines -> batches_ok max_lines new).

(** What is left of a call of [flushQueue] that is suspended with [k], if
    nothing else runs before it returns: the state with which it returns. *)
Definition finish_call (max_lines : Z) (channel_send : str -> bool)
  (k : Async.cont) (q : list str) (st : flush_state) : option flush_state :=
  match k with
  | Async.PushThenLoop raw addLen =>
      option_map (flushCurrent channel_send)
        (drain max_lines channel_send q (Async.push raw addLen st))
  | Async.PiecesThenLoop total i rest =>
      option_map (flushCurrent channel_send)
        (drain max_lines channel_send q
           {| current := current st; currentLen := currentLen st;
              sent := sendChunks channel_send total i rest (sent st) |})
  | Async.Finish => Some st
  end.

(** A world with one suspended call. *)
Definition suspended (ch timer f : bool) (k : Async.cont) (q : list str)
  (tr : list attempt) : Async.world :=
  {| Async.sys := {| channel := ch; queue := q; flushTimer := timer;
                     outbox := tr |};
     Async.flushes := [{| Async.force := f; Async.held := [];
                          Async.heldLen := 0; Async.todo := k |}] |}.

(** A world with no suspended call. *)
Definition returned (ch timer f : bool) (st : flush_state) : Async.world :=
  {| Async.sys := stopTimerIfForced f
                    {| channel := ch; queue := []; flushTimer := timer;
                       outbox := sent st |};
     Async.flushes := [] |}.

(** ** Concrete collaborators, for the examples *)

(** A Messenger that accepts what fits under the hard limit. *)
Definition accepts_within_limit (c : str) : bool :=
  len c <=? DISCORD_HARD_LIMIT.

(** A transport that numbers its sessions by the calls made so far, and on
    which every command fails. *)
Definition numbered_sessions (log : list Rcon.call)
  : Rcon.outcome Rcon.session :=
  Rcon.Return (length log).

Definition always_failing (log : list Rcon.call) (s : Rcon.session)
  (command : str) : Rcon.outcome str :=
  Rcon.Throw (lit "connection reset").

(** A transport on which every command answers "Done", and one that
    refuses every connection. *)
Definition always_done (log : list Rcon.call) (s : Rcon.session)
  (command : str) : Rcon.outcome str :=
  Rcon.Return (lit "Done").

Definition refusing (log : list Rcon.call) : Rcon.outcome Rcon.session :=
  Rcon.Throw (lit "connect ECONNREFUSED").

(** A chat platform on which every request succeeds. *)
Definition replies_succeed (log : list Command.effect) (c : str)
  : Rcon.outcome unit :=
  Rcon.Return tt.

Definition typing_succeeds (log : list Command.effect) : Rcon.outcome unit :=
  Rcon.Return tt.

(** A member asks for the list of players; a bot writes the same. *)
Definition asks_list : Command.message :=
  {| Command.author_bot := false;
     Command.author_id := lit "42";
     Command.channelId := lit "7";
     Command.content := lit "!rcon list";
     Command.member_roles := Some [lit "admin"];
     Command.can_type := true |}.

Definition bot_asks_list : Command.message :=
  {| Command.author_bot := true;
     Command.author_id := lit "99";
     Command.channelId := lit "7";
     Command.content := lit "!rcon list";
     Command.member_roles := None;
     Command.can_type := true |}.

(** * Properties *)

(** ** Lists of code units *)

Lemma len_nonneg (s : str) : 0 <= len s.
Proof. unfold len; lia. Qed.

Lemma len_app (a b : str) : len (a ++ b) = len a + len b.
Proof. unfold len; rewrite length_app; lia. Qed.

Lemma len_nil_iff (s : str) : len s = 0 <-> s = [].
Proof.
  unfold len; split; intros H.
  - destruct s; [reflexivity | simpl in H; lia].
  - subst; reflexivity.
Qed.

Lemma firstn_beyond (n : nat) (s : str) :
  firstn (Nat.min n (length s)) s = firstn n s.
Proof.
  destruct (Nat.le_ge_cases n (length s)) as [H | H].
  - now rewrite Nat.min_l.
  - rewrite Nat.min_r by assumption.
    now rewrite firstn_all, firstn_all2.
Qed.

(** Inside the string, [slice] is "drop [i], take [max]". *)
Lemma slice_window (s : str) (i max : Z) :
  0 <= i < len s -> 0 < max ->
  slice s i (i + max) = firstn (Z.to_nat max) (skipn (Z.to_nat i) s).
Proof.
  intros Hi Hmax; unfold slice, clamp_index.
  destruct (Z.ltb_spec i 0); [lia |].
  destruct (Z.ltb_spec (i + max) 0); [lia |].
  rewrite (Z.min_l i) by lia.
  rewrite <- (firstn_beyond (Z.to_nat max)), length_skipn.
  f_equal; unfold len in *; lia.
Qed.

(** ** [splitToChunks] *)

Lemma chunks_by_nil (fuel n : nat) : chunks_by fuel n [] = [].
Proof. destruct fuel; reflexivity. Qed.

(** The loop of the program computes the cut-every-[max] chunking. *)
Lemma splitLoop_chunks_by (fuel : nat) :
  forall (s : str) (max i : Z) (out : list str),
    0 < max -> 0 <= i ->
    (length (skipn (Z.to_nat i) s) <= fuel)%nat ->
    splitLoop fuel s max i out
    = Some (out ++ chunks_by fuel (Z.to_nat max) (skipn (Z.to_nat i) s)).
Proof.
  induction fuel as [| fuel IH]; intros s max i out Hmax Hi Hfuel.
  - simpl. rewrite length_skipn in Hfuel.
    destruct (Z.ltb_spec i (len s)); [unfold len in *; lia |].
    now rewrite app_nil_r.
  - cbn [splitLoop]. destruct (Z.ltb_spec i (len s)) as [Hlt | Hge].
    + rewrite IH; try lia.
      * rewrite <- app_assoc. do 2 f_equal. cbn [app].
        destruct (skipn (Z.to_nat i) s) as [| c rest] eqn:E.
        { apply (f_equal (@length Z)) in E. rewrite length_skipn in E.
          simpl in E. unfold len in Hlt. lia. }
        cbn [chunks_by]. rewrite <- E.
        rewrite slice_window by lia.
        rewrite skipn_skipn. do 3 f_equal. lia.
      * rewrite length_skipn in *. unfold len in Hlt. lia.
    + rewrite skipn_all2 by (unfold len in Hge; lia).
      now rewrite chunks_by_nil, app_nil_r.
Qed.

Lemma splitToChunks_chunks (s : str) (max : Z) :
  0 < max -> splitToChunks s max = Some (chunks s max).
Proof.
  intros Hmax. unfold splitToChunks, chunks.
  rewrite splitLoop_chunks_by; simpl; try lia. reflexivity.
Qed.

Lemma chunks_by_concat (fuel n : nat) :
  forall s : str, (0 < n)%nat -> (length s <= fuel)%nat ->
               concat (chunks_by fuel n s) = s.
Proof.
  induction fuel as [| fuel IH]; intros s Hn Hfuel.
  - destruct s; [reflexivity | simpl in Hfuel; lia].
  - destruct s as [| c s']; [reflexivity |].
    cbn [chunks_by concat]. rewrite IH; [apply firstn_skipn | lia |].
    rewrite length_skipn. lia.
Qed.

Lemma chunks_by_bounded (fuel n : nat) :
  forall s : str, Forall (fun c => (length c <= n)%nat) (chunks_by fuel n s).
Proof.
  induction fuel as [| fuel IH]; intros s; [constructor |].
  destruct s as [| c s']; [constructor |].
  cbn [chunks_by]. constructor; [| apply IH].
  rewrite length_firstn. lia.
Qed.

Lemma chunks_concat (s : str) (max : Z) : 0 < max -> concat (chunks s max) = s.
Proof. intros H. apply chunks_by_concat; lia. Qed.

Lemma chunks_bounded (s : str) (max : Z) :
  0 < max -> Forall (fun c => len c <= max) (chunks s max).
Proof.
  intros H. unfold chunks.
  eapply Forall_impl; [| apply chunks_by_bounded].
  intros c Hc. cbv beta in Hc. unfold len. lia.
Qed.

(** C4. For every string [s] and every positive [max], [splitToChunks]
    returns: its result is a list of substrings, each at most [max] long,
    whose concatenation is [s] (nothing dropped, nothing repeated).  In
    particular "abcdef" cut by 2 gives "ab","cd","ef" and "abc" cut by 10
    gives "abc". *)
Theorem splitToChunks_partition :
  (forall (s : str) (max : Z),
      0 < max ->
      exists cs, splitToChunks s max = Some cs
                 /\ Forall (fun c => len c <= max) cs
                 /\ concat cs = s)
  /\ splitToChunks (lit "abcdef") 2 = Some [lit "ab"; lit "cd"; lit "ef"]
  /\ splitToChunks (lit "abc") 10 = Some [lit "abc"].
Proof.
  split; [| split; reflexivity].
  intros s max Hmax. exists (chunks s max).
  auto using splitToChunks_chunks, chunks_bounded, chunks_concat.
Qed.

Lemma splitToChunks_partition_witness :
  exists cs, splitToChunks (lit "hello") 2 = Some cs
             /\ Forall (fun c => len c <= 2) cs
             /\ concat cs = lit "hello".
Proof. apply (proj1 splitToChunks_partition). reflexivity. Defined.

(** ** [sanitizeLine] *)

(** After a match the scan resumes behind the matched pattern. *)
Lemma replaceAll_from_skip (pat rep : str) :
  forall (over t : str),
    replaceAll_from (length over) pat rep (over ++ t)
    = replaceAll_from 0 pat rep t.
Proof.
  induction over as [| c over IH]; intros t; [reflexivity |].
  cbn [length app replaceAll_from]. apply IH.
Qed.

Lemma replaceAll_at (s : str) :
  replaceAll [AT] [AT; ZWSP] s = flat_map mark_at s.
Proof.
  unfold replaceAll. induction s as [| c s IH]; [reflexivity |].
  cbn [replaceAll_from starts_with flat_map length]. rewrite IH.
  unfold mark_at. rewrite Z.eqb_sym, andb_true_r.
  destruct (c =? AT) eqn:E; [| reflexivity].
  apply Z.eqb_eq in E. now subst.
Qed.

Lemma replaceAll_fence_hit (rep t : str) :
  replaceAll FENCE rep (BACKTICK :: BACKTICK :: BACKTICK :: t)
  = rep ++ replaceAll FENCE rep t.
Proof.
  unfold replaceAll. cbn [replaceAll_from FENCE starts_with length].
  rewrite Z.eqb_refl. cbn [andb].
  now rewrite <- (replaceAll_from_skip FENCE rep [BACKTICK; BACKTICK] t).
Qed.

Lemma replaceAll_fence_miss (rep : str) (c : Z) (t : str) :
  starts_with FENCE (c :: t) = false ->
  replaceAll FENCE rep (c :: t) = c :: replaceAll FENCE rep t.
Proof.
  intros H. unfold replaceAll. cbn [replaceAll_from]. now rewrite H.
Qed.

(** Marking the at-signs neither makes nor breaks a fence at the head. *)
Lemma starts_with_fence_mark_at (s : str) :
  starts_with FENCE (flat_map mark_at s) = starts_with FENCE s.
Proof.
  assert (Hm : forall c, (BACKTICK =? c) = true -> mark_at c = [c]).
  { intros c Hc. apply Z.eqb_eq in Hc. now subst. }
  destruct s as [| a s]; [reflexivity |].
  destruct (BACKTICK =? a) eqn:Ea.
  2:{ cbn [flat_map]. unfold mark_at.
      destruct (a =? AT) eqn:E; cbn [app FENCE starts_with];
        [apply Z.eqb_eq in E; subst; reflexivity | now rewrite Ea]. }
  cbn [flat_map]. rewrite (Hm a Ea). cbn [app FENCE starts_with]. rewrite Ea.
  cbn [andb]. destruct s as [| b s]; [reflexivity |].
  destruct (BACKTICK =? b) eqn:Eb.
  2:{ cbn [flat_map]. unfold mark_at.
      destruct (b =? AT) eqn:E; cbn [app starts_with];
        [apply Z.eqb_eq in E; subst; reflexivity | now rewrite Eb]. }
  cbn [flat_map]. rewrite (Hm b Eb). cbn [app starts_with]. rewrite Eb.
  cbn [andb]. destruct s as [| c s]; [reflexivity |].
  destruct (BACKTICK =? c) eqn:Ec.
  2:{ cbn [flat_map]. unfold mark_at.
      destruct (c =? AT) eqn:E; cbn [app starts_with];
        [apply Z.eqb_eq in E; subst; reflexivity | now rewrite Ec]. }
  cbn [flat_map]. rewrite (Hm c Ec). cbn [app starts_with]. now rewrite Ec.
Qed.

(** The four equations by which [sanitizeLine] reads its argument. *)
Lemma sanitizeLine_nil : sanitizeLine [] = [].
Proof. reflexivity. Qed.

Lemma sanitizeLine_at (s : str) :
  sanitizeLine (AT :: s) = AT :: ZWSP :: sanitizeLine s.
Proof.
  unfold sanitizeLine. rewrite !replaceAll_at.
  cbn [flat_map]. change (mark_at AT) with [AT; ZWSP]. cbn [app].
  now rewrite !replaceAll_fence_miss by reflexivity.
Qed.

Lemma sanitizeLine_fence (s : str) :
  sanitizeLine (BACKTICK :: BACKTICK :: BACKTICK :: s)
  = BACKTICK :: ZWSP :: BACKTICK :: BACKTICK :: sanitizeLine s.
Proof.
  unfold sanitizeLine. rewrite !replaceAll_at.
  cbn [flat_map]. change (mark_at BACKTICK) with [BACKTICK]. cbn [app].
  now rewrite replaceAll_fence_hit.
Qed.

Lemma sanitizeLine_keep (c : Z) (s : str) :
  c <> AT -> starts_with FENCE (c :: s) = false ->
  sanitizeLine (c :: s) = c :: sanitizeLine s.
Proof.
  intros Hc Hf. unfold sanitizeLine. rewrite !replaceAll_at.
  assert (E : flat_map mark_at (c :: s) = c :: flat_map mark_at s).
  { cbn [flat_map]. unfold mark_at at 1.
    destruct (Z.eqb_spec c AT); [contradiction | reflexivity]. }
  rewrite E. apply replaceAll_fence_miss.
  now rewrite <- E, starts_with_fence_mark_at.
Qed.

Lemma starts_with_fence_true (s : str) :
  starts_with FENCE s = true ->
  exists t, s = BACKTICK :: BACKTICK :: BACKTICK :: t.
Proof.
  destruct s as [| a [| b [| c t]]]; cbn [FENCE starts_with];
    rewrite ?andb_false_r; try discriminate.
  rewrite andb_true_r, !andb_true_iff, !Z.eqb_eq.
  intros (-> & -> & ->). now exists t.
Qed.

Lemma sanitizeLine_Sanitized_upto (n : nat) :
  forall s : str, (length s <= n)%nat -> Sanitized ZWSP s (sanitizeLine s).
Proof.
  induction n as [| n IH]; intros s Hn.
  - destruct s; [constructor | simpl in Hn; lia].
  - destruct s as [| c s]; [constructor |].
    destruct (Z.eq_dec c AT) as [-> | Hc].
    + rewrite sanitizeLine_at. constructor. apply IH. simpl in Hn. lia.
    + destruct (starts_with FENCE (c :: s)) eqn:Hf.
      * apply starts_with_fence_true in Hf as [t Ht]. rewrite Ht.
        rewrite sanitizeLine_fence. constructor. apply IH.
        rewrite Ht in Hn. simpl in Hn. lia.
      * rewrite sanitizeLine_keep by assumption. constructor; auto.
        apply IH. simpl in Hn. lia.
Qed.

Lemma Sanitized_sanitizeLine (s t : str) :
  Sanitized ZWSP s t -> t = sanitizeLine s.
Proof.
  induction 1; subst.
  - reflexivity.
  - now rewrite sanitizeLine_at.
  - now rewrite sanitizeLine_fence.
  - now rewrite sanitizeLine_keep.
Qed.

(** C5, as amended.  [sanitizeLine] is a function defined on every string,
    and its result is the one reading the specification describes, with
    the zero-width SPACE (U+200B) as the mark: behind every at-sign, and
    behind the first backtick of every fence of three; every other code
    unit is kept as it is. *)
Theorem sanitizeLine_marks_with_zero_width_space :
  forall s t : str, Sanitized ZWSP s t <-> t = sanitizeLine s.
Proof.
  intros s t; split.
  - apply Sanitized_sanitizeLine.
  - intros ->. now apply (sanitizeLine_Sanitized_upto (length s)).
Qed.

(** C5, as stated, names the zero-width JOINER (U+200D); the program
    inserts U+200B.  Already at "@" the two differ. *)
Lemma sanitizeLine_mark_is_not_joiner :
  sanitizeLine (lit "@") = [AT; ZWSP]
  /\ ~ Sanitized ZWJ (lit "@") (sanitizeLine (lit "@")).
Proof.
  split; [reflexivity |].
  change (sanitizeLine (lit "@")) with [AT; ZWSP].
  change (lit "@") with [AT].
  intros H. inversion H; subst; try discriminate.
  match goal with K : AT <> AT |- _ => now apply K end.
Qed.

(** C6. [sanitizeLine] is not idempotent: on "@" a second pass puts a second
    mark behind the at-sign. *)
Theorem sanitizeLine_not_idempotent :
  exists x : str, sanitizeLine (sanitizeLine x) <> sanitizeLine x.
Proof.
  exists (lit "@").
  change (sanitizeLine (lit "@")) with [AT; ZWSP].
  rewrite sanitizeLine_at. intros H. inversion H.
Qed.

(** ** Chunk counts and chunk sizes *)

Lemma chunks_by_count (fuel n : nat) :
  forall s : str,
    (0 < n)%nat -> (length s <= fuel)%nat ->
    Z.of_nat (length (chunks_by fuel n s))
    = ceil_div (Z.of_nat (length s)) (Z.of_nat n).
Proof.
  unfold ceil_div.
  induction fuel as [| fuel IH]; intros s Hn Hfuel.
  - destruct s; [| simpl in Hfuel; lia].
    cbn [chunks_by length]. symmetry. apply Z.div_small. lia.
  - destruct s as [| c s'].
    { cbn [chunks_by length]. symmetry. apply Z.div_small. lia. }
    cbn [chunks_by]. remember (c :: s') as s eqn:Es.
    assert (Hpos : (0 < length s)%nat) by (subst; simpl; lia).
    cbn [length]. rewrite Nat2Z.inj_succ, IH, length_skipn by
      (try rewrite length_skipn; lia).
    destruct (Nat.le_gt_cases n (length s)) as [Hle | Hgt].
    + rewrite Nat2Z.inj_sub by assumption.
      replace (Z.of_nat (length s) + Z.of_nat n - 1)
        with (Z.of_nat (length s) - 1 + 1 * Z.of_nat n) by lia.
      rewrite Z.div_add by lia.
      replace (Z.of_nat (length s) - Z.of_nat n + Z.of_nat n - 1)
        with (Z.of_nat (length s) - 1) by lia.
      lia.
    + replace (length s - n)%nat with 0%nat by lia.
      rewrite Z.div_small by lia.
      apply Z.div_unique with (r := Z.of_nat (length s) - 1); lia.
Qed.

Lemma chunks_count (s : str) (max : Z) :
  0 < max -> len_lines (chunks s max) = ceil_div (len s) max.
Proof.
  intros H. unfold len_lines, chunks, len.
  rewrite chunks_by_count by lia. now rewrite Z2Nat.id by lia.
Qed.

(** Every chunk before the last is full. *)
Lemma chunks_by_full (k : nat) :
  forall (fuel n : nat) (s : str),
    (0 < n)%nat -> (length s <= fuel)%nat -> ((k + 1) * n <= length s)%nat ->
    exists c, nth_error (chunks_by fuel n s) k = Some c /\ length c = n.
Proof.
  induction k as [| k IH]; intros fuel n s Hn Hfuel Hk.
  - destruct fuel as [| fuel]; [lia |].
    destruct s as [| c s']; [simpl in Hk; lia |].
    cbn [chunks_by nth_error]. eexists; split; [reflexivity |].
    rewrite length_firstn. lia.
  - destruct fuel as [| fuel]; [lia |].
    destruct s as [| c s']; [simpl in Hk; lia |].
    cbn [chunks_by nth_error]. apply IH; try assumption;
      rewrite length_skipn; lia.
Qed.

Lemma chunks_full (s : str) (max k : Z) :
  0 < max -> 0 <= k -> (k + 1) * max <= len s ->
  exists c, nth_error (chunks s max) (Z.to_nat k) = Some c /\ len c = max.
Proof.
  intros Hmax Hk Hlen. unfold chunks, len in *.
  assert (Hnat : ((Z.to_nat k + 1) * Z.to_nat max <= length s)%nat).
  { apply Nat2Z.inj_le.
    rewrite Nat2Z.inj_mul, Nat2Z.inj_add, !Z2Nat.id by lia. exact Hlen. }
  destruct (chunks_by_full (Z.to_nat k) (length s) (Z.to_nat max) s)
    as (c & Hc & Hl); try lia.
  exists c. split; [assumption | lia].
Qed.

Lemma chunks_nonempty (s : str) (max : Z) :
  0 < max -> s <> [] -> chunks s max <> [].
Proof.
  intros Hmax Hs. unfold chunks. destruct s; [contradiction |]. discriminate.
Qed.


(** ** The flush loop *)

Lemma join_snoc (sep : str) (ls : list str) (l : str) :
  join sep (ls ++ [l])
  = match ls with
    | [] => l
    | _ :: _ => join sep ls ++ sep ++ l
    end.
Proof.
  induction ls as [| a ls IH]; [reflexivity |].
  cbn [app join]. rewrite IH.
  destruct ls as [| b ls]; cbn [app]; [reflexivity |].
  now rewrite <- !app_assoc.
Qed.

Lemma MAX_CONTENT_pos : 0 < MAX_CONTENT.
Proof. reflexivity. Qed.

Lemma reassemble_fragments (total : Z) (cs : list str) :
  forall (i : Z) (acc : str) (rest : list message),
    cs <> [] -> i + len_lines cs = total ->
    reassemble acc (fragments total i cs ++ rest)
    = (acc ++ concat cs) :: reassemble [] rest.
Proof.
  induction cs as [| c cs IH]; intros i acc rest Hne Htot; [contradiction |].
  cbn [fragments app reassemble concat].
  destruct cs as [| c' cs].
  - unfold len_lines in Htot. simpl in Htot.
    replace (i + 1 =? total) with true by (symmetry; apply Z.eqb_eq; lia).
    cbn [fragments app concat]. now rewrite app_nil_r.
  - replace (i + 1 =? total) with false.
    2:{ symmetry. apply Z.eqb_neq. unfold len_lines in Htot.
        cbn [length] in Htot. lia. }
    rewrite IH; [now rewrite app_assoc | discriminate |].
    unfold len_lines in *. cbn [length] in *. lia.
Qed.

Lemma complete_nil : complete [].
Proof. intros rest. reflexivity. Qed.

Lemma complete_app (a b : list message) :
  complete a -> complete b -> complete (a ++ b).
Proof.
  intros Ha Hb rest. rewrite <- app_assoc, Ha, Hb, (Ha b). apply app_assoc.
Qed.

Lemma complete_pending_batch (ls : list str) :
  complete (pending_batch ls) /\ reassemble [] (pending_batch ls) = ls.
Proof.
  destruct ls as [| l ls]; split; try reflexivity.
  - apply complete_nil.
  - intros rest. cbn [pending_batch app reassemble]. now rewrite app_nil_r.
  - cbn [pending_batch reassemble]. apply app_nil_r.
Qed.

Lemma complete_fragments (cs : list str) :
  cs <> [] ->
  complete (fragments (len_lines cs) 0 cs)
  /\ reassemble [] (fragments (len_lines cs) 0 cs) = [concat cs].
Proof.
  intros Hne.
  assert (E : forall rest,
             reassemble [] (fragments (len_lines cs) 0 cs ++ rest)
             = concat cs :: reassemble [] rest).
  { intros rest. now rewrite reassemble_fragments by (auto; lia). }
  split.
  - intros rest. rewrite E. specialize (E []). rewrite app_nil_r in E.
    now rewrite E.
  - specialize (E []). now rewrite app_nil_r in E.
Qed.

Lemma delivered_text_app (a b : list message) :
  delivered_text (a ++ b) = delivered_text a ++ delivered_text b.
Proof. unfold delivered_text. now rewrite flat_map_app, concat_app. Qed.

Lemma delivered_text_fragments (total : Z) (cs : list str) :
  forall i, delivered_text (fragments total i cs) = concat cs.
Proof.
  unfold delivered_text.
  induction cs as [| c cs IH]; intros i; [reflexivity |].
  cbn [fragments flat_map payload app concat]. now rewrite IH.
Qed.

Lemma delivered_text_pending_batch (ls : list str) :
  delivered_text (pending_batch ls) = concat ls.
Proof.
  destruct ls; [reflexivity |].
  unfold delivered_text. cbn [pending_batch flat_map payload].
  now rewrite app_nil_r.
Qed.

Lemma no_failure_delivered (tr : list attempt) :
  no_send_failed tr -> delivered tr = map fst tr.
Proof.
  unfold delivered. induction 1 as [| [m ok] tr Hok _ IH]; [reflexivity |].
  cbn [snd] in Hok. subst ok. cbn [filter snd map fst]. now rewrite IH.
Qed.

Section OutboundProperties.

Variable MAX_LINES_PER_BATCH : Z.
Variable channel_send : str -> bool.


Lemma map_fst_attempted (ms : list message) :
  map fst (map (attempted channel_send) ms) = ms.
Proof. rewrite map_map. cbn [attempted fst]. apply map_id. Qed.

Lemma sendChunks_fragments (total : Z) (cs : list str) :
  forall i tr,
    sendChunks channel_send total i cs tr
    = tr ++ map (attempted channel_send) (fragments total i cs).
Proof.
  induction cs as [| c cs IH]; intros i tr.
  - cbn. now rewrite app_nil_r.
  - cbn [sendChunks fragments map]. rewrite IH.
    unfold sendPacked. cbn [packed_lines].
    now rewrite <- app_assoc.
Qed.

Lemma flushCurrent_sent (st : flush_state) :
  sent (flushCurrent channel_send st)
  = sent st ++ map (attempted channel_send) (pending_batch (current st)).
Proof.
  unfold flushCurrent. cbn [sent].
  destruct (current st); [now rewrite app_nil_r | reflexivity].
Qed.

(** Each iteration returns, in one of the three ways. *)
Lemma process_spec (raw : str) (st : flush_state) :
  exists st',
    process MAX_LINES_PER_BATCH channel_send raw st = Some st'
    /\ step_spec MAX_LINES_PER_BATCH channel_send raw st st'.
Proof.
  unfold process.
  destruct (Z.ltb_spec MAX_CONTENT (len raw)) as [Hbig | Hfit].
  - rewrite splitToChunks_chunks by apply MAX_CONTENT_pos.
    eexists; split; [reflexivity |].
    rewrite sendChunks_fragments.
    destruct (current st) eqn:E.
    + rewrite E. cbn [pending_batch app].
      pose proof (Step_oversized MAX_LINES_PER_BATCH channel_send raw st Hbig)
        as H.
      rewrite E in H. exact H.
    + rewrite flushCurrent_sent, E, <- app_assoc, <- map_app.
      cbn [flushCurrent current currentLen].
      pose proof (Step_oversized MAX_LINES_PER_BATCH channel_send raw st Hbig)
        as H.
      rewrite E in H. exact H.
  - eexists; split; [reflexivity |].
    destruct (Z.ltb_spec MAX_CONTENT
                (currentLen st
                 + (match current st with [] => 0 | _ :: _ => 1 end + len raw)))
      as [Hc | Hc];
      destruct (Z.ltb_spec MAX_LINES_PER_BATCH (len_lines (current st) + 1))
        as [Hl | Hl]; cbn [orb].
    1-3: rewrite flushCurrent_sent;
      cbn [flushCurrent current currentLen app]; rewrite Z.add_0_l;
      apply Step_flush; [assumption | lia].
    apply Step_append; lia.
Qed.

Lemma drain_steps (q : list str) :
  forall st,
    exists st', drain MAX_LINES_PER_BATCH channel_send q st = Some st'
                /\ steps MAX_LINES_PER_BATCH channel_send q st st'.
Proof.
  induction q as [| raw q IH]; intros st.
  - exists st. split; [reflexivity | constructor].
  - destruct (process_spec raw st) as (st1 & E1 & H1).
    destruct (IH st1) as (st2 & E2 & H2).
    exists st2. cbn [drain]. rewrite E1. split; [assumption |].
    econstructor; eassumption.
Qed.

Lemma wf_idle : wf idle.
Proof. split; cbn; intros; try reflexivity; unfold MAX_CONTENT; cbn; lia. Qed.

Lemma step_wf (raw : str) (st st' : flush_state) :
  wf st -> step_spec MAX_LINES_PER_BATCH channel_send raw st st' -> wf st'.
Proof.
  intros [He Hl Hf] H.
  pose proof (len_nonneg (join [NEWLINE] (current st))) as Hj.
  pose proof (len_nonneg raw) as Hr.
  destruct H as [Hbig | Hfit Hover | Hfit Hc Hn];
    split; cbn [current currentLen].
  - intros _. destruct (current st); auto.
  - destruct (current st); cbn [join len length]; [rewrite He by reflexivity |];
      reflexivity.
  - cbn. unfold MAX_CONTENT. cbn. lia.
  - discriminate.
  - cbn [join]. destruct (current st); lia.
  - cbn [join]. assumption.
  - intros E. apply app_eq_nil in E as [_ E]. discriminate.
  - rewrite join_snoc. destruct (current st) as [| l ls] eqn:E.
    + lia.
    + rewrite !len_app. change (len [NEWLINE]) with 1. lia.
  - rewrite join_snoc. destruct (current st) as [| l ls] eqn:E.
    + lia.
    + rewrite !len_app. change (len [NEWLINE]) with 1. lia.
Qed.

Lemma steps_wf (q : list str) (st st' : flush_state) :
  steps MAX_LINES_PER_BATCH channel_send q st st' -> wf st -> wf st'.
Proof. induction 1; eauto using step_wf. Qed.

Lemma len_lines_snoc (ls : list str) (l : str) :
  len_lines (ls ++ [l]) = len_lines ls + 1.
Proof. unfold len_lines. rewrite length_app. simpl. lia. Qed.

Lemma chunks_of_oversized (raw : str) :
  MAX_CONTENT < len raw -> chunks raw MAX_CONTENT <> [].
Proof.
  intros H. apply chunks_nonempty; [apply MAX_CONTENT_pos |].
  intros ->. cbn in H. unfold MAX_CONTENT in H. cbn in H. lia.
Qed.

Lemma batches_ok_app (a b : list message) :
  batches_ok MAX_LINES_PER_BATCH a -> batches_ok MAX_LINES_PER_BATCH b ->
  batches_ok MAX_LINES_PER_BATCH (a ++ b).
Proof. unfold batches_ok. intros. apply Forall_app. now split. Qed.

Lemma batches_ok_fragments (total : Z) (cs : list str) :
  forall i, batches_ok MAX_LINES_PER_BATCH (fragments total i cs).
Proof.
  induction cs as [| c cs IH]; intros i; cbn [fragments].
  - constructor.
  - constructor; [exact I | apply IH].
Qed.

Lemma batches_ok_pending_batch (st : flush_state) :
  wf st -> len_lines (current st) <= MAX_LINES_PER_BATCH ->
  batches_ok MAX_LINES_PER_BATCH (pending_batch (current st)).
Proof.
  intros [_ _ Hf] Hn. destruct (current st) eqn:E; [constructor |].
  constructor; [| constructor]. split; assumption.
Qed.

(** What one iteration adds to the trace carries, with what it leaves in
    the batch, what the batch held plus the line just read; and the
    batches it sends are within both bounds. *)
Lemma step_new (raw : str) (st st' : flush_state) :
  step_spec MAX_LINES_PER_BATCH channel_send raw st st' ->
  exists new,
    sent st' = sent st ++ map (attempted channel_send) new
    /\ complete new
    /\ reassemble [] new ++ current st' = current st ++ [raw]
    /\ delivered_text new ++ concat (current st')
       = concat (current st) ++ raw
    /\ (1 <= MAX_LINES_PER_BATCH -> wf st ->
        len_lines (current st) <= MAX_LINES_PER_BATCH ->
        batches_ok MAX_LINES_PER_BATCH new
        /\ len_lines (current st') <= MAX_LINES_PER_BATCH).
Proof.
  intros [Hbig | Hfit Hover | Hfit Hc Hn]; cbn [current sent].
  - pose proof (chunks_of_oversized raw Hbig) as Hne.
    destruct (complete_fragments _ Hne) as [Hcf Hrf].
    destruct (complete_pending_batch (current st)) as [Hcb Hrb].
    eexists; split; [reflexivity |]. split; [now apply complete_app |].
    rewrite (Hcb _), Hrb, Hrf, chunks_concat by apply MAX_CONTENT_pos.
    rewrite delivered_text_app, delivered_text_pending_batch,
      delivered_text_fragments, chunks_concat by apply MAX_CONTENT_pos.
    rewrite !app_nil_r. repeat split; trivial.
    all: try (cbn; lia).
    all: auto using batches_ok_app, batches_ok_fragments,
        batches_ok_pending_batch.
  - destruct (complete_pending_batch (current st)) as [Hcb Hrb].
    eexists; split; [reflexivity |]. split; [assumption |].
    rewrite Hrb, delivered_text_pending_batch. cbn [concat].
    rewrite app_nil_r. repeat split; trivial.
    all: try (cbn; lia).
    all: auto using batches_ok_pending_batch.
  - exists []. cbn [map]. rewrite app_nil_r.
    split; [reflexivity |]. split; [apply complete_nil |].
    cbn [reassemble delivered_text flat_map app].
    rewrite concat_app. cbn [concat]. rewrite app_nil_r.
    repeat split; trivial.
    all: try (rewrite len_lines_snoc; lia).
    all: constructor.
Qed.

Lemma steps_new (q : list str) (st st' : flush_state) :
  steps MAX_LINES_PER_BATCH channel_send q st st' ->
  exists new,
    sent st' = sent st ++ map (attempted channel_send) new
    /\ complete new
    /\ reassemble [] new ++ current st' = current st ++ q
    /\ delivered_text new ++ concat (current st')
       = concat (current st) ++ concat q
    /\ (1 <= MAX_LINES_PER_BATCH -> wf st ->
        len_lines (current st) <= MAX_LINES_PER_BATCH ->
        batches_ok MAX_LINES_PER_BATCH new
        /\ len_lines (current st') <= MAX_LINES_PER_BATCH).
Proof.
  induction 1 as [st | raw q st st1 st2 H1 _ IH].
  - exists []. cbn [map concat]. rewrite !app_nil_r.
    repeat split; auto using complete_nil. constructor.
  - destruct (step_new _ _ _ H1) as (n1 & E1 & C1 & R1 & T1 & B1).
    destruct IH as (n2 & E2 & C2 & R2 & T2 & B2).
    exists (n1 ++ n2). split; [| split; [| split; [| split]]].
    + now rewrite E2, E1, map_app, app_assoc.
    + now apply complete_app.
    + rewrite (C1 n2), <- app_assoc, R2, app_assoc, R1, <- app_assoc.
      reflexivity.
    + rewrite delivered_text_app, <- app_assoc, T2, app_assoc, T1.
      cbn [concat]. now rewrite <- app_assoc.
    + intros HL Hwf Hn. destruct (B1 HL Hwf Hn) as [Hb1 Hn1].
      destruct (B2 HL (step_wf _ _ _ Hwf H1) Hn1) as [Hb2 Hn2].
      split; [now apply batches_ok_app | assumption].
Qed.

(** The final [flushCurrent] included: everything held or read is sent. *)
Lemma steps_flushed (q : list str) (st st' : flush_state) :
  steps MAX_LINES_PER_BATCH channel_send q st st' ->
  exists new,
    sent (flushCurrent channel_send st')
    = sent st ++ map (attempted channel_send) new
    /\ complete new
    /\ reassemble [] new = current st ++ q
    /\ delivered_text new = concat (current st) ++ concat q
    /\ (1 <= MAX_LINES_PER_BATCH -> wf st ->
        len_lines (current st) <= MAX_LINES_PER_BATCH ->
        batches_ok MAX_LINES_PER_BATCH new).
Proof.
  intros H. destruct (steps_new _ _ _ H) as (new & E & C & R & T & B).
  destruct (complete_pending_batch (current st')) as [Hcb Hrb].
  exists (new ++ pending_batch (current st')).
  rewrite flushCurrent_sent, E, map_app, <- app_assoc.
  split; [reflexivity |]. split; [now apply complete_app |].
  rewrite (C _), Hrb, R, delivered_text_app, delivered_text_pending_batch, T.
  repeat split; trivial.
  intros HL Hwf Hn. destruct (B HL Hwf Hn) as [Hb Hn'].
  apply batches_ok_app; [assumption |].
  apply batches_ok_pending_batch; [| assumption].
  eapply steps_wf; eassumption.
Qed.

(** ** [flushQueue] and [enqueue] on the system *)

Lemma stopTimerIfForced_keeps (force : bool) (sys : system) :
  channel (stopTimerIfForced force sys) = channel sys
  /\ queue (stopTimerIfForced force sys) = queue sys
  /\ outbox (stopTimerIfForced force sys) = outbox sys.
Proof.
  unfold stopTimerIfForced. destruct (force && flushTimer sys); auto.
Qed.

Lemma wf_start (tr : list attempt) :
  wf {| current := []; currentLen := 0; sent := tr |}.
Proof. split; cbn; intros; try reflexivity; unfold MAX_CONTENT; cbn; lia. Qed.

(** One call of [flushQueue] returns; what it sends is a complete run of
    messages; with a channel it empties the queue and sends its lines, in
    order; without one it sends nothing and keeps the queue. *)
Lemma flushQueue_spec (force : bool) (sys : system) :
  exists sys' new,
    flushQueue MAX_LINES_PER_BATCH channel_send force sys = Some sys'
    /\ channel sys' = channel sys
    /\ outbox sys' = outbox sys ++ map (attempted channel_send) new
    /\ complete new
    /\ (if channel sys
        then queue sys' = []
             /\ reassemble [] new = queue sys
             /\ delivered_text new = concat (queue sys)
        else queue sys' = queue sys /\ new = [])
    /\ (1 <= MAX_LINES_PER_BATCH -> batches_ok MAX_LINES_PER_BATCH new).
Proof.
  unfold flushQueue.
  destruct (stopTimerIfForced_keeps force sys) as (Kc & Kq & Ko).
  destruct (channel sys) eqn:Ec; cbn [negb orb].
  - destruct (queue sys) as [| raw q] eqn:Eq.
    + cbn [len_lines length Z.of_nat Z.eqb].
      exists (stopTimerIfForced force sys), [].
      cbn [map]. rewrite app_nil_r.
      repeat split; auto using complete_nil. constructor.
    + replace (len_lines (raw :: q) =? 0) with false
        by (unfold len_lines; cbn [length]; symmetry; apply Z.eqb_neq; lia).
      destruct (drain_steps (raw :: q)
                  {| current := []; currentLen := 0; sent := outbox sys |})
        as (st & Ed & Hs).
      rewrite Ed.
      destruct (steps_flushed _ _ _ Hs) as (new & E & C & R & T & B).
      cbn [current sent app concat] in E, R, T, B.
      eexists; exists new. split; [reflexivity |].
      match goal with
        |- context [stopTimerIfForced force ?s] =>
          destruct (stopTimerIfForced_keeps force s) as (Kc' & Kq' & Ko')
      end.
      rewrite Kc', Kq', Ko'. cbn [channel queue outbox].
      repeat split; auto.
      intros HL. apply B; [assumption | apply wf_start | cbn; lia].
  - exists (stopTimerIfForced force sys), [].
    cbn [map]. rewrite app_nil_r.
    repeat split; auto using complete_nil. constructor.
Qed.

Lemma enqueue_keeps (line : str) (sys : system) :
  channel (enqueue line sys) = channel sys
  /\ queue (enqueue line sys) = queue sys ++ [sanitizeLine line]
  /\ outbox (enqueue line sys) = outbox sys
  /\ flushTimer (enqueue line sys) = true.
Proof.
  unfold enqueue, startFlushTimer. cbn [flushTimer].
  destruct (flushTimer sys) eqn:E; cbn; auto.
Qed.

Lemma run_app (ops1 ops2 : list op) :
  forall sys,
    run MAX_LINES_PER_BATCH channel_send (ops1 ++ ops2) sys
    = match run MAX_LINES_PER_BATCH channel_send ops1 sys with
      | Some sys1 => run MAX_LINES_PER_BATCH channel_send ops2 sys1
      | None => None
      end.
Proof.
  induction ops1 as [| o ops1 IH]; intros sys; [reflexivity |].
  cbn [app run]. destruct (exec_op _ _ o sys); auto.
Qed.

(** Any sequence of calls returns, and accounts for every line: what has
    been sent, followed by what is still queued, is what was queued before
    followed by what was enqueued since. *)
Lemma run_spec (ops : list op) :
  forall sys,
    channel sys = true ->
    exists sys' new,
      run MAX_LINES_PER_BATCH channel_send ops sys = Some sys'
      /\ channel sys' = true
      /\ outbox sys' = outbox sys ++ map (attempted channel_send) new
      /\ complete new
      /\ reassemble [] new ++ queue sys'
         = queue sys ++ map sanitizeLine (enqueued ops)
      /\ delivered_text new ++ concat (queue sys')
         = concat (queue sys ++ map sanitizeLine (enqueued ops)).
Proof.
  induction ops as [| o ops IH]; intros sys Hc.
  - exists sys, []. cbn [run map enqueued]. rewrite !app_nil_r.
    repeat split; auto using complete_nil.
  - destruct o as [line | force]; cbn [run exec_op enqueued].
    + destruct (enqueue_keeps line sys) as (Kc & Kq & Ko & _).
      destruct (IH (enqueue line sys)) as (sys' & new & E & C & O & Cm & R & T);
        [congruence |].
      exists sys', new. rewrite E, O, R, T, Kq, Ko. cbn [map].
      rewrite <- !app_assoc. repeat split; auto.
    + destruct (flushQueue_spec force sys)
        as (sys1 & n1 & E1 & C1 & O1 & Cm1 & Q1 & _).
      rewrite Hc in Q1. destruct Q1 as (Q1 & R1 & T1).
      destruct (IH sys1) as (sys' & n2 & E2 & C2 & O2 & Cm2 & R2 & T2);
        [congruence |].
      exists sys', (n1 ++ n2). rewrite E1, E2, O2, O1, map_app, app_assoc.
      rewrite Q1 in R2, T2. cbn [app] in R2, T2.
      repeat split; auto using complete_app.
      * now rewrite (Cm1 n2), <- app_assoc, R2, R1.
      * now rewrite delivered_text_app, <- app_assoc, T2, T1, concat_app.
Qed.

(** X11. Calls that follow one another.  Whatever the sequence of [enqueue] and
    [flushQueue] calls, each call of [flushQueue] returning before the next
    one is made, once a flush has run with the channel available the queue
    is empty, and if no send of the run failed, the text delivered, read in
    delivery order (batches line by line, oversized lines piece by piece,
    positional suffixes apart), is the text of the lines that were pending
    or were enqueued, in enqueue order, as [enqueue] stored them.  The
    delivered lines are even the same list of lines: none lost, repeated or
    moved. *)
Theorem flush_delivers_enqueued_text :
  forall (sys : system) (ops : list op) (force : bool),
    channel sys = true ->
    exists sys' new,
      run MAX_LINES_PER_BATCH channel_send (ops ++ [Flush force]) sys
      = Some sys'
      /\ outbox sys' = outbox sys ++ new
      /\ queue sys' = []
      /\ (no_send_failed new ->
          delivered_text (delivered new)
          = concat (queue sys ++ map sanitizeLine (enqueued ops))
          /\ reassemble [] (delivered new)
             = queue sys ++ map sanitizeLine (enqueued ops)).
Proof.
  intros sys ops force Hc.
  destruct (run_spec ops sys Hc) as (sys1 & n1 & E1 & C1 & O1 & Cm1 & R1 & T1).
  destruct (flushQueue_spec force sys1)
    as (sys2 & n2 & E2 & C2 & O2 & Cm2 & Q2 & _).
  rewrite C1 in Q2. destruct Q2 as (Q2 & R2 & T2).
  exists sys2, (map (attempted channel_send) (n1 ++ n2)).
  rewrite run_app, E1. cbn [run exec_op]. rewrite E2.
  split; [reflexivity |].
  split; [now rewrite O2, O1, map_app, app_assoc |].
  split; [assumption |].
  intros Hok. rewrite (no_failure_delivered _ Hok), map_fst_attempted.
  split.
  - now rewrite delivered_text_app, T2, T1.
  - now rewrite (Cm1 n2), R2, R1.
Qed.

(** With two lines to a batch, "a", "b", "c" leave as "a\nb" and "c". *)
Example three_lines_two_to_a_batch :
  option_map (fun sys => map (fun a => content (fst a)) (outbox sys))
    (run 2 channel_send
       [Enqueue (lit "a"); Enqueue (lit "b"); Enqueue (lit "c"); Flush true]
       booted)
  = Some [lit "a" ++ [NEWLINE] ++ lit "b"; lit "c"].
Proof. reflexivity. Qed.

(** C2. With [MAX_LINES_PER_BATCH] at least 1, every batch a call of
    [flushQueue] sends is within both bounds at once: joined by newlines it
    is at most [MAX_CONTENT] (1990) long, and it has at most
    [MAX_LINES_PER_BATCH] lines.  (A pending line that is not oversized is
    at most [MAX_CONTENT] long by the very test of the loop, so that part
    of the claim's premise needs no hypothesis.) *)
Theorem flushQueue_batches_within_bounds :
  forall (force : bool) (sys : system),
    1 <= MAX_LINES_PER_BATCH ->
    exists sys' new,
      flushQueue MAX_LINES_PER_BATCH channel_send force sys = Some sys'
      /\ outbox sys' = outbox sys ++ map (attempted channel_send) new
      /\ Forall (fun m => match m with
                          | Batch ls =>
                              len (join [NEWLINE] ls) <= MAX_CONTENT
                              /\ len_lines ls <= MAX_LINES_PER_BATCH
                          | Fragment _ _ _ => True
                          end) new
      /\ MAX_CONTENT = 1990.
Proof.
  intros force sys HL.
  destruct (flushQueue_spec force sys) as (sys' & new & E & _ & O & _ & _ & B).
  exists sys', new. repeat split; auto. apply (B HL).
Qed.

(** ** The trace is only ever appended to *)

Lemma sendPacked_prepend (tr tr' : list attempt) (m : message) :
  sendPacked channel_send m (tr ++ tr') = tr ++ sendPacked channel_send m tr'.
Proof.
  unfold sendPacked. destruct (packed_lines m); [reflexivity |].
  now rewrite app_assoc.
Qed.

Lemma flushCurrent_prepend (tr : list attempt) (st : flush_state) :
  flushCurrent channel_send (prepend tr st)
  = prepend tr (flushCurrent channel_send st).
Proof.
  unfold flushCurrent, prepend. cbn [current currentLen sent].
  destruct (current st); [reflexivity |]. now rewrite sendPacked_prepend.
Qed.

Lemma process_prepend (tr : list attempt) (raw : str) (st : flush_state) :
  process MAX_LINES_PER_BATCH channel_send raw (prepend tr st)
  = option_map (prepend tr)
      (process MAX_LINES_PER_BATCH channel_send raw st).
Proof.
  unfold process.
  change (current (prepend tr st)) with (current st).
  change (currentLen (prepend tr st)) with (currentLen st).
  destruct (MAX_CONTENT <? len raw).
  - destruct (splitToChunks raw MAX_CONTENT) as [cs |]; [| reflexivity].
    cbn [option_map]. f_equal.
    destruct (current st) eqn:E; [| rewrite flushCurrent_prepend];
      unfold prepend; cbn [current currentLen sent]; f_equal;
      rewrite !sendChunks_fragments; symmetry; apply app_assoc.
  - cbn [option_map]. f_equal.
    match goal with |- context [if ?b then _ else _] => destruct b end;
      [rewrite flushCurrent_prepend |]; reflexivity.
Qed.

Lemma drain_prepend (tr : list attempt) (q : list str) :
  forall st,
    drain MAX_LINES_PER_BATCH channel_send q (prepend tr st)
    = option_map (prepend tr) (drain MAX_LINES_PER_BATCH channel_send q st).
Proof.
  induction q as [| raw q IH]; intros st; [reflexivity |].
  cbn [drain]. rewrite process_prepend.
  destruct (process _ _ raw st); cbn [option_map]; auto.
Qed.

Lemma drain_app (q1 q2 : list str) :
  forall st,
    drain MAX_LINES_PER_BATCH channel_send (q1 ++ q2) st
    = match drain MAX_LINES_PER_BATCH channel_send q1 st with
      | Some st1 => drain MAX_LINES_PER_BATCH channel_send q2 st1
      | None => None
      end.
Proof.
  induction q1 as [| raw q1 IH]; intros st; [reflexivity |].
  cbn [app drain]. destruct (process _ _ raw st); auto.
Qed.

Lemma flush_trace_drain (q : list str) :
  flush_trace MAX_LINES_PER_BATCH channel_send q
  = option_map (fun st => sent (flushCurrent channel_send st))
      (drain MAX_LINES_PER_BATCH channel_send q idle).
Proof.
  unfold flush_trace, flushQueue. cbn [channel queue outbox negb orb].
  destruct q as [| raw q]; [reflexivity |].
  replace (len_lines (raw :: q) =? 0) with false
    by (unfold len_lines; cbn [length]; symmetry; apply Z.eqb_neq; lia).
  fold idle. destruct (drain _ _ (raw :: q) idle); reflexivity.
Qed.

(** [flush_trace q] is what any call of [flushQueue] appends to the outbox
    when the channel is set and the queue holds [q]. *)
Lemma flushQueue_outbox (force : bool) (sys : system) :
  channel sys = true ->
  option_map outbox (flushQueue MAX_LINES_PER_BATCH channel_send force sys)
  = option_map (app (outbox sys))
      (flush_trace MAX_LINES_PER_BATCH channel_send (queue sys)).
Proof.
  intros Hc. rewrite flush_trace_drain. unfold flushQueue. rewrite Hc.
  cbn [negb orb].
  destruct (stopTimerIfForced_keeps force sys) as (_ & _ & Ko).
  destruct (queue sys) as [| raw q].
  - cbn. now rewrite Ko, app_nil_r.
  - replace (len_lines (raw :: q) =? 0) with false
      by (unfold len_lines; cbn [length]; symmetry; apply Z.eqb_neq; lia).
    replace {| current := []; currentLen := 0; sent := outbox sys |}
      with (prepend (outbox sys) idle)
      by (unfold prepend, idle; cbn; now rewrite app_nil_r).
    rewrite drain_prepend.
    destruct (drain _ _ (raw :: q) idle) as [st |]; [| reflexivity].
    cbn [option_map].
    match goal with
      |- context [stopTimerIfForced force ?s] =>
        destruct (stopTimerIfForced_keeps force s) as (_ & _ & Ko')
    end.
    rewrite Ko'. cbn [outbox]. now rewrite flushCurrent_prepend.
Qed.

Lemma fragments_nth (total : Z) (cs : list str) :
  forall (i : Z) (k : nat) (c : str),
    nth_error cs k = Some c ->
    nth_error (fragments total i cs) k
    = Some (Fragment c (i + Z.of_nat k + 1) total).
Proof.
  induction cs as [| c0 cs IH]; intros i k c H; [now destruct k |].
  destruct k as [| k]; cbn [nth_error fragments] in *.
  - injection H as ->. do 2 f_equal. lia.
  - rewrite (IH _ _ _ H). do 2 f_equal. lia.
Qed.

Lemma content_fragment (text : str) (index total : Z) :
  content (Fragment text index total) = text ++ suffix index total.
Proof. reflexivity. Qed.



(** The flush of [pre], then the iteration on an oversized line. *)
Lemma drain_then_oversized (pre : list str) (raw : str) :
  MAX_CONTENT < len raw ->
  exists st1,
    drain MAX_LINES_PER_BATCH channel_send pre idle = Some st1
    /\ process MAX_LINES_PER_BATCH channel_send raw st1
       = Some (prepend
                 (sent (flushCurrent channel_send st1)
                  ++ map (attempted channel_send)
                       (fragments (len_lines (chunks raw MAX_CONTENT)) 0
                          (chunks raw MAX_CONTENT)))
                 idle).
Proof.
  intros Hbig.
  destruct (drain_steps pre idle) as (st1 & E1 & S1).
  pose proof (steps_wf _ _ _ S1 wf_idle) as W1.
  destruct (process_spec raw st1) as (st2 & E2 & H2).
  exists st1. split; [assumption |]. rewrite E2. f_equal.
  destruct H2 as [_ | Hfit _ | Hfit _ _]; try lia.
  unfold prepend, idle. cbn [current currentLen sent].
  rewrite flushCurrent_sent, map_app, app_nil_r, app_assoc. f_equal.
  destruct (current st1) eqn:E; [| reflexivity].
  now rewrite (wf_empty _ W1 E).
Qed.


(** ** A line of exactly [MAX_CONTENT] units *)

(** Once the batch is one line that fills it, whatever comes next (another
    line, or the end of the queue) sends that line alone. *)
Lemma full_batch_is_sent_alone (raw : str) (post : list str)
  (st2 st3 : flush_state) :
  current st2 = [raw] -> MAX_CONTENT <= currentLen st2 ->
  steps MAX_LINES_PER_BATCH channel_send post st2 st3 ->
  exists tpost,
    sent (flushCurrent channel_send st3)
    = sent st2
      ++ attempted channel_send (Batch [raw])
         :: map (attempted channel_send) tpost
    /\ complete tpost
    /\ reassemble [] tpost = post.
Proof.
  intros Hcur Hlen Hsteps.
  destruct Hsteps as [st2 | r q st2 st' st3 Hstep Hrest].
  - exists []. rewrite flushCurrent_sent, Hcur.
    repeat split; auto using complete_nil.
  - destruct (steps_flushed _ _ _ Hrest) as (new & E & C & R & _).
    pose proof (len_nonneg r) as Hr.
    destruct Hstep as [Hbig | Hfit Hover | Hfit Hc Hn];
      cbn [current sent] in E, R; rewrite Hcur in *.
    + pose proof (chunks_of_oversized r Hbig) as Hne.
      destruct (complete_fragments _ Hne) as [Hcf Hrf].
      exists (fragments (len_lines (chunks r MAX_CONTENT)) 0
                (chunks r MAX_CONTENT) ++ new).
      rewrite E, (Hcf new), Hrf, R, chunks_concat by apply MAX_CONTENT_pos.
      cbn [pending_batch app map]. rewrite map_app, <- !app_assoc.
      repeat split; auto using complete_app.
    + exists new. rewrite E, R. cbn [pending_batch map app].
      rewrite <- app_assoc. repeat split; auto.
    + lia.
Qed.

(** C10. A line of exactly [MAX_CONTENT] units is not oversized (the test
    is a strict [>]): it is not cut into pieces but sent as a batch, and
    that batch holds this line only, since with any second line, before or
    behind, the joined text would pass [MAX_CONTENT].  The flush of
    [pre ++ raw :: post] sends what the flush of [pre] sends, then the batch
    [raw], then messages that carry exactly the lines of [post]. *)
Theorem exact_fit_line_is_batched_alone :
  forall (pre post : list str) (raw : str),
    len raw = MAX_CONTENT ->
    exists tpre tpost,
      flush_trace MAX_LINES_PER_BATCH channel_send pre = Some tpre
      /\ flush_trace MAX_LINES_PER_BATCH channel_send (pre ++ raw :: post)
         = Some (tpre
                 ++ attempted channel_send (Batch [raw])
                    :: map (attempted channel_send) tpost)
      /\ complete tpost
      /\ reassemble [] tpost = post
      /\ (forall l : str,
             MAX_CONTENT < len (join [NEWLINE] [raw; l])
             /\ MAX_CONTENT < len (join [NEWLINE] [l; raw])).
Proof.
  intros pre post raw Hlen.
  destruct (drain_steps pre idle) as (st1 & E1 & S1).
  pose proof (steps_wf _ _ _ S1 wf_idle) as W1.
  destruct (process_spec raw st1) as (st2 & E2 & H2).
  destruct (drain_steps post st2) as (st3 & E3 & S3).
  assert (Hst2 : current st2 = [raw] /\ MAX_CONTENT <= currentLen st2
                 /\ sent st2 = sent (flushCurrent channel_send st1)).
  { rewrite flushCurrent_sent.
    pose proof (len_nonneg (join [NEWLINE] (current st1))) as Hj.
    destruct W1 as [We Wl Wf].
    destruct H2 as [Hbig | Hfit Hover | Hfit Hc Hn];
      cbn [current currentLen sent].
    - lia.
    - repeat split; auto. destruct (current st1); lia.
    - destruct (current st1) as [| l ls] eqn:E; [| lia].
      cbn [pending_batch map app]. rewrite app_nil_r.
      repeat split; auto. lia. }
  destruct Hst2 as (Hcur & Hcl & Hsent).
  destruct (full_batch_is_sent_alone raw post st2 st3 Hcur Hcl S3)
    as (tpost & E & C & R).
  exists (sent (flushCurrent channel_send st1)), tpost.
  rewrite !flush_trace_drain, drain_app, E1. cbn [drain option_map].
  rewrite E2, E3. cbn [option_map]. rewrite E, Hsent.
  repeat split; auto.
  - cbn [join]. rewrite !len_app. pose proof (len_nonneg l).
    change (len [NEWLINE]) with 1. lia.
  - cbn [join]. rewrite !len_app. pose proof (len_nonneg l).
    change (len [NEWLINE]) with 1. lia.
Qed.

(** ** The hard limit of the Messenger *)

Lemma sanitizeLine_plain (s : str) :
  Forall (fun c => c <> AT /\ c <> BACKTICK) s -> sanitizeLine s = s.
Proof.
  induction 1 as [| c s [Hat Hbt] _ IH]; [reflexivity |].
  rewrite sanitizeLine_keep, IH; trivial.
  cbn [FENCE starts_with].
  destruct (Z.eqb_spec BACKTICK c); [congruence | reflexivity].
Qed.

(** The flush of a queue that holds one oversized line sends its pieces. *)
Lemma flush_trace_oversized (raw : str) :
  MAX_CONTENT < len raw ->
  flush_trace MAX_LINES_PER_BATCH channel_send [raw]
  = Some (map (attempted channel_send)
            (fragments (len_lines (chunks raw MAX_CONTENT)) 0
               (chunks raw MAX_CONTENT))).
Proof.
  intros Hbig.
  destruct (drain_then_oversized [] raw Hbig) as (st1 & E1 & E2).
  cbn [drain] in E1. injection E1 as <-.
  rewrite flush_trace_drain. cbn [drain]. rewrite E2. cbn [option_map].
  rewrite flushCurrent_prepend. cbn [prepend sent flushCurrent idle current].
  now rewrite !app_nil_r.
Qed.

(** Piece 100 of 1000 is a full piece, and its suffix " [100/1000]" takes
    eleven units: one more than the headroom. *)
Lemma piece_100_of_1000 (raw : str) :
  len raw = 1988011 ->
  exists c,
    In (attempted channel_send (Fragment c 100 1000))
       (map (attempted channel_send)
          (fragments (len_lines (chunks raw MAX_CONTENT)) 0
             (chunks raw MAX_CONTENT)))
    /\ len (content (Fragment c 100 1000)) = 2001.
Proof.
  intros Hlen.
  destruct (chunks_full raw MAX_CONTENT 99) as (c & Hc & Hl);
    [apply MAX_CONTENT_pos | lia | rewrite Hlen; discriminate |].
  exists c. split.
  - apply in_map. apply nth_error_In with (n := Z.to_nat 99).
    rewrite (fragments_nth _ _ 0 _ c Hc).
    rewrite chunks_count, Hlen by apply MAX_CONTENT_pos. reflexivity.
  - rewrite content_fragment, len_app, Hl. reflexivity.
Qed.

Lemma piece_above_hard_limit (line : str) :
  len line = 1988011 -> sanitizeLine line = line ->
  exists sys' m ok,
    run MAX_LINES_PER_BATCH channel_send [Enqueue line; Flush true] booted
    = Some sys'
    /\ In (m, ok) (outbox sys')
    /\ len (content m) = 2001
    /\ DISCORD_HARD_LIMIT < len (content m).
Proof.
  intros Hlen Hplain.
  assert (Hbig : MAX_CONTENT < len line) by (rewrite Hlen; reflexivity).
  pose proof (flush_trace_oversized line Hbig) as Htrace.
  destruct (piece_100_of_1000 line Hlen) as (c & Hin & Hc).
  unfold flush_trace in Htrace.
  destruct (flushQueue _ _ true _) as [sys' |] eqn:E; [| discriminate].
  cbn [option_map] in Htrace. injection Htrace as Hout.
  exists sys', (Fragment c 100 1000),
    (channel_send (content (Fragment c 100 1000))).
  split; [| split; [| split]].
  - cbn [run exec_op]. unfold enqueue, startFlushTimer, booted.
    cbn [channel queue flushTimer outbox app]. rewrite Hplain.
    rewrite E. reflexivity.
  - rewrite Hout. exact Hin.
  - exact Hc.
  - rewrite Hc. reflexivity.
Qed.

(** C7, at the input where the program leaves the ceiling.  A line of
    1 988 011 units is cut into 1000 pieces; the hundredth is sent as a
    content of 2001 units, above [DISCORD_HARD_LIMIT]. *)
Theorem long_line_piece_exceeds_hard_limit :
  exists sys' m ok,
    run MAX_LINES_PER_BATCH channel_send
      [Enqueue (repeat 97 (Z.to_nat 1988011)); Flush true] booted
    = Some sys'
    /\ In (m, ok) (outbox sys')
    /\ len (content m) = 2001
    /\ DISCORD_HARD_LIMIT < len (content m).
Proof.
  apply piece_above_hard_limit.
  - unfold len. rewrite repeat_length. apply Z2Nat.id. lia.
  - apply sanitizeLine_plain, Forall_forall.
    intros c Hc. apply repeat_spec in Hc. subst c. split; discriminate.
Qed.

(** *** Below a thousand pieces the headroom is enough *)

Lemma numToString_short (n : Z) :
  0 <= n < 1000 -> len (numToString n) <= 3.
Proof.
  intros Hn.
  assert (H : forallb (fun k => len (numToString (Z.of_nat k)) <=? 3)
                (seq 0 1000) = true) by (vm_compute; reflexivity).
  rewrite forallb_forall in H. specialize (H (Z.to_nat n)).
  rewrite Z2Nat.id in H by lia. apply Z.leb_le, H, in_seq. lia.
Qed.

Lemma suffix_within_headroom (index total : Z) :
  0 <= index < 1000 -> 0 <= total < 1000 ->
  len (suffix index total) <= SAFETY_HEADROOM.
Proof.
  intros Hi Ht. unfold suffix, SAFETY_HEADROOM.
  destruct (1 <? total); [| cbn; lia].
  rewrite !len_app.
  pose proof (numToString_short index Hi).
  pose proof (numToString_short total Ht).
  change (len (lit " [")) with 2. change (len (lit "/")) with 1.
  change (len (lit "]")) with 1. lia.
Qed.

Lemma fragments_within_limit (total : Z) (cs : list str) :
  forall i,
    0 <= i -> i + len_lines cs <= total -> total < 1000 ->
    Forall (fun c => len c <= MAX_CONTENT) cs ->
    Forall within_limit (fragments total i cs).
Proof.
  induction cs as [| c cs IH]; intros i Hi Htot Hlim Hcs; [constructor |].
  unfold len_lines in Htot. cbn [length] in Htot.
  inversion Hcs as [| ? ? Hc Hcs']; subst.
  cbn [fragments]. constructor.
  - unfold within_limit. rewrite content_fragment, len_app.
    pose proof (suffix_within_headroom (i + 1) total).
    unfold MAX_CONTENT in Hc. lia.
  - apply IH; trivial; unfold len_lines; lia.
Qed.

Lemma pending_batch_within_limit (st : flush_state) :
  wf st -> Forall within_limit (pending_batch (current st)).
Proof.
  intros [_ _ Hf]. destruct (current st) eqn:E; [constructor |].
  constructor; [| constructor]. unfold within_limit, content.
  cbn [packed_lines]. unfold MAX_CONTENT, SAFETY_HEADROOM in Hf.
  pose proof (len_nonneg []). lia.
Qed.

Lemma chunks_few (raw : str) :
  len raw <= 999 * MAX_CONTENT -> len_lines (chunks raw MAX_CONTENT) < 1000.
Proof.
  intros H. rewrite chunks_count by apply MAX_CONTENT_pos. unfold ceil_div.
  apply Z.div_lt_upper_bound; [apply MAX_CONTENT_pos |].
  unfold MAX_CONTENT, DISCORD_HARD_LIMIT, SAFETY_HEADROOM in *. lia.
Qed.

Lemma step_within_limit (raw : str) (st st' : flush_state) :
  step_spec MAX_LINES_PER_BATCH channel_send raw st st' ->
  wf st -> len raw <= 999 * MAX_CONTENT ->
  exists new,
    sent st' = sent st ++ map (attempted channel_send) new
    /\ Forall within_limit new.
Proof.
  intros [Hbig | Hfit Hover | Hfit Hc Hn] Hwf Hraw; cbn [sent].
  - eexists; split; [reflexivity |]. apply Forall_app. split.
    + now apply pending_batch_within_limit.
    + apply fragments_within_limit;
        auto using chunks_few, chunks_bounded, MAX_CONTENT_pos; lia.
  - eexists; split; [reflexivity |]. now apply pending_batch_within_limit.
  - exists []. cbn [map]. now rewrite app_nil_r.
Qed.

Lemma steps_within_limit (q : list str) (st st' : flush_state) :
  steps MAX_LINES_PER_BATCH channel_send q st st' ->
  wf st -> Forall (fun l => len l <= 999 * MAX_CONTENT) q ->
  exists new,
    sent (flushCurrent channel_send st')
    = sent st ++ map (attempted channel_send) new
    /\ Forall within_limit new.
Proof.
  induction 1 as [st | raw q st st1 st2 H1 _ IH]; intros Hwf Hq.
  - exists (pending_batch (current st)).
    split; [apply flushCurrent_sent | now apply pending_batch_within_limit].
  - inversion Hq as [| ? ? Hraw Hq']; subst.
    destruct (step_within_limit _ _ _ H1 Hwf Hraw) as (n1 & E1 & L1).
    destruct (IH (step_wf _ _ _ Hwf H1) Hq') as (n2 & E2 & L2).
    exists (n1 ++ n2). rewrite E2, E1, map_app, app_assoc.
    split; [reflexivity | now apply Forall_app].
Qed.

(** X12. While no pending line needs a thousand pieces (none is longer than
    999 * [MAX_CONTENT] = 1 988 010 units), every content that a call of
    [flushQueue] hands to the Messenger is within [DISCORD_HARD_LIMIT]. *)
Lemma contents_within_hard_limit (force : bool) (sys : system) :
  Forall (fun l => len l <= 999 * MAX_CONTENT) (queue sys) ->
  exists sys' new,
    flushQueue MAX_LINES_PER_BATCH channel_send force sys = Some sys'
    /\ outbox sys' = outbox sys ++ map (attempted channel_send) new
    /\ Forall (fun m => len (content m) <= DISCORD_HARD_LIMIT) new.
Proof.
  intros Hq. unfold flushQueue.
  destruct (stopTimerIfForced_keeps force sys) as (_ & _ & Ko).
  destruct (negb (channel sys) || (len_lines (queue sys) =? 0)).
  - exists (stopTimerIfForced force sys), []. cbn [map].
    rewrite app_nil_r. repeat split; auto.
  - destruct (drain_steps (queue sys)
                {| current := []; currentLen := 0; sent := outbox sys |})
      as (st & Ed & Hs).
    rewrite Ed.
    destruct (steps_within_limit _ _ _ Hs (wf_start _) Hq) as (new & E & L).
    eexists; exists new. split; [reflexivity |].
    match goal with
      |- context [stopTimerIfForced force ?s] =>
        destruct (stopTimerIfForced_keeps force s) as (_ & _ & Ko')
    end.
    rewrite Ko'. cbn [outbox]. split; assumption.
Qed.

End OutboundProperties.

(** ** [RconManager.send] *)

Section RconProperties.

Variable RCON_ENABLED : bool.
Variable connect_reply : list Rcon.call -> Rcon.outcome Rcon.session.
Variable exec_reply :
  list Rcon.call -> Rcon.session -> str -> Rcon.outcome str.

Local Abbreviation ensureConnected :=
  (Rcon.ensureConnected RCON_ENABLED connect_reply).
Variable end_reply : list Rcon.call -> Rcon.session -> Rcon.outcome unit.

Local Abbreviation send :=
  (Rcon.send RCON_ENABLED connect_reply exec_reply).

(** Running a computation of the monad on a given world. *)
Ltac run_monad :=
  unfold Rcon.bind, Rcon.this, Rcon.backoff, Rcon.ret, Rcon.throw,
    Rcon.try_catch, Rcon.try_finally, Rcon.set_connecting,
    Rcon.set_connected, Rcon.set_rcon, Rcon.rcon_connect, Rcon.rcon_send,
    Rcon.transport;
  cbn.

Lemma ensureConnected_enabled (w w1 : Rcon.world) :
  ensureConnected w = (Rcon.Return tt, w1) -> RCON_ENABLED = true.
Proof.
  unfold Rcon.ensureConnected. destruct RCON_ENABLED; [reflexivity |].
  cbn. discriminate.
Qed.

(** From a session that is not live, [ensureConnected] asks the transport
    for a new connection, whether or not [connecting] is set. *)
Lemma ensureConnected_reconnects (w : Rcon.world) :
  RCON_ENABLED = true ->
  Rcon.live (Rcon.mgr w) = false ->
  ensureConnected w
  = match connect_reply (Rcon.calls w) with
    | Rcon.Return s' =>
        (Rcon.Return tt,
         {| Rcon.mgr := {| Rcon.rcon := Some s'; Rcon.connected := true;
                           Rcon.connecting := false |};
            Rcon.calls := Rcon.calls w ++ [Rcon.Connect] |})
    | Rcon.Throw e =>
        (Rcon.Throw e,
         {| Rcon.mgr := {| Rcon.rcon := Rcon.rcon (Rcon.mgr w);
                           Rcon.connected := Rcon.connected (Rcon.mgr w);
                           Rcon.connecting := false |};
            Rcon.calls := Rcon.calls w ++ [Rcon.Connect] |})
    end.
Proof.
  intros -> Hlive. unfold Rcon.ensureConnected. cbn [negb].
  unfold Rcon.bind at 1. unfold Rcon.this at 1. rewrite Hlive.
  destruct w as [[r c cing] log]. cbn [Rcon.mgr Rcon.calls] in *.
  destruct cing; run_monad; rewrite ?Hlive; cbn;
    destruct (connect_reply log); reflexivity.
Qed.

(** [close] never throws, whatever the transport does, and leaves the
    manager without a session. *)
Lemma close_never_throws (w : Rcon.world) :
  exists w',
    Rcon.close end_reply w = (Rcon.Return tt, w')
    /\ Rcon.rcon (Rcon.mgr w') = None
    /\ Rcon.connected (Rcon.mgr w') = false.
Proof.
  unfold Rcon.close, Rcon.rcon_end. destruct w as [[[s |] c cing] log];
    run_monad; [destruct (end_reply log s) |]; eexists; repeat split.
Qed.

(** After the transport reported the end of the session, the next [send]
    connects anew. *)
Lemma send_after_drop_reconnects (w : Rcon.world) (command : str) :
  RCON_ENABLED = true ->
  exists res w1 w2,
    Rcon.on_end w = (Rcon.Return tt, w1)
    /\ send command w1 = (res, w2)
    /\ exists later, Rcon.calls w2 = Rcon.calls w ++ Rcon.Connect :: later.
Proof.
  intros Hen.
  destruct (Rcon.on_end w) as [r1 w1] eqn:E1.
  destruct (send command w1) as [res w2] eqn:E2.
  revert E1. unfold Rcon.on_end. run_monad. intros [= <- <-].
  exists res. eexists. exists w2. split; [reflexivity |].
  split; [exact E2 |].
  revert E2. unfold Rcon.send. unfold Rcon.bind at 1.
  rewrite ensureConnected_reconnects by (assumption || reflexivity).
  cbn [Rcon.calls].
  destruct (connect_reply (Rcon.calls w)) as [s' | e'].
  - run_monad. destruct (exec_reply _ s' command); intros [= <- <-];
      cbn; rewrite <- app_assoc; eexists; reflexivity.
  - intros [= <- <-]. exists []. reflexivity.
Qed.

(** C8. If the transport fails to execute the command, [send] hands the
    same failure to its caller, and by then the manager holds no transport
    and is not connected; the failed command went to the transport once and
    is not sent again.  The next [send] opens a new connection before
    anything else, and runs its command on the session that connection
    gives. *)
Theorem send_failure_invalidates_session :
  forall (w w1 : Rcon.world) (s : Rcon.session) (command : str)
         (e : Rcon.error),
    ensureConnected w = (Rcon.Return tt, w1) ->
    Rcon.rcon (Rcon.mgr w1) = Some s ->
    exec_reply (Rcon.calls w1) s command = Rcon.Throw e ->
    exists w2,
      send command w = (Rcon.Throw e, w2)
      /\ Rcon.connected (Rcon.mgr w2) = false
      /\ Rcon.rcon (Rcon.mgr w2) = None
      /\ Rcon.calls w2 = Rcon.calls w1 ++ [Rcon.Exec s command]
      /\ forall command' : str,
          exists res w3,
            send command' w2 = (res, w3)
            /\ Rcon.calls w3
               = Rcon.calls w2
                 ++ Rcon.Connect
                    :: match connect_reply (Rcon.calls w2) with
                       | Rcon.Return s' => [Rcon.Exec s' command']
                       | Rcon.Throw _ => []
                       end.
Proof.
  intros w w1 s command e Hens Hrcon Hexec.
  pose proof (ensureConnected_enabled _ _ Hens) as Hen.
  eexists. split.
  { unfold Rcon.send. unfold Rcon.bind at 1. rewrite Hens.
    unfold Rcon.bind at 1. unfold Rcon.this at 1. rewrite Hrcon.
    unfold Rcon.try_catch, Rcon.rcon_send, Rcon.transport. rewrite Hexec.
    run_monad. reflexivity. }
  cbn [Rcon.mgr Rcon.calls Rcon.rcon Rcon.connected].
  repeat split.
  intros command'. unfold Rcon.send. unfold Rcon.bind at 1.
  rewrite ensureConnected_reconnects by (assumption || reflexivity).
  cbn [Rcon.mgr Rcon.calls Rcon.rcon Rcon.connected].
  destruct (connect_reply (Rcon.calls w1 ++ [Rcon.Exec s command]))
    as [s' | e'].
  - run_monad. destruct (exec_reply _ s' command') as [res | e''].
    + do 2 eexists. split; [reflexivity |].
      cbn [Rcon.calls]. now rewrite <- app_assoc.
    + do 2 eexists. split; [reflexivity |].
      cbn [Rcon.calls Rcon.mgr]. now rewrite <- app_assoc.
  - do 2 eexists. split; reflexivity.
Qed.

End RconProperties.

(** ** [shutdown] *)

Section ShutdownProperties.

Variable stdin_writable : bool.
Variable closed_in_grace : bool.

Local Abbreviation handle :=
  (Shutdown.handle stdin_writable closed_in_grace).
Local Abbreviation run := (Shutdown.run stdin_writable closed_in_grace).
Local Abbreviation segment :=
  (Shutdown.segment stdin_writable closed_in_grace).
Local Abbreviation teardown :=
  (Shutdown.teardown stdin_writable closed_in_grace).
Local Abbreviation reachable := (progress stdin_writable closed_in_grace).
Local Abbreviation done := (done_upto stdin_writable closed_in_grace).

Lemma done_upto_next (k : nat) : done k ++ segment k = done (S k).
Proof.
  unfold done_upto. rewrite seq_S, map_app, concat_app. cbn [map concat plus].
  now rewrite app_nil_r.
Qed.

Lemma handle_progress (e : Shutdown.event) (p : Shutdown.process) :
  reachable p -> reachable (handle e p).
Proof.
  intros [| k Hk |]; unfold Shutdown.handle; cbn [Shutdown.exited].
  - destruct e as [| a].
    + apply (Running _ _ 1). unfold Shutdown.last_segment. lia.
    + unfold Shutdown.resume. cbn. destruct a; constructor.
  - destruct e as [| a]; [now constructor |].
    unfold Shutdown.resume.
    cbn [Shutdown.exited Shutdown.activations Shutdown.performed
           Shutdown.shuttingDown].
    destruct a as [| a]; cbn [nth_error].
    + destruct (Nat.eqb_spec k Shutdown.last_segment) as [-> | Hne];
        cbn [Shutdown.remove_nth Shutdown.set_nth]; rewrite done_upto_next.
      * apply Finished.
      * apply (Running _ _ (S k)). lia.
    + destruct a; now constructor.
  - constructor.
Qed.

Lemma run_progress (es : list Shutdown.event) :
  forall p, reachable p -> reachable (run es p).
Proof.
  induction es as [| e es IH]; intros p Hp; [assumption |].
  cbn [Shutdown.run fold_left]. apply IH, handle_progress, Hp.
Qed.

Lemma teardown_NoDup : NoDup teardown.
Proof.
  unfold Shutdown.teardown. destruct stdin_writable, closed_in_grace; cbn;
    repeat constructor; cbn; intuition discriminate.
Qed.

Lemma done_upto_prefix (k : nat) :
  (k <= S Shutdown.last_segment)%nat ->
  exists rest, teardown = done k ++ rest.
Proof.
  intros Hk. unfold Shutdown.teardown, done_upto.
  replace (S Shutdown.last_segment)
    with (k + (S Shutdown.last_segment - k))%nat by lia.
  rewrite seq_app, map_app, concat_app. eexists. reflexivity.
Qed.

Lemma progress_prefix (p : Shutdown.process) :
  reachable p -> exists rest, teardown = Shutdown.performed p ++ rest.
Proof.
  intros [| k Hk |]; cbn [Shutdown.performed Shutdown.started].
  - eexists. reflexivity.
  - apply done_upto_prefix. lia.
  - exists []. now rewrite app_nil_r.
Qed.

Lemma NoDup_count_le_1 (l : list Shutdown.action) (a : Shutdown.action) :
  NoDup l -> (count_occ Shutdown.action_eq_dec l a <= 1)%nat.
Proof. intros H. now apply NoDup_count_occ. Qed.

Lemma flag_stays (e : Shutdown.event) (p : Shutdown.process) :
  reachable p -> Shutdown.shuttingDown p = true ->
  Shutdown.shuttingDown (handle e p) = true.
Proof.
  intros [| k Hk |] Hflag; [discriminate | | reflexivity].
  unfold Shutdown.handle, Shutdown.resume. cbn.
  destruct e as [| [| a]]; cbn; trivial.
  - now destruct (k =? Shutdown.last_segment)%nat.
  - now destruct a.
Qed.

Lemma run_flag_stays (es : list Shutdown.event) :
  forall p,
    reachable p -> Shutdown.shuttingDown p = true ->
    Shutdown.shuttingDown (run es p) = true.
Proof.
  induction es as [| e es IH]; intros p Hp Hflag; [assumption |].
  cbn [Shutdown.run fold_left].
  apply IH; [now apply handle_progress | now apply flag_stays].
Qed.

Lemma signal_sets_flag (p : Shutdown.process) :
  reachable p -> Shutdown.shuttingDown (handle Shutdown.Signal p) = true.
Proof. intros []; reflexivity. Qed.

Lemma run_snoc (es : list Shutdown.event) (e : Shutdown.event)
  (p : Shutdown.process) :
  run (es ++ [e]) p = handle e (run es p).
Proof. unfold Shutdown.run. now rewrite fold_left_app. Qed.

(** C9. Whatever the order in which signals arrive and the awaits of
    [shutdown] settle: what has been performed is an initial part of the
    teardown sequence (announce, write the no-restart flag, polite stop,
    grace wait, forced kill if the grace period ran out, force flush, rcon
    close, messenger disconnect, exit), so no step of it is performed
    twice; at most one activation of [shutdown] exists; [shuttingDown] is
    set by the first signal, before the first [await], and never reset;
    and a signal that finds it set changes nothing. *)
Theorem shutdown_tears_down_at_most_once :
  forall es : list Shutdown.event,
    (exists rest,
        teardown = Shutdown.performed (run es Shutdown.started) ++ rest)
    /\ (forall a : Shutdown.action,
           (count_occ Shutdown.action_eq_dec
              (Shutdown.performed (run es Shutdown.started)) a <= 1)%nat)
    /\ (length (Shutdown.activations (run es Shutdown.started)) <= 1)%nat
    /\ (In Shutdown.Signal es ->
        Shutdown.shuttingDown (run es Shutdown.started) = true)
    /\ (Shutdown.shuttingDown (run es Shutdown.started) = true ->
        run (es ++ [Shutdown.Signal]) Shutdown.started
        = run es Shutdown.started).
Proof.
  intros es.
  pose proof (run_progress es _ (Not_started _ _)) as Hp.
  split; [now apply progress_prefix |].
  split.
  { intros a. apply NoDup_count_le_1.
    destruct (progress_prefix _ Hp) as [rest E].
    pose proof teardown_NoDup as Hnd. rewrite E in Hnd.
    eapply NoDup_app_remove_r, Hnd. }
  split.
  { destruct Hp; cbn; lia. }
  split.
  - intros Hin. apply in_split in Hin as (es1 & es2 & ->).
    pose proof (run_progress es1 _ (Not_started _ _)) as H1.
    unfold Shutdown.run. rewrite fold_left_app. cbn [fold_left].
    apply run_flag_stays;
      [now apply handle_progress | now apply signal_sets_flag].
  - intros Hflag. rewrite run_snoc.
    unfold Shutdown.handle, Shutdown.shutdown. rewrite Hflag.
    now destruct (Shutdown.exited _).
Qed.

End ShutdownProperties.

(** * [flushQueue] on the event loop *)

Section AsyncProperties.

Variable MAX_LINES_PER_BATCH : Z.
Variable channel_send : str -> bool.

Local Abbreviation loop := (Async.loop MAX_LINES_PER_BATCH channel_send).
Local Abbreviation resume_turn :=
  (Async.resume_turn MAX_LINES_PER_BATCH channel_send).
Local Abbreviation step := (Async.step MAX_LINES_PER_BATCH channel_send).
Local Abbreviation run := (Async.run MAX_LINES_PER_BATCH channel_send).
Local Abbreviation serial := (Async.serial MAX_LINES_PER_BATCH channel_send).
Local Abbreviation attempted := (attempted channel_send).
Local Abbreviation batches_ok := (batches_ok MAX_LINES_PER_BATCH).

Local Abbreviation turn_meets :=
  (turn_spec MAX_LINES_PER_BATCH channel_send).

Lemma wf_push_after_flush (raw : str) (addLen : Z) (tr : list attempt) :
  len raw <= MAX_CONTENT -> len raw <= addLen ->
  wf (Async.push raw addLen {| current := []; currentLen := 0; sent := tr |}).
Proof.
  intros Hfit Hadd. split; cbn [Async.push current currentLen app join].
  - discriminate.
  - lia.
  - assumption.
Qed.

Lemma wf_push_append (raw : str) (st : flush_state) :
  wf st -> len raw <= MAX_CONTENT ->
  currentLen st + (match current st with [] => 0 | _ :: _ => 1 end + len raw)
  <= MAX_CONTENT ->
  wf (Async.push raw
        (match current st with [] => 0 | _ :: _ => 1 end + len raw) st).
Proof.
  intros [He Hl Hf] Hfit Hc.
  pose proof (len_nonneg (join [NEWLINE] (current st))) as Hj.
  pose proof (len_nonneg raw) as Hr.
  split; cbn [Async.push current currentLen].
  - intros E. apply app_eq_nil in E as [_ E]. discriminate.
  - rewrite join_snoc. destruct (current st) as [| l ls] eqn:E; [lia |].
    rewrite !len_app. change (len [NEWLINE]) with 1. lia.
  - rewrite join_snoc. destruct (current st) as [| l ls] eqn:E; [lia |].
    rewrite !len_app. change (len [NEWLINE]) with 1. lia.
Qed.

Lemma sendPacked_fragment (c : str) (index total : Z) (tr : list attempt) :
  sendPacked channel_send (Fragment c index total) tr
  = tr ++ map attempted [Fragment c index total].
Proof. reflexivity. Qed.

Lemma delivered_text_fragment (c : str) (index total : Z) :
  delivered_text [Fragment c index total] = c.
Proof. unfold delivered_text. cbn. now rewrite app_nil_r. Qed.

Lemma batches_ok_fragment (c : str) (index total : Z) :
  batches_ok [Fragment c index total].
Proof. repeat constructor. Qed.

(** A turn that sends the batch held and suspends with [k]. *)
Lemma turn_after_flush (st : flush_state) (q q' : list str) (k : Async.cont) :
  wf st -> current st <> [] -> cont_ok k ->
  Async.cont_text k ++ concat q' = concat q ->
  turn_meets st (concat (current st)) q (len_lines (current st))
    {| Async.rest_queue := q';
       Async.state := flushCurrent channel_send st;
       Async.next := Some k |}.
Proof.
  intros Hwf Hne Hk Htext.
  unfold turn_spec.
  cbn [Async.state Async.next Async.rest_queue flushCurrent current
         currentLen next_ok next_text].
  repeat split; trivial.
  exists (pending_batch (current st)). rewrite <- flushCurrent_sent.
  split; [reflexivity |]. rewrite delivered_text_pending_batch, Htext.
  split; [reflexivity |].
  intros _ Hn. now apply batches_ok_pending_batch.
Qed.

(** The same turn, seen from one iteration earlier. *)
Lemma turn_meets_from (st st' : flush_state) (text text' : str)
  (q q' : list str) (lines lines' : Z) (t : Async.turn) :
  turn_meets st' text' q' lines' t ->
  sent st' = sent st ->
  text' ++ concat q' = text ++ concat q ->
  (1 <= MAX_LINES_PER_BATCH -> lines <= MAX_LINES_PER_BATCH ->
   lines' <= MAX_LINES_PER_BATCH) ->
  turn_meets st text q lines t.
Proof.
  intros (Hc & Hl & Hn & new & Hs & Ht & Hb) Hsent Htext Hlines.
  repeat split; trivial. exists new. rewrite <- Hsent, <- Htext.
  repeat split; auto.
Qed.

(** From the loop test a call reaches its next suspension or its end, and
    accounts for what it held and what it shifted. *)
Lemma loop_spec (q : list str) :
  forall st,
    wf st ->
    exists t,
      loop q st = Some t
      /\ turn_meets st (concat (current st)) q (len_lines (current st)) t.
Proof.
  induction q as [| raw q IH]; intros st Hwf.
  - eexists. split; [reflexivity |]. unfold turn_spec.
    cbn [Async.state Async.next Async.rest_queue flushCurrent current
           currentLen].
    repeat split; trivial.
    + now destruct (current st).
    + exists (pending_batch (current st)). rewrite <- flushCurrent_sent.
      split; [reflexivity |]. rewrite delivered_text_pending_batch.
      split.
      * destruct (current st); cbn; now rewrite ?app_nil_r.
      * intros _ Hn. now apply batches_ok_pending_batch.
  - cbn [Async.loop].
    destruct (Z.ltb_spec MAX_CONTENT (len raw)) as [Hbig | Hfit].
    + rewrite splitToChunks_chunks by apply MAX_CONTENT_pos.
      pose proof (chunks_of_oversized raw Hbig) as Hne.
      pose proof (chunks_bounded raw MAX_CONTENT MAX_CONTENT_pos) as Hcs.
      pose proof (chunks_concat raw MAX_CONTENT MAX_CONTENT_pos) as Hcat.
      destruct (current st) as [| l ls] eqn:E.
      * destruct (chunks raw MAX_CONTENT) as [| c rest] eqn:Ec;
          [contradiction |].
        eexists. split; [reflexivity |]. unfold turn_spec.
        cbn [Async.state Async.next Async.rest_queue Async.sendPiece
               current currentLen sent next_ok cont_ok].
        apply Forall_inv_tail in Hcs.
        repeat split; trivial.
        { now apply (wf_empty _ Hwf). }
        exists [Fragment c (0 + 1) (len_lines (c :: rest))].
        rewrite sendPacked_fragment, delivered_text_fragment.
        cbn [next_text Async.cont_text concat app] in *.
        rewrite <- Hcat, <- !app_assoc.
        repeat split; auto using batches_ok_fragment.
      * eexists. split; [reflexivity |]. rewrite <- E.
        apply turn_after_flush;
          [assumption | rewrite E; discriminate | assumption |].
        cbn [Async.cont_text concat]. now rewrite Hcat.
    + cbv zeta.
      destruct ((MAX_CONTENT
                 <? currentLen st
                    + (match current st with [] => 0 | _ :: _ => 1 end
                       + len raw))
                || (MAX_LINES_PER_BATCH <? len_lines (current st) + 1))
        eqn:Eover.
      * destruct (current st) as [| l ls] eqn:E.
        -- unfold flushCurrent. rewrite E.
           destruct (IH (Async.push raw (0 + len raw)
                           {| current := []; currentLen := 0;
                              sent := sent st |}))
             as (t & Et & Ht); [apply wf_push_after_flush; lia |].
           exists t. split; [exact Et |].
           eapply turn_meets_from; [exact Ht | reflexivity | |].
           ++ cbn [Async.push current app concat]. now rewrite app_nil_r.
           ++ cbn. lia.
        -- eexists. split; [reflexivity |]. rewrite <- E.
           apply turn_after_flush;
             [assumption | rewrite E; discriminate | | reflexivity].
           cbn [cont_ok]. lia.
      * apply orb_false_iff in Eover as [Ec El].
        apply Z.ltb_ge in Ec, El.
        destruct (IH (Async.push raw
                        (match current st with [] => 0 | _ :: _ => 1 end
                         + len raw) st))
          as (t & Et & Ht); [now apply wf_push_append |].
        exists t. split; [exact Et |].
        eapply turn_meets_from; [exact Ht | reflexivity | |].
        -- cbn [Async.push current concat]. rewrite concat_app. cbn [concat].
           now rewrite app_nil_r, <- app_assoc.
        -- intros _ _. cbn [Async.push current].
           now rewrite len_lines_snoc.
Qed.

(** A suspended call that is resumed does the same, from what it still
    has to send. *)
Lemma resume_turn_spec (k : Async.cont) (q : list str) (tr : list attempt) :
  cont_ok k ->
  exists t,
    resume_turn k q {| current := []; currentLen := 0; sent := tr |} = Some t
    /\ turn_meets {| current := []; currentLen := 0; sent := tr |}
         (Async.cont_text k) q 0 t.
Proof.
  intros Hk. destruct k as [raw addLen | total i [| c rest] |];
    cbn [Async.resume_turn cont_ok] in *.
  - destruct Hk as [Hfit Hadd].
    destruct (loop_spec q (Async.push raw addLen
                             {| current := []; currentLen := 0;
                                sent := tr |}))
      as (t & Et & Ht); [now apply wf_push_after_flush |].
    exists t. split; [exact Et |].
    eapply turn_meets_from; [exact Ht | reflexivity | |].
    + cbn. now rewrite app_nil_r.
    + cbn. lia.
  - destruct (loop_spec q {| current := []; currentLen := 0; sent := tr |})
      as (t & Et & Ht); [apply wf_start |].
    exists t. split; [exact Et |].
    eapply turn_meets_from; [exact Ht | reflexivity | reflexivity |].
    cbn. lia.
  - eexists. split; [reflexivity |]. unfold turn_spec.
    cbn [Async.state Async.next Async.rest_queue Async.sendPiece
           current currentLen sent next_ok cont_ok].
    apply Forall_inv_tail in Hk.
    repeat split; trivial.
    exists [Fragment c (i + 1) total].
    rewrite sendPacked_fragment, delivered_text_fragment.
    cbn [next_text Async.cont_text concat]. rewrite <- !app_assoc.
    repeat split; auto using batches_ok_fragment.
  - eexists. split; [reflexivity |]. unfold turn_spec.
    cbn [Async.state Async.next Async.rest_queue current currentLen sent
           next_ok].
    repeat split; trivial.
    exists []. cbn [map]. rewrite app_nil_r.
    repeat split; trivial. constructor.
Qed.

Lemma Forall_firstn_skipn {A} (P : A -> Prop) (n m : nat) (l : list A) :
  Forall P l -> Forall P (firstn n l) /\ Forall P (skipn m l).
Proof.
  intros H. split.
  - rewrite <- (firstn_skipn n l) in H. now apply Forall_app in H.
  - rewrite <- (firstn_skipn m l) in H. now apply Forall_app in H.
Qed.

(** What the end of a turn makes of the system and of the call. *)
Lemma after_turn_spec (f : bool) (s : system) (st : flush_state)
  (text : str) (q : list str) (t : Async.turn) :
  turn_meets st text q 0 t ->
  sent st = outbox s ->
  exists s' acts new,
    Async.after_turn f s t = (s', acts)
    /\ Forall activation_ok acts
    /\ (length acts <= 1)%nat
    /\ channel s' = channel s
    /\ outbox s' = outbox s ++ map attempted new
    /\ delivered_text new ++ flushes_text acts ++ concat (queue s')
       = text ++ concat q
    /\ (1 <= MAX_LINES_PER_BATCH -> batches_ok new).
Proof.
  intros (Hc & Hl & Hn & new & Hs & Ht & Hb) Hout.
  unfold Async.after_turn. destruct (Async.next t) as [k |] eqn:Ek.
  - eexists; eexists; exists new. split; [reflexivity |].
    cbn [channel queue outbox length].
    split; [repeat constructor; assumption |].
    split; [lia |].
    split; [reflexivity |].
    split; [now rewrite Hs, Hout |].
    split; [| intros HL; apply Hb; lia].
    rewrite <- Ht. unfold flushes_text, Async.activation_text.
    cbn [map concat Async.held Async.todo next_text]. rewrite Hc.
    cbn [concat app]. now rewrite app_nil_r.
  - match goal with
      |- context [stopTimerIfForced f ?x] =>
        destruct (stopTimerIfForced_keeps f x) as (Kc & Kq & Ko)
    end.
    eexists; eexists; exists new. split; [reflexivity |].
    rewrite Kc, Kq, Ko. cbn [channel queue outbox length].
    split; [constructor |].
    split; [lia |].
    split; [reflexivity |].
    split; [now rewrite Hs, Hout |].
    split; [exact Ht | intros HL; apply Hb; lia].
Qed.

Lemma flushes_text_one (act : Async.activation) :
  activation_ok act -> flushes_text [act] = Async.cont_text (Async.todo act).
Proof.
  intros (Hh & _ & _). unfold flushes_text, Async.activation_text.
  cbn [map concat]. rewrite Hh. cbn [concat app]. apply app_nil_r.
Qed.

(** One event of the loop: it is handled, the calls left suspended are as
    they should be, the batches sent are within bounds; and if the event
    starts no second call, the text is accounted for. *)
Lemma event_spec (e : Async.event) (w : Async.world) :
  good w ->
  exists w' new,
    step e w = Some w'
    /\ good w'
    /\ outbox (Async.sys w')
       = outbox (Async.sys w) ++ map attempted new
    /\ (1 <= MAX_LINES_PER_BATCH -> batches_ok new)
    /\ (match e with
        | Async.Start _ => Async.flushes w = []
        | _ => True
        end ->
        (length (Async.flushes w) <= 1)%nat ->
        (length (Async.flushes w') <= 1)%nat
        /\ delivered_text new ++ flushes_text (Async.flushes w')
           ++ concat (queue (Async.sys w'))
           = flushes_text (Async.flushes w) ++ concat (queue (Async.sys w))
             ++ concat (map sanitizeLine (Async.enqueued [e]))).
Proof.
  intros Hgood. destruct e as [line | f | a]; cbn [Async.step].
  - destruct (enqueue_keeps line (Async.sys w)) as (Kc & Kq & Ko & _).
    eexists; exists []. split; [reflexivity |].
    cbn [Async.sys Async.flushes map app Async.enqueued concat].
    rewrite Kq, Ko, app_nil_r, concat_app.
    repeat split; trivial. constructor.
  - unfold Async.start.
    destruct (negb (channel (Async.sys w))
              || (len_lines (queue (Async.sys w)) =? 0)).
    + destruct (stopTimerIfForced_keeps f (Async.sys w)) as (Kc & Kq & Ko).
      eexists; exists []. split; [reflexivity |].
      cbn [Async.sys Async.flushes map app Async.enqueued concat].
      rewrite Kq, Ko, !app_nil_r.
      repeat split; trivial. constructor.
    + destruct (loop_spec (queue (Async.sys w))
                  {| current := []; currentLen := 0;
                     sent := outbox (Async.sys w) |} (wf_start _))
        as (t & Et & Ht).
      destruct (after_turn_spec f (Async.sys w) _ _ _ t Ht eq_refl)
        as (s' & acts & new & Ea & Hacts & Hlen & Kc & Ko & Htext & Hb).
      rewrite Et, Ea. eexists; exists new. split; [reflexivity |].
      cbn [Async.sys Async.flushes Async.enqueued map concat].
      split; [now apply Forall_app |].
      split; [exact Ko |]. split; [exact Hb |].
      intros Hnone _. rewrite Hnone. cbn [app flushes_text map concat].
      rewrite app_nil_r. split; [exact Hlen |].
      exact Htext.
  - unfold Async.resume.
    destruct (nth_error (Async.flushes w) a) as [act |] eqn:Enth.
    2:{ exists w, []. cbn [map Async.enqueued concat]. rewrite !app_nil_r.
        repeat split; trivial. constructor. }
    pose proof Hgood as Hact. unfold good in Hact.
    rewrite Forall_forall in Hact.
    specialize (Hact act (nth_error_In _ _ Enth)).
    pose proof Hact as (Hh & Hl & Hk).
    destruct (resume_turn_spec (Async.todo act) (queue (Async.sys w))
                (outbox (Async.sys w)) Hk) as (t & Et & Ht).
    rewrite Hh, Hl, Et.
    destruct (after_turn_spec (Async.force act) (Async.sys w) _ _ _ t Ht
                eq_refl)
      as (s' & acts & new & Ea & Hacts & Hlen & Kc & Ko & Htext & Hb).
    rewrite Ea. eexists; exists new. split; [reflexivity |].
    cbn [Async.sys Async.flushes Async.enqueued map concat].
    destruct (Forall_firstn_skipn activation_ok a (S a) _ Hgood)
      as [Hfirst Hskip].
    split; [unfold good; cbn [Async.flushes]; rewrite !Forall_app; auto |].
    split; [exact Ko |]. split; [exact Hb |].
    intros _ Hone. rewrite app_nil_r.
    destruct (Async.flushes w) as [| x [| y fl]]; cbn [length] in Hone;
      [destruct a; discriminate | | lia].
    destruct a as [| a]; [| destruct a; discriminate].
    cbn [nth_error] in Enth. injection Enth as ->.
    cbn [firstn skipn app]. rewrite app_nil_r.
    split; [exact Hlen |].
    now rewrite Htext, flushes_text_one.
Qed.

Lemma run_cons (e : Async.event) (es : list Async.event) (w w' : Async.world) :
  step e w = Some w' -> run (e :: es) w = run es w'.
Proof. intros H. cbn [Async.run]. now rewrite H. Qed.

(** X17. Whatever the schedule, every event is handled and every batch sent is
    within both bounds. *)
Lemma run_safe (es : list Async.event) :
  forall w,
    good w ->
    exists w' new,
      run es w = Some w'
      /\ good w'
      /\ outbox (Async.sys w') = outbox (Async.sys w) ++ map attempted new
      /\ (1 <= MAX_LINES_PER_BATCH -> batches_ok new).
Proof.
  induction es as [| e es IH]; intros w Hgood.
  - exists w, []. cbn [map]. rewrite app_nil_r.
    repeat split; trivial. constructor.
  - destruct (event_spec e w Hgood) as (w1 & n1 & E1 & G1 & O1 & B1 & _).
    destruct (IH w1 G1) as (w2 & n2 & E2 & G2 & O2 & B2).
    exists w2, (n1 ++ n2). rewrite (run_cons _ _ _ _ E1), E2, O2, O1.
    rewrite map_app, app_assoc.
    repeat split; trivial.
    intros HL. apply Forall_app. split; [now apply B1 | now apply B2].
Qed.

(** While no call of [flushQueue] starts before the one before it has
    returned, what has been sent, what the suspended call still has to
    send, and what is queued, make up the lines enqueued, in order. *)
Lemma run_serial (es : list Async.event) :
  forall w,
    good w -> (length (Async.flushes w) <= 1)%nat ->
    serial es w = true ->
    exists w' new,
      run es w = Some w'
      /\ outbox (Async.sys w') = outbox (Async.sys w) ++ map attempted new
      /\ delivered_text new ++ flushes_text (Async.flushes w')
         ++ concat (queue (Async.sys w'))
         = flushes_text (Async.flushes w) ++ concat (queue (Async.sys w))
           ++ concat (map sanitizeLine (Async.enqueued es)).
Proof.
  induction es as [| e es IH]; intros w Hgood Hone Hser.
  - exists w, []. cbn [map Async.enqueued concat]. rewrite !app_nil_r.
    repeat split; trivial.
  - destruct (event_spec e w Hgood) as (w1 & n1 & E1 & G1 & O1 & _ & T1).
    cbn [Async.serial] in Hser. apply andb_true_iff in Hser as [Hstart Hser].
    rewrite E1 in Hser.
    destruct T1 as [Hone1 T1]; [| assumption |].
    { destruct e; trivial. now destruct (Async.flushes w). }
    destruct (IH w1 G1 Hone1 Hser) as (w2 & n2 & E2 & O2 & T2).
    exists w2, (n1 ++ n2). rewrite (run_cons _ _ _ _ E1), E2, O2, O1.
    rewrite map_app, app_assoc. split; [reflexivity |]. split; [reflexivity |].
    rewrite delivered_text_app, <- app_assoc, T2, !app_assoc.
    rewrite <- (app_assoc (delivered_text n1)), T1.
    replace (Async.enqueued (e :: es))
      with (Async.enqueued [e] ++ Async.enqueued es)
      by (destruct e; reflexivity).
    now rewrite map_app, concat_app, !app_assoc.
Qed.

(** ** A call that nothing interrupts *)

Local Abbreviation rest_of_call :=
  (finish_call MAX_LINES_PER_BATCH channel_send).

(** A turn of the loop and the rest of the call make up the loop of
    [flushQueue] and its final [flushCurrent]; a call that is suspended
    before its end has shifted at least one line. *)
Lemma loop_drain (q : list str) :
  forall st t,
    loop q st = Some t ->
    match Async.next t with
    | None =>
        Async.rest_queue t = []
        /\ option_map (flushCurrent channel_send) (drain MAX_LINES_PER_BATCH channel_send q st)
           = Some (Async.state t)
    | Some k =>
        option_map (flushCurrent channel_send) (drain MAX_LINES_PER_BATCH channel_send q st)
        = rest_of_call k (Async.rest_queue t) (Async.state t)
        /\ match k with
           | Async.Finish => Async.rest_queue t = []
           | _ => (length (Async.rest_queue t) < length q)%nat
           end
    end.
Proof.
  induction q as [| raw q IH]; intros [cur curLen tr] t Hloop.
  - cbn [Async.loop] in Hloop. injection Hloop as <-.
    cbn [Async.next Async.rest_queue Async.state drain option_map current].
    destruct cur; split; reflexivity.
  - cbn [Async.loop current currentLen] in Hloop.
    cbn [drain]. unfold process. cbn [current currentLen].
    destruct (MAX_CONTENT <? len raw).
    + destruct (splitToChunks raw MAX_CONTENT) as [cs |]; [| discriminate].
      destruct cur as [| l ls].
      * destruct cs as [| c rest].
        -- specialize (IH _ t Hloop). cbn [sendChunks sent current currentLen].
           destruct (Async.next t) as [[| |] |]; cbn [length];
             intuition lia.
        -- injection Hloop as <-.
           cbn [Async.next Async.rest_queue Async.state Async.sendPiece
                  finish_call current currentLen sent length].
           split; [reflexivity | lia].
      * injection Hloop as <-.
        cbn [Async.next Async.rest_queue Async.state finish_call
               length].
        split; [reflexivity | lia].
    + cbv zeta in Hloop.
      destruct ((MAX_CONTENT
                 <? curLen + (match cur with [] => 0 | _ :: _ => 1 end
                              + len raw))
                || (MAX_LINES_PER_BATCH <? len_lines cur + 1)).
      * destruct cur as [| l ls].
        -- specialize (IH _ t Hloop).
           destruct (Async.next t) as [[| |] |]; cbn [length];
             intuition lia.
        -- injection Hloop as <-.
           cbn [Async.next Async.rest_queue Async.state
                  finish_call length].
           split; [reflexivity | lia].
      * specialize (IH _ t Hloop).
        destruct (Async.next t) as [[| |] |]; cbn [length]; intuition lia.
Qed.

Local Abbreviation settle n := (run (repeat (Async.Resume 0) n)).

(** The world a turn of the only call leaves. *)
Lemma after_turn_world (ch timer f : bool) (q0 : list str)
  (tr0 : list attempt) (t : Async.turn) :
  current (Async.state t) = [] -> currentLen (Async.state t) = 0 ->
  (let (s', acts) :=
     Async.after_turn f {| channel := ch; queue := q0; flushTimer := timer;
                           outbox := tr0 |} t in
   {| Async.sys := s'; Async.flushes := acts |})
  = match Async.next t with
    | None =>
        {| Async.sys :=
             stopTimerIfForced f
               {| channel := ch; queue := Async.rest_queue t;
                  flushTimer := timer; outbox := sent (Async.state t) |};
           Async.flushes := [] |}
    | Some k =>
        suspended ch timer f k (Async.rest_queue t) (sent (Async.state t))
    end.
Proof.
  intros Hc Hl. unfold Async.after_turn, suspended.
  cbn [channel flushTimer]. rewrite Hc, Hl. now destruct (Async.next t).
Qed.

Lemma resume_suspended (ch timer f : bool) (k : Async.cont) (q : list str)
  (tr : list attempt) :
  step (Async.Resume 0) (suspended ch timer f k q tr)
  = match resume_turn k q {| current := []; currentLen := 0; sent := tr |}
    with
    | None => None
    | Some t =>
        Some (let (s', acts) :=
                Async.after_turn f {| channel := ch; queue := q;
                                      flushTimer := timer; outbox := tr |} t
              in {| Async.sys := s'; Async.flushes := acts |})
    end.
Proof.
  cbn [Async.step]. unfold Async.resume, suspended.
  cbn [Async.flushes Async.sys nth_error Async.todo Async.held Async.heldLen
         Async.force queue outbox firstn skipn app].
  destruct (resume_turn k q _) as [t |]; [| reflexivity].
  destruct (Async.after_turn f _ t) as [s' acts]. now rewrite app_nil_r.
Qed.

Lemma settle_finish (ch timer f : bool) (tr : list attempt) :
  settle 1%nat (suspended ch timer f Async.Finish [] tr)
  = Some (returned ch timer f
            {| current := []; currentLen := 0; sent := tr |}).
Proof. reflexivity. Qed.

Lemma settle_S (n : nat) (w w' : Async.world) :
  step (Async.Resume 0) w = Some w' -> settle (S n) w = settle n w'.
Proof. intros H. cbn [repeat]. now apply run_cons. Qed.

Lemma flush_state_eta (st : flush_state) :
  current st = [] -> currentLen st = 0 ->
  st = {| current := []; currentLen := 0; sent := sent st |}.
Proof. destruct st. cbn. now intros -> ->. Qed.

Section Settling.

Variable m : nat.
Hypothesis IH :
  forall q, (length q < m)%nat ->
    forall ch timer f k tr,
      cont_ok k -> (k = Async.Finish -> q = []) ->
      exists n,
        settle n (suspended ch timer f k q tr)
        = option_map (returned ch timer f)
            (rest_of_call k q {| current := []; currentLen := 0; sent := tr |}).

(** After a turn of the loop on a queue shorter than [S m]. *)
Lemma settle_after_loop (ch timer f : bool) (q : list str)
  (st : flush_state) (t : Async.turn) :
  (length q < S m)%nat -> wf st -> loop q st = Some t ->
  exists n,
    settle n
      match Async.next t with
      | None =>
          {| Async.sys :=
               stopTimerIfForced f
                 {| channel := ch; queue := Async.rest_queue t;
                    flushTimer := timer; outbox := sent (Async.state t) |};
             Async.flushes := [] |}
      | Some k =>
          suspended ch timer f k (Async.rest_queue t) (sent (Async.state t))
      end
    = option_map (returned ch timer f)
        (option_map (flushCurrent channel_send)
           (drain MAX_LINES_PER_BATCH channel_send q st)).
Proof.
  intros Hlen Hwf Hloop.
  destruct (loop_spec q st Hwf) as (t' & Et & Hc & Hl & Hn & _).
  rewrite Hloop in Et. injection Et as <-.
  pose proof (loop_drain q st t Hloop) as Hd.
  pose proof (flush_state_eta _ Hc Hl) as Heta.
  destruct (Async.next t) as [k |].
  - destruct Hd as [Hd Hq]. rewrite Hd.
    assert (Hfin : k = Async.Finish \/ k <> Async.Finish)
      by (destruct k; auto; right; discriminate).
    destruct Hfin as [-> | Hk].
    + exists 1%nat. rewrite Hq, settle_finish. cbn [finish_call option_map].
      now rewrite <- Heta.
    + destruct (IH (Async.rest_queue t)) with (ch := ch) (timer := timer)
        (f := f) (k := k) (tr := sent (Async.state t)) as [n Hn'].
      * destruct k; try lia. contradiction.
      * exact Hn.
      * intros ->. contradiction.
      * exists n. now rewrite Hn', <- Heta.
  - destruct Hd as [Hq Hd]. rewrite Hd, Hq. exists 0%nat. reflexivity.
Qed.

End Settling.

(** A suspended call that nothing interrupts returns after finitely many
    resumptions, with what the rest of the loop of [flushQueue] gives. *)
Lemma settle_spec (m : nat) :
  forall q, (length q < m)%nat ->
    forall ch timer f k tr,
      cont_ok k -> (k = Async.Finish -> q = []) ->
      exists n,
        settle n (suspended ch timer f k q tr)
        = option_map (returned ch timer f)
            (rest_of_call k q {| current := []; currentLen := 0; sent := tr |}).
Proof.
  induction m as [| m IH]; intros q Hlen ch timer f k tr Hk Hfin; [lia |].
  destruct k as [raw addLen | total i rest |].
  - destruct Hk as [Hfit Hadd].
    pose proof (wf_push_after_flush raw addLen tr Hfit Hadd) as Hwf.
    destruct (loop_spec q _ Hwf) as (t & Et & Hc & Hl & _).
    destruct (settle_after_loop m IH ch timer f q _ t Hlen Hwf Et) as [n Hn].
    exists (S n). cbn [finish_call]. rewrite <- Hn. apply settle_S.
    rewrite resume_suspended. cbn [Async.resume_turn]. rewrite Et.
    now rewrite after_turn_world.
  - cbn [cont_ok] in Hk. clear Hfin. revert i tr.
    induction rest as [| c rest IHrest]; intros i tr.
    + pose proof (wf_start tr) as Hwf.
      destruct (loop_spec q _ Hwf) as (t & Et & Hc & Hl & _).
      destruct (settle_after_loop m IH ch timer f q _ t Hlen Hwf Et)
        as [n Hn].
      exists (S n). cbn [finish_call sendChunks current currentLen sent].
      rewrite <- Hn. apply settle_S.
      rewrite resume_suspended. cbn [Async.resume_turn]. rewrite Et.
      now rewrite after_turn_world.
    + destruct (IHrest (Forall_inv_tail Hk) (i + 1)
                  (sendPacked channel_send (Fragment c (i + 1) total) tr))
        as [n Hn].
      exists (S n). cbn [finish_call sendChunks current currentLen sent].
      cbn [finish_call current currentLen sent] in Hn.
      rewrite <- Hn. apply settle_S.
      rewrite resume_suspended. cbn [Async.resume_turn].
      now rewrite after_turn_world.
  - rewrite (Hfin eq_refl). exists 1%nat. apply settle_finish.
Qed.

(** X16. A call of [flushQueue] that runs to its end before anything else
    happens is [flushQueue] as a function of the system. *)
Lemma uninterrupted_flush (f : bool) (s : system) :
  exists n,
    run (Async.Start f :: repeat (Async.Resume 0) n)
      {| Async.sys := s; Async.flushes := [] |}
    = option_map (fun s' => {| Async.sys := s'; Async.flushes := [] |})
        (flushQueue MAX_LINES_PER_BATCH channel_send f s).
Proof.
  unfold flushQueue. destruct s as [ch q timer tr].
  cbn [channel queue flushTimer outbox].
  destruct (negb ch || (len_lines q =? 0)) eqn:Eidle.
  - exists 0%nat. cbn [repeat Async.run Async.step]. unfold Async.start.
    cbn [Async.sys Async.flushes channel queue]. now rewrite Eidle.
  - pose proof (wf_start tr) as Hwf.
    destruct (loop_spec q _ Hwf) as (t & Et & Hc & Hl & _).
    destruct (settle_after_loop (length q) (settle_spec (length q)) ch timer f
                q _ t (Nat.lt_succ_diag_r _) Hwf Et) as [n Hn].
    exists n.
    assert (Hstart :
             step (Async.Start f)
               {| Async.sys := {| channel := ch; queue := q;
                                  flushTimer := timer; outbox := tr |};
                  Async.flushes := [] |}
             = Some match Async.next t with
                    | None =>
                        {| Async.sys :=
                             stopTimerIfForced f
                               {| channel := ch;
                                  queue := Async.rest_queue t;
                                  flushTimer := timer;
                                  outbox := sent (Async.state t) |};
                           Async.flushes := [] |}
                    | Some k =>
                        suspended ch timer f k (Async.rest_queue t)
                          (sent (Async.state t))
                    end).
    { cbn [Async.step]. unfold Async.start.
      cbn [Async.sys Async.flushes channel queue outbox app].
      rewrite Eidle, Et. f_equal.
      rewrite <- (after_turn_world ch timer f q tr t Hc Hl).
      now destruct (Async.after_turn f _ t). }
    rewrite (run_cons _ _ _ _ Hstart), Hn.
    destruct (drain MAX_LINES_PER_BATCH channel_send q _); reflexivity.
Qed.

(** X18. From the start of the program, under a schedule in which the calls of
    [flushQueue] follow one another: once no call is suspended and nothing
    is queued, and no send failed, the text delivered is the text of the
    lines enqueued, in enqueue order. *)
Lemma serial_run_delivers_in_order (es : list Async.event)
  (w' : Async.world) :
  serial es Async.booted = true ->
  run es Async.booted = Some w' ->
  Async.flushes w' = [] -> queue (Async.sys w') = [] ->
  no_send_failed (outbox (Async.sys w')) ->
  delivered_text (delivered (outbox (Async.sys w')))
  = concat (map sanitizeLine (Async.enqueued es)).
Proof.
  intros Hser Hrun Hnone Hempty Hok.
  destruct (run_serial es Async.booted) as (w2 & new & E & O & T);
    [constructor | cbn; lia | assumption |].
  rewrite Hrun in E. injection E as <-.
  rewrite (no_failure_delivered _ Hok), O.
  cbn [Async.booted Async.sys booted outbox app].
  rewrite map_fst_attempted.
  rewrite Hnone, Hempty in T.
  cbn [Async.booted Async.sys Async.flushes booted queue flushes_text map
         concat app] in T.
  now rewrite !app_nil_r in T.
Qed.

End AsyncProperties.

(** * Two calls of [flushQueue] at once *)

(** C1. Three lines of 1000 characters are enqueued.  The timer starts
    [flushQueue(false)]: it takes the first line, finds that the second does
    not fit with it, and waits on the send of the first, holding the second.
    Before that send settles, [flushQueue(true)] is called (the [close]
    handler of the server process does so, and so does [shutdown]): it finds
    the third line in the queue and sends it.  The first call then goes on
    and sends the second line.  No send fails, nothing stays queued and no
    call stays suspended, and the channel has received the first line, the
    third, and then the second: the delivered text is not the text of the
    enqueued lines in enqueue order. *)
Theorem overlapping_flushes_reorder_lines :
  exists w,
    Async.run 40 accepts_within_limit
      [Async.Enqueue (repeat 97 1000); Async.Enqueue (repeat 98 1000);
       Async.Enqueue (repeat 99 1000);
       Async.Start false; Async.Start true;
       Async.Resume 0; Async.Resume 0; Async.Resume 0]
      Async.booted
    = Some w
    /\ Async.flushes w = []
    /\ queue (Async.sys w) = []
    /\ no_send_failed (outbox (Async.sys w))
    /\ delivered (outbox (Async.sys w))
       = [Batch [repeat 97 1000]; Batch [repeat 99 1000];
          Batch [repeat 98 1000]]
    /\ delivered_text (delivered (outbox (Async.sys w)))
       <> concat (map sanitizeLine
                    [repeat 97 1000; repeat 98 1000; repeat 99 1000]).
Proof.
  eexists. split; [vm_compute; reflexivity |].
  cbn [Async.flushes Async.sys queue outbox].
  split; [reflexivity |]. split; [reflexivity |].
  split; [repeat constructor |].
  split; [reflexivity |].
  vm_compute. discriminate.
Qed.

(** * More on [sanitizeLine] and [splitToChunks] *)

Lemma sanitizeLine_Sanitized (s : str) : Sanitized ZWSP s (sanitizeLine s).
Proof. now apply (sanitizeLine_Sanitized_upto (length s)). Qed.

(** X1. [sanitizeLine] only adds zero-width spaces: with every U+200B
    deleted, its result and its argument are the same string.  On a line
    that holds no U+200B, deleting them from the result gives the line
    back. *)
Theorem sanitizeLine_only_adds_marks :
  forall s : str,
    filter (fun c => negb (c =? ZWSP)) (sanitizeLine s)
    = filter (fun c => negb (c =? ZWSP)) s.
Proof.
  intros s. induction (sanitizeLine_Sanitized s) as [| s t _ IH | s t _ IH
                                                    | c s t _ _ _ IH].
  - reflexivity.
  - cbn [filter]. change (negb (AT =? ZWSP)) with true.
    change (negb (ZWSP =? ZWSP)) with false. cbn iota. now rewrite IH.
  - cbn [filter]. change (negb (BACKTICK =? ZWSP)) with true.
    change (negb (ZWSP =? ZWSP)) with false. cbn iota. now rewrite IH.
  - cbn [filter]. now rewrite IH.
Qed.

(** X2. In the result of [sanitizeLine] every at-sign has a zero-width
    space right behind it: no at-sign is followed by the text of a mention,
    and none ends the line. *)
Theorem sanitizeLine_marks_every_at :
  forall (s : str) (i : nat),
    nth_error (sanitizeLine s) i = Some AT ->
    nth_error (sanitizeLine s) (S i) = Some ZWSP.
Proof.
  intros s. induction (sanitizeLine_Sanitized s) as [| s t _ IH | s t _ IH
                                                    | c s t Hc _ _ IH];
    intros i Hi.
  - now destruct i.
  - destruct i as [| [| i]]; [reflexivity | discriminate |].
    now apply IH.
  - destruct i as [| [| [| [| i]]]]; try discriminate. now apply IH.
  - destruct i as [| i].
    + cbn [nth_error] in Hi. congruence.
    + now apply IH.
Qed.

(** [sanitizeLine] never shortens a line and at most doubles it. *)
Lemma sanitizeLine_length :
  forall s : str, len s <= len (sanitizeLine s) <= 2 * len s.
Proof.
  intros s. unfold len.
  induction (sanitizeLine_Sanitized s); cbn [length]; lia.
Qed.

Lemma sanitizeLine_backtick (t : str) :
  exists post, sanitizeLine (BACKTICK :: t) = BACKTICK :: post.
Proof.
  destruct (starts_with FENCE (BACKTICK :: t)) eqn:Hf.
  - apply starts_with_fence_true in Hf as [u Hu]. rewrite Hu.
    rewrite sanitizeLine_fence. eauto.
  - rewrite sanitizeLine_keep by (assumption || discriminate). eauto.
Qed.

(** X3. A fence can survive [sanitizeLine]: when a fence of three backticks
    has one more backtick behind it, the result still holds three
    backticks in a row, behind the mark. *)
Theorem sanitizeLine_leaves_a_fence :
  forall t : str,
    exists post,
      sanitizeLine (FENCE ++ BACKTICK :: t)
      = [BACKTICK; ZWSP] ++ FENCE ++ post.
Proof.
  intros t. cbn [FENCE app]. rewrite sanitizeLine_fence.
  destruct (sanitizeLine_backtick t) as [post ->]. now exists post.
Qed.

(** The loop of [splitToChunks] with a step that does not advance. *)
Lemma splitLoop_stuck (fuel : nat) :
  forall (s : str) (max i : Z) (out : list str),
    max <= 0 -> i < len s -> splitLoop fuel s max i out = None.
Proof.
  induction fuel as [| fuel IH]; intros s max i out Hmax Hi;
    cbn [splitLoop]; destruct (Z.ltb_spec i (len s)); try lia.
  - reflexivity.
  - apply IH; lia.
Qed.

(** X4. [splitToChunks] with [max] zero or negative does not return on a
    string that is not empty: whatever the number of iterations allowed,
    the guard [i < s.length] still holds. *)
Theorem splitToChunks_needs_positive_max :
  forall (s : str) (max : Z),
    max <= 0 -> s <> [] ->
    (forall fuel, splitLoop fuel s max 0 [] = None)
    /\ splitToChunks s max = None.
Proof.
  intros s max Hmax Hs.
  assert (H : forall fuel, splitLoop fuel s max 0 [] = None).
  { intros fuel. apply splitLoop_stuck; [assumption |].
    destruct s; [contradiction |]. unfold len. cbn [length]. lia. }
  split; [exact H | apply H].
Qed.

Lemma chunks_by_positive (fuel n : nat) :
  forall s : str,
    (0 < n)%nat -> Forall (fun c => 0 < len c) (chunks_by fuel n s).
Proof.
  induction fuel as [| fuel IH]; intros s Hn; cbn [chunks_by].
  - constructor.
  - destruct s as [| c s]; constructor.
    + destruct n; [lia |]. unfold len. cbn [firstn length]. lia.
    + now apply IH.
Qed.

(** X5. For a positive [max], [splitToChunks] returns ceil(length / max)
    chunks, none of them empty, and every chunk but the last has exactly
    [max] code units. *)
Theorem splitToChunks_full_chunks :
  forall (s : str) (max : Z) (cs : list str),
    0 < max -> splitToChunks s max = Some cs ->
    len_lines cs = ceil_div (len s) max
    /\ Forall (fun c => 0 < len c) cs
    /\ (forall (k : nat) (c : str),
           (S k < length cs)%nat -> nth_error cs k = Some c -> len c = max).
Proof.
  intros s max cs Hmax Hcs.
  rewrite splitToChunks_chunks in Hcs by assumption. injection Hcs as <-.
  pose proof (chunks_count s max Hmax) as Hcount.
  split; [assumption |]. split.
  - apply chunks_by_positive. lia.
  - intros k c Hk Hc.
    destruct (chunks_full s max (Z.of_nat k)) as (c' & Hc' & Hlen);
      try lia.
    + unfold len_lines, ceil_div in Hcount.
      assert (Hdiv : ((len s + max - 1) / max) * max <= len s + max - 1)
        by (rewrite Z.mul_comm; apply Z.mul_div_le; lia).
      nia.
    + rewrite Nat2Z.id in Hc'. congruence.
Qed.

(** * The output of the server process *)

(** ** [trim] and the two [split]s *)

Lemma trimStart_nil_iff (s : str) :
  trimStart s = [] <-> Forall (fun c => is_space c = true) s.
Proof.
  induction s as [| c s IH]; cbn [trimStart].
  - split; [constructor | reflexivity].
  - destruct (is_space c) eqn:E.
    + rewrite IH. split; [now constructor | now inversion 1].
    + split; [discriminate | inversion 1; congruence].
Qed.

Lemma trimStart_head (s : str) (c : Z) (t : str) :
  trimStart s = c :: t -> is_space c = false.
Proof.
  induction s as [| d s IH]; cbn [trimStart]; [discriminate |].
  destruct (is_space d) eqn:E; [assumption |].
  intros H. injection H as <- _. assumption.
Qed.

Lemma trimStart_all_space (s : str) :
  Forall (fun c => is_space c = true) (trimStart s) -> trimStart s = [].
Proof.
  destruct (trimStart s) as [| c t] eqn:E; [reflexivity |].
  inversion 1; subst. apply trimStart_head in E. congruence.
Qed.

(** [trim] leaves nothing exactly of the strings made of white space. *)
Lemma trim_nil_iff (s : str) :
  trim s = [] <-> Forall (fun c => is_space c = true) s.
Proof.
  unfold trim, trimEnd. split.
  - intros H. apply (f_equal (@rev Z)) in H. rewrite rev_involutive in H.
    cbn [rev] in H. apply trimStart_nil_iff in H.
    apply Forall_rev in H. rewrite rev_involutive in H.
    now apply trimStart_nil_iff, trimStart_all_space.
  - intros H. apply trimStart_nil_iff in H. now rewrite H.
Qed.

Lemma truthy_trim (s : str) :
  truthy (trim s) = false <-> Forall (fun c => is_space c = true) s.
Proof.
  rewrite <- trim_nil_iff, <- len_nil_iff. unfold truthy.
  destruct (Z.eqb_spec (len (trim s)) 0); cbn [negb]; split; intros;
    (reflexivity || assumption || discriminate || contradiction).
Qed.

Lemma split_lines_from_cons (skip : bool) (s : str) :
  exists piece rest, split_lines_from skip s = piece :: rest.
Proof.
  revert skip. induction s as [| c s IH]; intros skip;
    cbn [split_lines_from]; [eauto |].
  destruct skip; [apply IH |].
  destruct (c =? NEWLINE); [eauto |].
  destruct ((c =? CR) && starts_with [NEWLINE] s); [eauto |].
  destruct (IH false) as (piece & rest & ->). eauto.
Qed.

(** Every code unit of a piece is a code unit of the text, and none is a
    line feed. *)
Lemma split_lines_from_pieces (s : str) :
  forall (skip : bool) (l : str),
    In l (split_lines_from skip s) ->
    forall c, In c l -> In c s /\ c <> NEWLINE.
Proof.
  induction s as [| d s IH]; intros skip l Hl c Hc;
    cbn [split_lines_from] in Hl.
  - destruct Hl as [<- | []]. destruct Hc.
  - destruct skip.
    { destruct (IH _ _ Hl _ Hc). split; [now right | assumption]. }
    destruct (Z.eqb_spec d NEWLINE) as [-> | Hd].
    { destruct Hl as [<- | Hl]; [destruct Hc |].
      destruct (IH _ _ Hl _ Hc). split; [now right | assumption]. }
    destruct ((d =? CR) && starts_with [NEWLINE] s).
    { destruct Hl as [<- | Hl]; [destruct Hc |].
      destruct (IH _ _ Hl _ Hc). split; [now right | assumption]. }
    destruct (split_lines_from false s) as [| piece rest] eqn:E.
    + destruct Hl as [<- | []]. destruct Hc as [<- | []].
      split; [now left | assumption].
    + destruct Hl as [<- | Hl].
      * destruct Hc as [<- | Hc]; [split; [now left | assumption] |].
        destruct (IH false piece) with (c := c); [rewrite E | |]; auto.
        { now left. }
        split; [now right | assumption].
      * destruct (IH false l) with (c := c); [rewrite E | |]; auto.
        { now right. }
        split; [now right | assumption].
Qed.

Lemma split_lines_one (s : str) :
  ~ In NEWLINE s -> split_lines s = [s].
Proof.
  unfold split_lines. induction s as [| c s IH]; intros Hs;
    cbn [split_lines_from]; [reflexivity |].
  destruct (Z.eqb_spec c NEWLINE) as [-> | Hc]; [now destruct Hs; left |].
  assert (Hnl : starts_with [NEWLINE] s = false).
  { destruct s as [| d s]; [reflexivity |]. cbn [starts_with].
    destruct (Z.eqb_spec NEWLINE d) as [<- | _]; [| reflexivity].
    destruct Hs. right. now left. }
  rewrite Hnl, andb_false_r, IH; [reflexivity |].
  intros H. apply Hs. now right.
Qed.

(** ** [push] *)

(** What [push] does to the system, piece by piece. *)
Lemma push_pieces (prefix : str) (ls : list str) :
  forall sys,
    channel (fold_left (push_line prefix) ls sys) = channel sys
    /\ outbox (fold_left (push_line prefix) ls sys) = outbox sys
    /\ queue (fold_left (push_line prefix) ls sys)
       = queue sys
         ++ map (fun l => sanitizeLine (prefix ++ SPACE :: l))
              (filter (fun l => truthy (trim l)) ls).
Proof.
  induction ls as [| l ls IH]; intros sys; cbn [fold_left filter map].
  - now rewrite app_nil_r.
  - destruct (IH (push_line prefix sys l)) as (Hc & Ho & Hq).
    rewrite Hc, Ho, Hq. unfold push_line.
    destruct (truthy (trim l)); [| auto].
    destruct (enqueue_keeps (prefix ++ SPACE :: l) sys) as (Kc & Kq & Ko & _).
    rewrite Kc, Kq, Ko. cbn [map]. now rewrite <- app_assoc.
Qed.

Lemma Sanitized_In (s t : str) :
  Sanitized ZWSP s t -> forall c, In c t -> In c s \/ c = ZWSP.
Proof.
  induction 1 as [| s t _ IH | s t _ IH | d s t _ _ _ IH]; intros c Hc.
  - destruct Hc.
  - destruct Hc as [<- | [<- | Hc]]; [left; now left | now right |].
    destruct (IH _ Hc); [left; now right | now right].
  - destruct Hc as [<- | [<- | [<- | [<- | Hc]]]];
      try (left; now left); [now right |].
    destruct (IH _ Hc) as [Hin | ->]; [left | now right].
    right. right. now right.
  - destruct Hc as [<- | Hc]; [left; now left |].
    destruct (IH _ Hc); [left; now right | now right].
Qed.

(** X6. No line that [push] queues holds a line feed, provided the prefix
    holds none (["[OUT]"] and ["[ERR]"] do not): the line feeds of a batch
    are those [sendPacked] puts between its lines. *)
Theorem push_queues_single_lines :
  forall (prefix data : str) (sys : system),
    ~ In NEWLINE prefix ->
    Forall (fun l => ~ In NEWLINE l) (queue sys) ->
    Forall (fun l => ~ In NEWLINE l) (queue (push prefix data sys)).
Proof.
  intros prefix data sys Hp Hq. unfold push.
  destruct (push_pieces prefix (split_lines data) sys) as (_ & _ & ->).
  apply Forall_app. split; [assumption |].
  apply Forall_forall. intros l Hl.
  apply in_map_iff in Hl as (piece & <- & Hpiece).
  apply filter_In in Hpiece as [Hpiece _].
  intros Hin.
  destruct (Sanitized_In _ _ (sanitizeLine_Sanitized _) _ Hin) as [H | H];
    [| discriminate].
  apply in_app_or in H as [H | [H | H]]; [auto | discriminate |].
  now destruct (split_lines_from_pieces _ _ _ Hpiece _ H).
Qed.

(** X7. Data made of white space only (the empty string, blank lines, a
    lone line break) queues nothing and does not start the timer: [push]
    leaves the system as it is. *)
Theorem push_ignores_blank_data :
  forall (prefix data : str) (sys : system),
    Forall (fun c => is_space c = true) data ->
    push prefix data sys = sys.
Proof.
  intros prefix data sys Hblank. unfold push.
  assert (Hpieces : Forall (fun l => truthy (trim l) = false)
                      (split_lines data)).
  { apply Forall_forall. intros l Hl. apply truthy_trim.
    apply Forall_forall. intros c Hc.
    destruct (split_lines_from_pieces _ _ _ Hl _ Hc) as [Hin _].
    now apply (proj1 (Forall_forall _ _) Hblank). }
  induction Hpieces as [| l ls Hl _ IH]; [reflexivity |].
  cbn [fold_left]. unfold push_line at 2. now rewrite Hl.
Qed.

Lemma trim_app_not_blank_l (a b : str) :
  truthy (trim a) = true -> truthy (trim (a ++ b)) = true.
Proof.
  intros Ha. destruct (truthy (trim (a ++ b))) eqn:E; [reflexivity |].
  apply truthy_trim, Forall_app in E as [E _].
  apply truthy_trim in E. congruence.
Qed.

(** X8. [push] does not wait for the end of a line.  When a line reaches
    it in two [data] events, a first part and then the rest, neither blank
    nor holding a line feed, two lines are queued, each with the prefix;
    in one event the same text is one line. *)
Theorem push_splits_a_line_across_events :
  forall (prefix a b : str) (sys : system),
    ~ In NEWLINE a -> ~ In NEWLINE b ->
    truthy (trim a) = true -> truthy (trim b) = true ->
    queue (push prefix b (push prefix a sys))
    = queue sys ++ [sanitizeLine (prefix ++ SPACE :: a);
                    sanitizeLine (prefix ++ SPACE :: b)]
    /\ queue (push prefix (a ++ b) sys)
       = queue sys ++ [sanitizeLine (prefix ++ SPACE :: a ++ b)].
Proof.
  intros prefix a b sys Ha Hb Ta Tb. unfold push.
  assert (Hab : ~ In NEWLINE (a ++ b)).
  { intros H. apply in_app_or in H as [H | H]; auto. }
  rewrite (split_lines_one a Ha), (split_lines_one b Hb),
    (split_lines_one (a ++ b) Hab).
  cbn [fold_left]. unfold push_line.
  rewrite Ta, Tb, (trim_app_not_blank_l a b Ta).
  destruct (enqueue_keeps (prefix ++ SPACE :: a) sys) as (_ & Qa & _).
  destruct (enqueue_keeps (prefix ++ SPACE :: b)
              (enqueue (prefix ++ SPACE :: a) sys)) as (_ & Qb & _).
  destruct (enqueue_keeps (prefix ++ SPACE :: a ++ b) sys) as (_ & Qab & _).
  rewrite Qb, Qa, Qab, <- app_assoc. split; reflexivity.
Qed.

Lemma join_cons_unit (sep : str) (c : Z) (piece : str) (rest : list str) :
  join sep ((c :: piece) :: rest) = c :: join sep (piece :: rest).
Proof. cbn [join]. now destruct rest. Qed.

Lemma join_split_lines_from (s : str) :
  forall skip : bool,
    join [NEWLINE] (split_lines_from skip s)
    = replaceAll_from (if skip then 1 else 0) [CR; NEWLINE] [NEWLINE] s.
Proof.
  induction s as [| c s IH]; intros skip.
  - now destruct skip.
  - cbn [split_lines_from]. destruct skip.
    { cbn [replaceAll_from]. apply IH. }
    cbn [replaceAll_from].
    assert (Hsw : starts_with [CR; NEWLINE] (c :: s)
                  = (c =? CR) && starts_with [NEWLINE] s).
    { cbn [starts_with]. now rewrite (Z.eqb_sym CR c). }
    rewrite Hsw. clear Hsw.
    destruct (Z.eqb_spec c NEWLINE) as [-> | Hc].
    { change (NEWLINE =? CR) with false. cbn [andb].
      destruct (split_lines_from_cons false s) as (piece & rest & E).
      rewrite <- (IH false), E. reflexivity. }
    destruct ((c =? CR) && starts_with [NEWLINE] s) eqn:Hbreak.
    + cbn [length app].
      destruct (split_lines_from_cons true s) as (piece & rest & E).
      rewrite <- (IH true), E. reflexivity.
    + destruct (split_lines_from_cons false s) as (piece & rest & E).
      rewrite <- (IH false), E. apply join_cons_unit.
Qed.

(** X9. The pieces [push] reads lose nothing of the data but the line
    breaks: joined again with line feeds they give the data, with every
    carriage return that has a line feed behind it left out.  There is
    always at least one piece. *)
Theorem push_pieces_are_the_lines :
  forall data : str,
    join [NEWLINE] (split_lines data)
    = replaceAll [CR; NEWLINE] [NEWLINE] data
    /\ split_lines data <> [].
Proof.
  intros data. split.
  - apply (join_split_lines_from data false).
  - unfold split_lines.
    destruct (split_lines_from_cons false data) as (piece & rest & ->).
    discriminate.
Qed.

(** * The list of allowed users *)

Lemma trimStart_suffix (s : str) : exists pre, s = pre ++ trimStart s.
Proof.
  induction s as [| c s [pre IH]]; [now exists [] |]. cbn [trimStart].
  destruct (is_space c); [| now exists []].
  exists (c :: pre). cbn [app]. now rewrite <- IH.
Qed.

Lemma trimEnd_prefix (s : str) : exists post, s = trimEnd s ++ post.
Proof.
  unfold trimEnd. destruct (trimStart_suffix (rev s)) as [pre E].
  exists (rev pre). rewrite <- rev_app_distr, <- E. now rewrite rev_involutive.
Qed.

Lemma trimStart_fixed (c : Z) (t : str) :
  is_space c = false -> trimStart (c :: t) = c :: t.
Proof. intros H. cbn [trimStart]. now rewrite H. Qed.

Lemma trimStart_idempotent (s : str) : trimStart (trimStart s) = trimStart s.
Proof.
  destruct (trimStart s) as [| c t] eqn:E; [reflexivity |].
  apply trimStart_fixed. now apply (trimStart_head s c t).
Qed.

Lemma trimEnd_idempotent (s : str) : trimEnd (trimEnd s) = trimEnd s.
Proof.
  unfold trimEnd. now rewrite rev_involutive, trimStart_idempotent.
Qed.

(** Cutting at the end leaves a start that is already cut as it is. *)
Lemma trimStart_trimEnd (s : str) :
  trimStart s = s -> trimStart (trimEnd s) = trimEnd s.
Proof.
  intros Hs. destruct (trimEnd_prefix s) as [post E].
  destruct (trimEnd s) as [| c t]; [reflexivity |].
  apply trimStart_fixed. apply (trimStart_head s c (t ++ post)).
  now rewrite Hs, E at 1.
Qed.

Lemma trim_idempotent (s : str) : trim (trim s) = trim s.
Proof.
  unfold trim.
  rewrite (trimStart_trimEnd (trimStart s) (trimStart_idempotent s)).
  apply trimEnd_idempotent.
Qed.

Lemma trim_In (s : str) (c : Z) : In c (trim s) -> In c s.
Proof.
  unfold trim. intros H.
  destruct (trimEnd_prefix (trimStart s)) as [post E].
  destruct (trimStart_suffix s) as [pre E'].
  rewrite E', E. apply in_or_app. right. apply in_or_app. now left.
Qed.

Lemma split_on_pieces (sep : Z) (s : str) :
  forall l, In l (split_on sep s) -> forall c, In c l -> In c s /\ c <> sep.
Proof.
  induction s as [| d s IH]; intros l Hl c Hc; cbn [split_on] in Hl.
  - destruct Hl as [<- | []]. destruct Hc.
  - destruct (Z.eqb_spec d sep) as [-> | Hd].
    { destruct Hl as [<- | Hl]; [destruct Hc |].
      destruct (IH _ Hl _ Hc). split; [now right | assumption]. }
    destruct (split_on sep s) as [| piece rest] eqn:E.
    + destruct Hl as [<- | []]. destruct Hc as [<- | []].
      split; [now left | assumption].
    + destruct Hl as [<- | Hl].
      * destruct Hc as [<- | Hc]; [split; [now left | assumption] |].
        destruct (IH piece (or_introl eq_refl) _ Hc).
        split; [now right | assumption].
      * destruct (IH l (or_intror Hl) _ Hc).
        split; [now right | assumption].
Qed.

(** X10. Every entry of [RCON_ALLOWED_USER_IDS] is a non-empty string
    without a comma and without white space at either end ([trim] leaves
    it as it is), and is what [trim] leaves of one of the pieces between
    the commas of the variable. *)
Theorem allowed_user_ids_entries :
  forall (env : option str) (id : str),
    In id (allowed_user_ids env) ->
    id <> [] /\ ~ In COMMA id /\ trim id = id
    /\ exists piece,
         In piece (split_on COMMA (match env with
                                   | Some v => v
                                   | None => []
                                   end))
         /\ id = trim piece.
Proof.
  intros env id Hid. unfold allowed_user_ids in Hid.
  apply filter_In in Hid as [Hid Hne].
  apply in_map_iff in Hid as (piece & <- & Hpiece).
  split; [| split; [| split]].
  - intros E. rewrite E in Hne. discriminate.
  - intros Hc. apply trim_In in Hc.
    now destruct (split_on_pieces _ _ _ Hpiece _ Hc).
  - apply trim_idempotent.
  - now exists piece.
Qed.

Lemma blank_pieces_dropped (ls : list str) :
  Forall (fun l => truthy (trim l) = false) ls ->
  filter truthy (map trim ls) = [].
Proof.
  induction 1 as [| l ls Hl _ IH]; [reflexivity |].
  cbn [map filter]. now rewrite Hl.
Qed.

(** When the variable holds only commas and white space (the empty
    string among them) the list of allowed users is empty, as it is when
    the variable is not set. *)
Lemma allowed_user_ids_blank :
  forall v : str,
    Forall (fun c => is_space c = true \/ c = COMMA) v ->
    allowed_user_ids (Some v) = [] /\ allowed_user_ids None = [].
Proof.
  intros v Hv. split; [| reflexivity].
  apply blank_pieces_dropped, Forall_forall. intros l Hl.
  apply truthy_trim, Forall_forall. intros c Hc.
  destruct (split_on_pieces _ _ _ Hl _ Hc) as [Hin Hsep].
  destruct (proj1 (Forall_forall _ _) Hv _ Hin); [assumption | contradiction].
Qed.

(** * More on the outbound queue *)

Section OutboundEdges.

Variable MAX_LINES_PER_BATCH : Z.
Variable channel_send : str -> bool.

Local Abbreviation sends := (map (attempted channel_send)).
Local Abbreviation trace := (flush_trace MAX_LINES_PER_BATCH channel_send).

(** A line that fits, met with a batch in hand that it overflows: the batch
    is sent and the line starts the next one. *)
Lemma process_overflow (raw l0 : str) (ls : list str) (n : Z)
  (tr : list attempt) :
  len raw <= MAX_CONTENT ->
  (MAX_CONTENT < n + (1 + len raw)
   \/ MAX_LINES_PER_BATCH < len_lines (l0 :: ls) + 1) ->
  process MAX_LINES_PER_BATCH channel_send raw
    {| current := l0 :: ls; currentLen := n; sent := tr |}
  = Some {| current := [raw]; currentLen := 0 + (1 + len raw);
            sent := tr ++ sends [Batch (l0 :: ls)] |}.
Proof.
  intros Hfit Hover. unfold process. cbn [current currentLen sent].
  destruct (Z.ltb_spec MAX_CONTENT (len raw)); [lia |].
  replace ((MAX_CONTENT <? n + (1 + len raw))
           || (MAX_LINES_PER_BATCH <? len_lines (l0 :: ls) + 1)) with true.
  - reflexivity.
  - symmetry. apply orb_true_iff. rewrite !Z.ltb_lt. exact Hover.
Qed.

(** A line that fits, with nothing in hand. *)
Lemma process_first (raw : str) (tr : list attempt) :
  len raw <= MAX_CONTENT ->
  process MAX_LINES_PER_BATCH channel_send raw
    {| current := []; currentLen := 0; sent := tr |}
  = Some {| current := [raw]; currentLen := 0 + (0 + len raw); sent := tr |}.
Proof.
  intros Hfit. unfold process. cbn [current currentLen sent].
  destruct (Z.ltb_spec MAX_CONTENT (len raw)); [lia |].
  destruct ((MAX_CONTENT <? 0 + (0 + len raw))
            || (MAX_LINES_PER_BATCH <? len_lines [] + 1)); reflexivity.
Qed.

(** A line that fits and joins the batch in hand. *)
Lemma process_append (raw l0 : str) (ls : list str) (n : Z)
  (tr : list attempt) :
  len raw <= MAX_CONTENT ->
  n + (1 + len raw) <= MAX_CONTENT ->
  len_lines (l0 :: ls) + 1 <= MAX_LINES_PER_BATCH ->
  process MAX_LINES_PER_BATCH channel_send raw
    {| current := l0 :: ls; currentLen := n; sent := tr |}
  = Some {| current := (l0 :: ls) ++ [raw]; currentLen := n + (1 + len raw);
            sent := tr |}.
Proof.
  intros Hfit Hchars Hlines. unfold process. cbn [current currentLen sent].
  destruct (Z.ltb_spec MAX_CONTENT (len raw)); [lia |].
  destruct (Z.ltb_spec MAX_CONTENT (n + (1 + len raw))); [lia |].
  destruct (Z.ltb_spec MAX_LINES_PER_BATCH (len_lines (l0 :: ls) + 1));
    [lia | reflexivity].
Qed.

Lemma drain_one_by_one (q : list str) :
  forall (l0 : str) (n : Z) (tr : list attempt),
    MAX_LINES_PER_BATCH <= 1 ->
    Forall (fun l => len l <= MAX_CONTENT) q ->
    exists st,
      drain MAX_LINES_PER_BATCH channel_send q
        {| current := [l0]; currentLen := n; sent := tr |} = Some st
      /\ sent (flushCurrent channel_send st)
         = tr ++ sends (map (fun l => Batch [l]) (l0 :: q)).
Proof.
  induction q as [| raw q IH]; intros l0 n tr Hmax Hq.
  - eexists. split; [reflexivity |]. reflexivity.
  - inversion Hq as [| ? ? Hraw Hq']; subst. cbn [drain].
    rewrite process_overflow;
      [| assumption | right; unfold len_lines; cbn [length]; lia].
    destruct (IH raw (0 + (1 + len raw)) (tr ++ sends [Batch [l0]]) Hmax Hq')
      as (st & E & S).
    exists st. split; [assumption |].
    rewrite S, <- app_assoc. reflexivity.
Qed.

(** X13. With [MAX_LINES_PER_BATCH] at one, zero or below, no two lines
    share a message: every line that fits is sent as a batch of its own,
    in order.  The loop does not get stuck on a bound that no batch can
    meet. *)
Theorem one_line_per_message :
  forall q : list str,
    MAX_LINES_PER_BATCH <= 1 ->
    Forall (fun l => len l <= MAX_CONTENT) q ->
    trace q = Some (sends (map (fun l => Batch [l]) q)).
Proof.
  intros q Hmax Hq. rewrite flush_trace_drain.
  destruct q as [| l q]; [reflexivity |].
  inversion Hq as [| ? ? Hl Hq']; subst.
  cbn [drain]. unfold idle. rewrite process_first by assumption.
  destruct (drain_one_by_one q l (0 + (0 + len l)) [] Hmax Hq')
    as (st & -> & S).
  cbn [option_map]. now rewrite S.
Qed.

(** X14. The running length is taken before the batch in hand is sent, so
    the batch that follows a sent one counts a separator it does not hold,
    and is packed one unit short.  Lines [b] and [c] that fill a message
    exactly are sent together when [b] comes first in the queue, and apart
    when [b] follows a line [a] that it could not join. *)
Theorem batch_after_a_flush_is_one_short :
  forall a b c : str,
    2 <= MAX_LINES_PER_BATCH ->
    len a <= MAX_CONTENT ->
    MAX_CONTENT < len a + 1 + len b ->
    len b + 1 + len c = MAX_CONTENT ->
    trace [b; c] = Some (sends [Batch [b; c]])
    /\ trace [a; b; c] = Some (sends [Batch [a]; Batch [b]; Batch [c]]).
Proof.
  intros a b c Hlines Ha Hab Hbc.
  pose proof (len_nonneg a). pose proof (len_nonneg b).
  pose proof (len_nonneg c).
  rewrite !flush_trace_drain. unfold idle. cbn [drain]. split.
  - rewrite process_first by lia.
    rewrite process_append;
      [| lia | lia | unfold len_lines; cbn [length]; lia].
    reflexivity.
  - rewrite process_first by lia.
    rewrite process_overflow; [| lia | left; lia].
    rewrite process_overflow; [| lia | left; lia].
    reflexivity.
Qed.

Local Abbreviation calls := (run MAX_LINES_PER_BATCH channel_send).
Local Abbreviation flush := (flushQueue MAX_LINES_PER_BATCH channel_send).

(** While no channel is set nothing is sent and nothing is dropped:
    whatever calls of [enqueue] and [flushQueue] are made, the outbox stays
    as it is and the queue grows by the enqueued lines, in order. *)
Lemma without_channel_lines_wait :
  forall (ops : list op) (sys : system),
    channel sys = false ->
    exists sys',
      calls ops sys = Some sys'
      /\ channel sys' = false
      /\ outbox sys' = outbox sys
      /\ queue sys' = queue sys ++ map sanitizeLine (enqueued ops).
Proof.
  induction ops as [| o ops IH]; intros sys Hc.
  - exists sys. cbn [run enqueued map]. now rewrite app_nil_r.
  - destruct o as [line | force]; cbn [run exec_op enqueued map].
    + destruct (enqueue_keeps line sys) as (Kc & Kq & Ko & _).
      destruct (IH (enqueue line sys)) as (sys' & E & C & O & Q);
        [congruence |].
      exists sys'. rewrite E, C, O, Q, Kq, Ko, <- app_assoc. auto.
    + unfold flushQueue. rewrite Hc. cbn [negb orb].
      destruct (stopTimerIfForced_keeps force sys) as (Kc & Kq & Ko).
      destruct (IH (stopTimerIfForced force sys)) as (sys' & E & C & O & Q);
        [congruence |].
      exists sys'. rewrite E, C, O, Q, Kq, Ko. auto.
Qed.






End OutboundEdges.

(** * More on [RconManager] *)

Section RconSessions.

Variable RCON_ENABLED : bool.
Variable connect_reply : list Rcon.call -> Rcon.outcome Rcon.session.
Variable exec_reply :
  list Rcon.call -> Rcon.session -> str -> Rcon.outcome str.
Variable end_reply : list Rcon.call -> Rcon.session -> Rcon.outcome unit.

Local Abbreviation rcon_send :=
  (Rcon.send RCON_ENABLED connect_reply exec_reply).

Ltac rcon_steps :=
  unfold Rcon.bind, Rcon.this, Rcon.backoff, Rcon.ret, Rcon.throw,
    Rcon.try_catch, Rcon.try_finally, Rcon.set_connecting,
    Rcon.set_connected, Rcon.set_rcon, Rcon.rcon_connect, Rcon.rcon_send,
    Rcon.rcon_end, Rcon.transport;
  cbn.

(** [send] on a live session: one call of the transport. *)
Lemma send_live (w : Rcon.world) (s : Rcon.session) (command : str) :
  RCON_ENABLED = true ->
  Rcon.rcon (Rcon.mgr w) = Some s ->
  Rcon.connected (Rcon.mgr w) = true ->
  rcon_send command w
  = match exec_reply (Rcon.calls w) s command with
    | Rcon.Return res =>
        (Rcon.Return res,
         {| Rcon.mgr := Rcon.mgr w;
            Rcon.calls := Rcon.calls w ++ [Rcon.Exec s command] |})
    | Rcon.Throw e =>
        (Rcon.Throw e,
         {| Rcon.mgr := {| Rcon.rcon := None; Rcon.connected := false;
                           Rcon.connecting := Rcon.connecting (Rcon.mgr w) |};
            Rcon.calls := Rcon.calls w ++ [Rcon.Exec s command] |})
    end.
Proof.
  intros Hen Hr Hc. destruct w as [[r c cing] log].
  cbn [Rcon.mgr Rcon.rcon Rcon.connected Rcon.calls Rcon.connecting] in *.
  subst r c. unfold Rcon.send, Rcon.ensureConnected. rewrite Hen.
  rcon_steps. destruct (exec_reply log s command); reflexivity.
Qed.

(** [send] without a live session: a connection first. *)
Lemma send_not_live (w : Rcon.world) (command : str) :
  RCON_ENABLED = true ->
  Rcon.live (Rcon.mgr w) = false ->
  rcon_send command w
  = match connect_reply (Rcon.calls w) with
    | Rcon.Return s =>
        rcon_send command
          {| Rcon.mgr := {| Rcon.rcon := Some s; Rcon.connected := true;
                            Rcon.connecting := false |};
             Rcon.calls := Rcon.calls w ++ [Rcon.Connect] |}
    | Rcon.Throw e =>
        (Rcon.Throw e,
         {| Rcon.mgr := {| Rcon.rcon := Rcon.rcon (Rcon.mgr w);
                           Rcon.connected := Rcon.connected (Rcon.mgr w);
                           Rcon.connecting := false |};
            Rcon.calls := Rcon.calls w ++ [Rcon.Connect] |})
    end.
Proof.
  intros Hen Hlive.
  destruct (connect_reply (Rcon.calls w)) as [s | e] eqn:Hconn.
  - rewrite (send_live
               {| Rcon.mgr := {| Rcon.rcon := Some s; Rcon.connected := true;
                                 Rcon.connecting := false |};
                  Rcon.calls := Rcon.calls w ++ [Rcon.Connect] |} s)
      by (assumption || reflexivity).
    unfold Rcon.send. unfold Rcon.bind at 1.
    rewrite ensureConnected_reconnects, Hconn by assumption.
    rcon_steps. destruct (exec_reply _ s command); reflexivity.
  - unfold Rcon.send. unfold Rcon.bind at 1.
    now rewrite ensureConnected_reconnects, Hconn by assumption.
Qed.

(** X20. A [send] that returns leaves a live session, and the next [send]
    uses it: it makes one call of the transport, the command on that
    session, and no new connection. *)
Theorem successful_send_keeps_session :
  forall (w w1 : Rcon.world) (command : str) (res : str),
    rcon_send command w = (Rcon.Return res, w1) ->
    exists s,
      Rcon.rcon (Rcon.mgr w1) = Some s
      /\ Rcon.connected (Rcon.mgr w1) = true
      /\ forall command' : str,
          exists res' w2,
            rcon_send command' w1 = (res', w2)
            /\ Rcon.calls w2 = Rcon.calls w1 ++ [Rcon.Exec s command'].
Proof.
  intros w w1 command res Hsend.
  assert (Hen : RCON_ENABLED = true).
  { destruct RCON_ENABLED; [reflexivity |].
    unfold Rcon.send, Rcon.ensureConnected in Hsend.
    cbn in Hsend. discriminate. }
  assert (Hgoal : forall w0 s,
             Rcon.rcon (Rcon.mgr w0) = Some s ->
             Rcon.connected (Rcon.mgr w0) = true ->
             rcon_send command w0 = (Rcon.Return res, w1) ->
             Rcon.rcon (Rcon.mgr w1) = Some s
             /\ Rcon.connected (Rcon.mgr w1) = true).
  { intros w0 s Hr Hc H0. rewrite (send_live _ s) in H0 by assumption.
    destruct (exec_reply (Rcon.calls w0) s command); [| discriminate].
    injection H0 as _ <-. now split. }
  assert (Hlive : exists s, Rcon.rcon (Rcon.mgr w1) = Some s
                            /\ Rcon.connected (Rcon.mgr w1) = true).
  { destruct (Rcon.live (Rcon.mgr w)) eqn:El.
    - unfold Rcon.live in El. apply andb_true_iff in El as [Hc Hr].
      destruct (Rcon.rcon (Rcon.mgr w)) as [s |] eqn:Er; [| discriminate].
      exists s. now apply (Hgoal w s).
    - rewrite send_not_live in Hsend by assumption.
      destruct (connect_reply (Rcon.calls w)) as [s | e]; [| discriminate].
      exists s. eapply Hgoal; [| | exact Hsend]; reflexivity. }
  destruct Hlive as (s & Hr & Hc). exists s. repeat split; try assumption.
  intros command'. rewrite (send_live _ s) by assumption.
  destruct (exec_reply (Rcon.calls w1) s command'); eauto.
Qed.

(** X21. When no session is live and the transport refuses the connection,
    [send] reports that failure to its caller and the command is never
    executed; the manager is not left connecting, has gained no session,
    and the next [send] asks for a connection again. *)
Theorem failed_connect_is_reported :
  forall (w : Rcon.world) (command : str) (e : Rcon.error),
    RCON_ENABLED = true ->
    Rcon.live (Rcon.mgr w) = false ->
    connect_reply (Rcon.calls w) = Rcon.Throw e ->
    exists w1,
      rcon_send command w = (Rcon.Throw e, w1)
      /\ Rcon.calls w1 = Rcon.calls w ++ [Rcon.Connect]
      /\ Rcon.connecting (Rcon.mgr w1) = false
      /\ Rcon.live (Rcon.mgr w1) = false
      /\ forall command' : str,
          exists res w2 later,
            rcon_send command' w1 = (res, w2)
            /\ Rcon.calls w2 = Rcon.calls w1 ++ Rcon.Connect :: later.
Proof.
  intros w command e Hen Hlive Hconn.
  rewrite send_not_live, Hconn by assumption.
  eexists. split; [reflexivity |].
  cbn [Rcon.calls Rcon.mgr Rcon.connecting].
  split; [reflexivity |]. split; [reflexivity |].
  assert (Hlive' :
            Rcon.live {| Rcon.rcon := Rcon.rcon (Rcon.mgr w);
                         Rcon.connected := Rcon.connected (Rcon.mgr w);
                         Rcon.connecting := false |} = false)
    by exact Hlive.
  split; [exact Hlive' |].
  intros command'. rewrite send_not_live by assumption.
  cbn [Rcon.calls].
  destruct (connect_reply (Rcon.calls w ++ [Rcon.Connect])) as [s | e'].
  - rewrite (send_live _ s) by (assumption || reflexivity).
    cbn [Rcon.calls Rcon.mgr].
    destruct (exec_reply _ s command'); do 3 eexists;
      (split; [reflexivity |]); cbn [Rcon.calls];
      now rewrite <- app_assoc.
  - do 2 eexists. exists []. split; reflexivity.
Qed.

(** X22. [close] never throws, whatever the transport answers.  It asks
    the transport to end the session it holds, once, and asks nothing when
    it holds none; afterwards the manager holds no session, and a second
    [close] changes nothing and makes no call. *)
Theorem close_ends_session_once :
  forall w : Rcon.world,
    exists w1,
      Rcon.close end_reply w = (Rcon.Return tt, w1)
      /\ Rcon.rcon (Rcon.mgr w1) = None
      /\ Rcon.connected (Rcon.mgr w1) = false
      /\ Rcon.calls w1
         = Rcon.calls w ++ match Rcon.rcon (Rcon.mgr w) with
                           | Some s => [Rcon.End s]
                           | None => []
                           end
      /\ Rcon.close end_reply w1 = (Rcon.Return tt, w1).
Proof.
  intros [[[s |] c cing] log]; unfold Rcon.close; rcon_steps.
  - destruct (end_reply log s); eexists; repeat split.
  - eexists. repeat split. now rewrite app_nil_r.
Qed.

Local Abbreviation use :=
  (use_manager RCON_ENABLED connect_reply exec_reply end_reply).

(** The manager at rest: not connecting, and connected exactly when it
    holds a session. *)
Lemma use_keeps_flags (u : manager_use) (w : Rcon.world) :
  Rcon.connecting (Rcon.mgr w) = false
  /\ (Rcon.connected (Rcon.mgr w) = true <-> Rcon.rcon (Rcon.mgr w) <> None) ->
  Rcon.connecting (Rcon.mgr (use w u)) = false
  /\ (Rcon.connected (Rcon.mgr (use w u)) = true
      <-> Rcon.rcon (Rcon.mgr (use w u)) <> None).
Proof.
  intros [Hcing Hagree]. destruct u as [command | |]; cbn [use_manager].
  - assert (Hcase : RCON_ENABLED = true \/ RCON_ENABLED = false)
      by (destruct RCON_ENABLED; auto).
    destruct Hcase as [Hen | Hen].
    2: { unfold Rcon.send, Rcon.ensureConnected. rewrite Hen. cbn.
         now split. }
    assert (Hlive : forall w0 s,
               Rcon.rcon (Rcon.mgr w0) = Some s ->
               Rcon.connected (Rcon.mgr w0) = true ->
               Rcon.connecting (Rcon.mgr w0) = false ->
               let w1 := snd (rcon_send command w0) in
               Rcon.connecting (Rcon.mgr w1) = false
               /\ (Rcon.connected (Rcon.mgr w1) = true
                   <-> Rcon.rcon (Rcon.mgr w1) <> None)).
    { intros w0 s Hr Hc Hg. cbn zeta.
      rewrite (send_live w0 s) by (assumption || reflexivity).
      destruct (exec_reply (Rcon.calls w0) s command); cbn.
      - split; [assumption |]. rewrite Hr, Hc. split; congruence.
      - split; [assumption |]. split; congruence. }
    destruct (Rcon.live (Rcon.mgr w)) eqn:El.
    + unfold Rcon.live in El. apply andb_true_iff in El as [Hc Hr].
      destruct (Rcon.rcon (Rcon.mgr w)) as [s |] eqn:Er; [| discriminate].
      now apply (Hlive w s).
    + rewrite send_not_live by (assumption || reflexivity).
      destruct (connect_reply (Rcon.calls w)) as [s | e].
      * now apply (Hlive _ s).
      * cbn. now split.
  - clear Hagree. destruct w as [[[s |] c cing] log]; cbn in Hcing;
      subst cing; unfold Rcon.close; rcon_steps;
      [destruct (end_reply log s) |]; cbn;
      (split; [reflexivity | split; congruence]).
  - unfold Rcon.on_end. rcon_steps. split; [assumption |].
    split; congruence.
Qed.

(** X23. However the manager is used ([send], [close] and the [end] event
    of the session, in any order and whatever the transport answers), when
    it is at rest it is not connecting, and it is connected exactly when
    it holds a session. *)
Theorem manager_flags_agree :
  forall us : list manager_use,
    Rcon.connecting
      (Rcon.mgr
         (use_manager_all RCON_ENABLED connect_reply exec_reply end_reply us
            {| Rcon.mgr := Rcon.fresh; Rcon.calls := [] |})) = false
    /\ (Rcon.connected
          (Rcon.mgr
             (use_manager_all RCON_ENABLED connect_reply exec_reply end_reply
                us {| Rcon.mgr := Rcon.fresh; Rcon.calls := [] |})) = true
        <-> Rcon.rcon
              (Rcon.mgr
                 (use_manager_all RCON_ENABLED connect_reply exec_reply
                    end_reply us
                    {| Rcon.mgr := Rcon.fresh; Rcon.calls := [] |}))
            <> None).
Proof.
  intros us. unfold use_manager_all.
  assert (Hstart :
            Rcon.connecting
              (Rcon.mgr {| Rcon.mgr := Rcon.fresh; Rcon.calls := [] |})
            = false
            /\ (Rcon.connected
                  (Rcon.mgr {| Rcon.mgr := Rcon.fresh; Rcon.calls := [] |})
                = true
                <-> Rcon.rcon
                      (Rcon.mgr
                         {| Rcon.mgr := Rcon.fresh; Rcon.calls := [] |})
                    <> None)).
  { cbn. split; [reflexivity |]. split; [discriminate | congruence]. }
  revert Hstart.
  generalize {| Rcon.mgr := Rcon.fresh; Rcon.calls := [] |}.
  induction us as [| u us IH]; intros w Hw; [exact Hw |].
  cbn [fold_left]. apply IH. now apply use_keeps_flags.
Qed.

End RconSessions.

(** * The [messageCreate] handler *)

Lemma str_eqb_eq (a b : str) : str_eqb a b = true <-> a = b.
Proof.
  revert b. induction a as [| x a IH]; intros [| y b]; cbn [str_eqb];
    try (split; [discriminate | discriminate]); [now split |].
  rewrite andb_true_iff, Z.eqb_eq, IH. split.
  - now intros [-> ->].
  - intros [= -> ->]. now split.
Qed.

Lemma includes_In (l : list str) (s : str) : includes l s = true <-> In s l.
Proof.
  unfold includes. rewrite existsb_exists. split.
  - intros (x & Hx & E). apply str_eqb_eq in E. now subst.
  - intros H. exists s. split; [assumption | now apply str_eqb_eq].
Qed.

Lemma starts_with_prefix (p s : str) :
  starts_with p s = true <-> exists rest, s = p ++ rest.
Proof.
  revert s. induction p as [| x p IH]; intros s; cbn [starts_with].
  - split; [now exists s | reflexivity].
  - destruct s as [| c s].
    + split; [discriminate | intros [rest E]; discriminate].
    + rewrite andb_true_iff, Z.eqb_eq, IH. split.
      * intros [-> [rest ->]]. now exists rest.
      * intros [rest E]. injection E as -> ->. split; eauto.
Qed.

(** [content.slice(RCON_PREFIX.length)] on a content that starts with the
    prefix. *)
Lemma slice_after_prefix (p rest : str) :
  slice (p ++ rest) (len p) (len (p ++ rest)) = rest.
Proof.
  unfold slice, clamp_index. rewrite len_app.
  pose proof (len_nonneg p). pose proof (len_nonneg rest).
  destruct (Z.ltb_spec (len p) 0); [lia |].
  destruct (Z.ltb_spec (len p + len rest) 0); [lia |].
  rewrite !Z.min_l by lia.
  replace (Z.to_nat (len p)) with (length p) by (unfold len; lia).
  replace (Z.to_nat (len p + len rest - len p)) with (length rest)
    by (unfold len; lia).
  rewrite skipn_app, skipn_all, Nat.sub_diag. cbn [app skipn].
  apply firstn_all.
Qed.

Lemma slice_head_length (e : str) (n : Z) :
  0 <= n -> len (slice e 0 n) <= n.
Proof.
  intros Hn. unfold slice, clamp_index.
  destruct (Z.ltb_spec 0 0); [lia |]. destruct (Z.ltb_spec n 0); [lia |].
  unfold len at 1. rewrite length_firstn.
  pose proof (len_nonneg e). lia.
Qed.

Section CommandProperties.

Variable RCON_ENABLED : bool.
Variable CHANNEL_ID : str.
Variable RCON_PREFIX : str.
Variable RCON_ALLOWED_USER_IDS : list str.
Variable RCON_ALLOWED_ROLE_ID : str.
Variable connect_reply : list Rcon.call -> Rcon.outcome Rcon.session.
Variable exec_reply :
  list Rcon.call -> Rcon.session -> str -> Rcon.outcome str.
Variable reply_result : list Command.effect -> str -> Rcon.outcome unit.
Variable typing_result : list Command.effect -> Rcon.outcome unit.

Local Abbreviation handler :=
  (Command.messageCreate RCON_ENABLED CHANNEL_ID RCON_PREFIX
     RCON_ALLOWED_USER_IDS RCON_ALLOWED_ROLE_ID connect_reply exec_reply
     reply_result typing_result).
Local Abbreviation try_block :=
  (Command.answer RCON_ENABLED CHANNEL_ID RCON_PREFIX
     RCON_ALLOWED_USER_IDS RCON_ALLOWED_ROLE_ID connect_reply exec_reply
     reply_result typing_result).
Local Abbreviation say := (Command.reply reply_result).
Local Abbreviation report_back := (Command.report reply_result).
Local Abbreviation allowed :=
  (permitted RCON_ENABLED CHANNEL_ID RCON_PREFIX RCON_ALLOWED_USER_IDS
     RCON_ALLOWED_ROLE_ID).
Local Abbreviation skipped := (ignored RCON_ENABLED CHANNEL_ID RCON_PREFIX).
Local Abbreviation taken := (fits RCON_PREFIX).
Local Abbreviation fenced result :=
  (chunks
     (FENCE
      ++ (if truthy (trim result) then trim result else Command.NO_OUTPUT)
      ++ FENCE)
     (DISCORD_HARD_LIMIT - 1)).

Lemma world_eta (w : Command.world) :
  {| Command.rconManager := Command.rconManager w;
     Command.effects := Command.effects w ++ [] |} = w.
Proof. destruct w. cbn. now rewrite app_nil_r. Qed.

(** The loop over the chunks stops at the first reply that fails. *)
Lemma reply_each_run (cs : list str) :
  forall w,
    exists r k,
      Command.reply_each reply_result cs w
      = Some (r, {| Command.rconManager := Command.rconManager w;
                    Command.effects :=
                      Command.effects w
                      ++ map Command.Reply (firstn k cs) |})
      /\ ((forall log c, reply_result log c = Rcon.Return tt) ->
          r = Rcon.Return tt /\ k = length cs).
Proof.
  induction cs as [| c cs IH]; intros w.
  - exists (Rcon.Return tt), 0%nat. cbn [Command.reply_each firstn map].
    unfold Command.ret. rewrite world_eta. now split.
  - cbn [Command.reply_each].
    unfold Command.bind, Command.reply, Command.platform.
    destruct (reply_result (Command.effects w) c) as [[] | e] eqn:E.
    + destruct (IH {| Command.rconManager := Command.rconManager w;
                      Command.effects :=
                        Command.effects w ++ [Command.Reply c] |})
        as (r & k & -> & Hall).
      exists r, (S k). cbn [Command.rconManager Command.effects firstn map].
      rewrite <- app_assoc. split; [reflexivity |].
      intros H. destruct (Hall H) as [-> ->]. now split.
    + exists (Rcon.Throw e), 1%nat. cbn [firstn map]. split; [reflexivity |].
      intros H. rewrite H in E. discriminate.
Qed.

Lemma report_run (result : str) (w : Command.world) :
  exists r k,
    report_back result w
    = Some (r, {| Command.rconManager := Command.rconManager w;
                  Command.effects :=
                    Command.effects w
                    ++ map Command.Reply (firstn k (fenced result)) |})
    /\ ((forall log c, reply_result log c = Rcon.Return tt) ->
        r = Rcon.Return tt /\ k = length (fenced result)).
Proof.
  unfold Command.report.
  rewrite splitToChunks_chunks by reflexivity.
  unfold Command.bind at 1. unfold Command.terminating.
  apply reply_each_run.
Qed.

Lemma firstn_fits (k : nat) (result : str) :
  Forall taken (map Command.Reply (firstn k (fenced result))).
Proof.
  apply Forall_map, Forall_forall. intros c Hc. cbn [fits]. left.
  assert (Hin : In c (fenced result))
    by (rewrite <- (firstn_skipn k); apply in_or_app; now left).
  clear Hc. rename Hin into Hc.
  pose proof (chunks_bounded
                (FENCE
                 ++ (if truthy (trim result) then trim result
                     else Command.NO_OUTPUT) ++ FENCE)
                (DISCORD_HARD_LIMIT - 1) eq_refl) as Hb.
  apply (proj1 (Forall_forall _ _) Hb) in Hc.
  unfold DISCORD_HARD_LIMIT in *. lia.
Qed.

(** A reply that makes no use of the manager. *)
Lemma say_run (c : str) (w : Command.world) :
  taken (Command.Reply c) ->
  exists r w1 new,
    say c w = Some (r, w1)
    /\ Command.rconManager w1 = Command.rconManager w
    /\ Command.effects w1 = Command.effects w ++ new
    /\ Forall taken new.
Proof.
  intros Hc. unfold Command.reply, Command.platform.
  do 3 eexists. split; [reflexivity |].
  cbn [Command.rconManager Command.effects]. repeat split.
  now constructor.
Qed.

Lemma NOT_ALLOWED_fits : taken (Command.Reply Command.NOT_ALLOWED).
Proof. left. reflexivity. Qed.

Lemma usage_fits : taken (Command.Reply (Command.usage RCON_PREFIX)).
Proof. now right. Qed.

(** The command at the console and its result on the way back. *)
Lemma console_run (command : str) (w : Command.world) :
  exists r w1 new,
    Command.bind
      (Command.lift (Rcon.send RCON_ENABLED connect_reply exec_reply command))
      (fun result => report_back result) w
    = Some (r, w1)
    /\ Command.effects w1 = Command.effects w ++ new
    /\ Forall taken new.
Proof.
  unfold Command.bind, Command.lift.
  destruct (Rcon.send RCON_ENABLED connect_reply exec_reply command
              (Command.rconManager w)) as [[result | e] m].
  - destruct (report_run result
                {| Command.rconManager := m;
                   Command.effects := Command.effects w |})
      as (r & k & -> & _).
    do 3 eexists. split; [reflexivity |].
    cbn [Command.effects]. split; [reflexivity | apply firstn_fits].
  - exists (Rcon.Throw e). eexists. exists [].
    split; [reflexivity |]. cbn [Command.effects].
    now rewrite app_nil_r.
Qed.

(** What the [try] block does, whatever the message. *)
Lemma try_block_run (msg : Command.message) (w : Command.world) :
  exists r w1 new,
    try_block msg w = Some (r, w1)
    /\ Command.effects w1 = Command.effects w ++ new
    /\ Forall taken new
    /\ (Command.rconManager w1 <> Command.rconManager w -> allowed msg)
    /\ (skipped msg -> r = Rcon.Return tt /\ w1 = w).
Proof.
  assert (Hquiet : forall r w1 new,
             Command.rconManager w1 = Command.rconManager w ->
             Command.effects w1 = Command.effects w ++ new ->
             Forall taken new ->
             ~ skipped msg ->
             Command.effects w1 = Command.effects w ++ new
             /\ Forall taken new
             /\ (Command.rconManager w1 <> Command.rconManager w ->
                 allowed msg)
             /\ (skipped msg -> r = Rcon.Return tt /\ w1 = w)).
  { intros r w1 new Hm He Hf Hs. repeat split; try assumption;
      intros; contradiction. }
  assert (Hnone : exists r w1 new,
             Command.ret tt w = Some (r, w1)
             /\ Command.effects w1 = Command.effects w ++ new
             /\ Forall taken new
             /\ (Command.rconManager w1 <> Command.rconManager w ->
                 allowed msg)
             /\ (skipped msg -> r = Rcon.Return tt /\ w1 = w)).
  { exists (Rcon.Return tt), w, []. rewrite app_nil_r.
    split; [reflexivity |]. split; [reflexivity |]. split; [constructor |].
    split; [intros Hm; now destruct Hm | auto]. }
  unfold Command.answer.
  destruct (negb RCON_ENABLED) eqn:Hen; [exact Hnone |].
  apply negb_false_iff in Hen.
  destruct (Command.author_bot msg) eqn:Hbot; [exact Hnone |].
  destruct (str_eqb (Command.channelId msg) CHANNEL_ID) eqn:Hch;
    cbn [negb]; [| exact Hnone].
  apply str_eqb_eq in Hch.
  destruct (starts_with RCON_PREFIX (Command.content msg)) eqn:Hpre;
    cbn [negb]; [| exact Hnone].
  apply starts_with_prefix in Hpre as [rest Hrest].
  assert (Hseen : ~ skipped msg).
  { unfold ignored. intros [H | [H | [H | H]]]; try congruence.
    apply H. now exists rest. }
  clear Hnone.
  assert (Hsay : forall c,
             taken (Command.Reply c) ->
             exists r w1 new,
               say c w = Some (r, w1)
               /\ Command.effects w1 = Command.effects w ++ new
               /\ Forall taken new
               /\ (Command.rconManager w1 <> Command.rconManager w ->
                   allowed msg)
               /\ (skipped msg -> r = Rcon.Return tt /\ w1 = w)).
  { intros c Hc.
    destruct (say_run c w Hc) as (r & w1 & new & E & Hm & He & Hf).
    exists r, w1, new. split; [exact E | now apply Hquiet]. }
  destruct ((0 <? len_lines RCON_ALLOWED_USER_IDS)
            && negb (includes RCON_ALLOWED_USER_IDS (Command.author_id msg)))
    eqn:Hids; [apply Hsay, NOT_ALLOWED_fits |].
  destruct (truthy RCON_ALLOWED_ROLE_ID
            && negb match Command.member_roles msg with
                    | Some roles => includes roles RCON_ALLOWED_ROLE_ID
                    | None => false
                    end) eqn:Hrole; [apply Hsay, NOT_ALLOWED_fits |].
  rewrite Hrest, slice_after_prefix.
  destruct (truthy (trim rest)) eqn:Hcmd; cbn [negb];
    [| apply Hsay, usage_fits].
  assert (Hallowed : allowed msg).
  { unfold permitted. repeat split; try assumption.
    - exists rest. split; [assumption |]. intros E. rewrite E in Hcmd.
      discriminate.
    - apply andb_false_iff in Hids as [Hids | Hids].
      + left. apply Z.ltb_ge in Hids.
        destruct RCON_ALLOWED_USER_IDS; [reflexivity |].
        unfold len_lines in Hids. cbn [length] in Hids. lia.
      + right. apply negb_false_iff in Hids. now apply includes_In.
    - apply andb_false_iff in Hrole as [Hrole | Hrole].
      + left. unfold truthy in Hrole. apply negb_false_iff in Hrole.
        now apply len_nil_iff, Z.eqb_eq.
      + right. apply negb_false_iff in Hrole.
        destruct (Command.member_roles msg) as [roles |]; [| discriminate].
        exists roles. split; [reflexivity | now apply includes_In]. }
  assert (Hrest_of : forall w0 pre,
             Command.effects w0 = Command.effects w ++ pre ->
             Forall taken pre ->
             exists r w1 new,
               Command.bind
                 (Command.lift
                    (Rcon.send RCON_ENABLED connect_reply exec_reply
                       (trim rest)))
                 (fun result => report_back result) w0
               = Some (r, w1)
               /\ Command.effects w1 = Command.effects w ++ new
               /\ Forall taken new
               /\ (Command.rconManager w1 <> Command.rconManager w ->
                   allowed msg)
               /\ (skipped msg -> r = Rcon.Return tt /\ w1 = w)).
  { intros w0 pre He Hp.
    destruct (console_run (trim rest) w0) as (r & w1 & new & E & He1 & Hn).
    exists r, w1, (pre ++ new). split; [exact E |].
    rewrite He1, He, <- app_assoc. split; [reflexivity |].
    split; [now apply Forall_app |].
    split; [now intros _ | intros; contradiction]. }
  unfold Command.bind at 1.
  destruct (Command.can_type msg).
  - unfold Command.sendTyping, Command.platform.
    destruct (typing_result (Command.effects w)) as [[] | e].
    + apply (Hrest_of _ [Command.Typing]); [reflexivity |].
      repeat constructor.
    + do 2 eexists. exists [Command.Typing]. split; [reflexivity |].
      apply Hquiet; try reflexivity; [repeat constructor | assumption].
  - unfold Command.ret. apply (Hrest_of w []); [| constructor].
    now rewrite app_nil_r.
Qed.

Lemma error_reply_fits (e : Rcon.error) :
  taken (Command.Reply (Command.error_reply e)).
Proof.
  left. unfold Command.error_reply.
  change (len (0x274C :: lit " RCON error: `" ++ slice e 0 1800 ++ lit "`"))
    with (len ((0x274C :: lit " RCON error: `")
               ++ slice e 0 1800 ++ lit "`")).
  rewrite !len_app.
  pose proof (slice_head_length e 1800 ltac:(lia)) as Hs.
  change (len (0x274C :: lit " RCON error: `")) with 15.
  change (len (lit "`")) with 1.
  unfold DISCORD_HARD_LIMIT. lia.
Qed.

(** What the handler does, whatever the message. *)
Lemma handler_run (msg : Command.message) (w : Command.world) :
  exists w' new,
    handler msg w = Some (Rcon.Return tt, w')
    /\ Command.effects w' = Command.effects w ++ new
    /\ Forall taken new
    /\ (Command.rconManager w' <> Command.rconManager w -> allowed msg)
    /\ (skipped msg -> w' = w).
Proof.
  destruct (try_block_run msg w) as (r & w1 & new & E & He & Hn & Hm & Hs).
  unfold Command.messageCreate, Command.try_catch. rewrite E.
  destruct r as [[] | e].
  - exists w1, new. split; [reflexivity |]. split; [assumption |].
    split; [assumption |]. split; [assumption |].
    intros H. now destruct (Hs H).
  - exists {| Command.rconManager := Command.rconManager w1;
              Command.effects :=
                Command.effects w1
                ++ [Command.Reply (Command.error_reply e)] |},
      (new ++ [Command.Reply (Command.error_reply e)]).
    split.
    { unfold Command.reply, Command.platform, Command.ret.
      now destruct (reply_result _ _) as [[] | e']. }
    cbn [Command.effects Command.rconManager].
    rewrite He, <- app_assoc. split; [reflexivity |].
    split.
    { apply Forall_app. split; [assumption |].
      constructor; [apply error_reply_fits | constructor]. }
    split; [assumption |].
    intros H. destruct (Hs H) as [Hr _]. discriminate.
Qed.

(** X24. The handler always comes to an end and never throws: a failure
    of the console or of the chat platform is caught and reported, and a
    failure of that report is swallowed. *)
Theorem messageCreate_never_throws :
  forall (msg : Command.message) (w : Command.world),
    exists w', handler msg w = Some (Rcon.Return tt, w').
Proof.
  intros msg w. destruct (handler_run msg w) as (w' & _ & E & _).
  now exists w'.
Qed.

(** X25. The handler does not look at a message when the console is
    disabled, when a bot wrote it, when it was written in another channel,
    or when it does not start with the prefix: it makes no reply, sends no
    typing notice and leaves the manager alone. *)
Theorem messageCreate_ignores :
  forall (msg : Command.message) (w : Command.world),
    skipped msg -> handler msg w = Some (Rcon.Return tt, w).
Proof.
  intros msg w Hs.
  destruct (handler_run msg w) as (w' & _ & E & _ & _ & _ & Hw).
  now rewrite <- (Hw Hs) at 2.
Qed.

(** X26. The manager is touched only for a permitted message: the console
    is enabled, the author is not a bot, the message is in the configured
    channel, starts with the prefix and has a command behind it, the author
    is on the list of allowed users when that list is not empty, and has
    the allowed role when one is configured (an author whose member record
    cannot be fetched does not have it). *)
Theorem console_only_for_permitted :
  forall (msg : Command.message) (w w' : Command.world)
         (r : Rcon.outcome unit),
    handler msg w = Some (r, w') ->
    Command.rconManager w' <> Command.rconManager w ->
    allowed msg.
Proof.
  intros msg w w' r E Hm.
  destruct (handler_run msg w) as (w1 & _ & E1 & _ & _ & H & _).
  rewrite E in E1. injection E1 as _ <-. now apply H.
Qed.

(** X27. Every reply the handler makes is shorter than the limit of a
    message, the usage hint apart: the refusal, each chunk of a result,
    and the report of an error, which quotes at most 1800 units of it. *)
Theorem replies_fit_a_message :
  forall (msg : Command.message) (w w' : Command.world)
         (r : Rcon.outcome unit),
    handler msg w = Some (r, w') ->
    exists new,
      Command.effects w' = Command.effects w ++ new /\ Forall taken new.
Proof.
  intros msg w w' r E.
  destruct (handler_run msg w) as (w1 & new & E1 & He & Hn & _).
  rewrite E in E1. injection E1 as _ <-. now exists new.
Qed.


End CommandProperties.

(** * More on [shutdown] *)

Section ShutdownCompletion.

Variable stdin_writable : bool.
Variable closed_in_grace : bool.

Local Abbreviation events := (Shutdown.run stdin_writable closed_in_grace).
Local Abbreviation on_event :=
  (Shutdown.handle stdin_writable closed_in_grace).
Local Abbreviation whole :=
  (Shutdown.teardown stdin_writable closed_in_grace).
Local Abbreviation possible := (progress stdin_writable closed_in_grace).

Lemma after_exit (es : list Shutdown.event) (p : Shutdown.process) :
  Shutdown.exited p = true -> events es p = p.
Proof.
  intros Hp. induction es as [| e es IH]; [reflexivity |].
  cbn [Shutdown.run fold_left]. unfold Shutdown.handle at 2.
  rewrite Hp. exact IH.
Qed.

(** X29. [process.exit(0)] is reached only at the end of the teardown:
    once the process has exited, the whole sequence has been performed (the
    stop command if the server's input was writable, the kill if the grace
    period ran out, the forced flush, the closing of the console session
    and of the chat client), no activation of [shutdown] is left, and no
    later event changes anything. *)
Theorem exit_only_after_teardown :
  forall es : list Shutdown.event,
    Shutdown.exited (events es Shutdown.started) = true ->
    Shutdown.performed (events es Shutdown.started) = whole
    /\ Shutdown.activations (events es Shutdown.started) = []
    /\ forall more,
         events (es ++ more) Shutdown.started = events es Shutdown.started.
Proof.
  intros es Hex.
  pose proof (run_progress stdin_writable closed_in_grace es _
                (Not_started _ _)) as Hp.
  split; [| split].
  - destruct Hp; [discriminate | discriminate | reflexivity].
  - destruct Hp; [discriminate | discriminate | reflexivity].
  - intros more. unfold Shutdown.run. rewrite fold_left_app.
    now apply after_exit.
Qed.

Lemma events_complete (es : list Shutdown.event) :
  forall p,
    possible p -> Shutdown.shuttingDown p = true ->
    (awaits_left p <= settled es)%nat ->
    Shutdown.exited (events es p) = true.
Proof.
  induction es as [| e es IH]; intros p Hp Hflag Hleft.
  - destruct Hp as [| k Hk |]; [discriminate | | reflexivity].
    unfold awaits_left, settled in Hleft.
    cbn [Shutdown.activations filter length] in Hleft.
    unfold Shutdown.last_segment in *. lia.
  - cbn [Shutdown.run fold_left].
    apply IH; [now apply handle_progress | now apply flag_stays |].
    destruct Hp as [| k Hk |]; [discriminate | | unfold awaits_left; cbn; lia].
    unfold Shutdown.handle, Shutdown.shutdown, Shutdown.resume.
    cbn [Shutdown.exited Shutdown.shuttingDown Shutdown.activations].
    destruct e as [| [| a]]; cbn [nth_error].
    + exact Hleft.
    + unfold settled in *. cbn [filter length] in Hleft.
      destruct (k =? Shutdown.last_segment)%nat;
        unfold awaits_left in *;
        cbn [Shutdown.activations Shutdown.remove_nth Shutdown.set_nth]
          in *; lia.
    + replace (nth_error [] a) with (@None nat) by now destruct a.
      exact Hleft.
Qed.

(** X30. A signal is followed through to the exit.  Whatever happened
    before the signal and however many further signals arrive, once the
    awaited promise of [shutdown] has settled five times after it (the
    announcement, the grace wait, the flush, the closing of the console
    session, the closing of the chat client) the process has exited, with
    the whole teardown performed. *)
Theorem shutdown_runs_to_the_exit :
  forall before after : list Shutdown.event,
    (5 <= settled after)%nat ->
    Shutdown.exited
      (events (before ++ Shutdown.Signal :: after) Shutdown.started) = true
    /\ Shutdown.performed
         (events (before ++ Shutdown.Signal :: after) Shutdown.started)
       = whole.
Proof.
  intros before after Hafter.
  assert (Hex : Shutdown.exited
                  (events (before ++ Shutdown.Signal :: after)
                     Shutdown.started) = true).
  { unfold Shutdown.run. rewrite fold_left_app. cbn [fold_left].
    pose proof (run_progress stdin_writable closed_in_grace before _
                  (Not_started _ _)) as Hp.
    apply events_complete.
    - now apply handle_progress.
    - now apply signal_sets_flag.
    - fold (events before Shutdown.started).
      destruct Hp as [| k Hk |];
        unfold awaits_left, Shutdown.handle, Shutdown.shutdown,
          Shutdown.started;
        cbn [Shutdown.exited Shutdown.shuttingDown Shutdown.activations app];
        unfold Shutdown.last_segment in *; lia. }
  split; [exact Hex |].
  pose proof (run_progress stdin_writable closed_in_grace
                (before ++ Shutdown.Signal :: after) _
                (Not_started _ _)) as Hp.
  destruct Hp; [discriminate | discriminate | reflexivity].
Qed.

End ShutdownCompletion.

(** * Accounts of the queue under any schedule *)

Section AsyncAccounting.

Variable MAX_LINES_PER_BATCH : Z.
Variable channel_send : str -> bool.

Local Abbreviation turn := (Async.loop MAX_LINES_PER_BATCH channel_send).
Local Abbreviation again :=
  (Async.resume_turn MAX_LINES_PER_BATCH channel_send).
Local Abbreviation one := (Async.step MAX_LINES_PER_BATCH channel_send).
Local Abbreviation schedule := (Async.run MAX_LINES_PER_BATCH channel_send).

Lemma sent_pieces_app (a b : list attempt) :
  sent_pieces (a ++ b) = sent_pieces a ++ sent_pieces b.
Proof. unfold sent_pieces. now rewrite map_app, flat_map_app. Qed.

Lemma sent_pieces_attempted (ms : list message) :
  sent_pieces (map (attempted channel_send) ms) = flat_map payload ms.
Proof. unfold sent_pieces. now rewrite map_fst_attempted. Qed.

Lemma sent_pieces_flushCurrent (st : flush_state) :
  sent_pieces (sent (flushCurrent channel_send st))
  = sent_pieces (sent st) ++ current st.
Proof.
  rewrite flushCurrent_sent, sent_pieces_app, sent_pieces_attempted.
  destruct (current st); cbn [pending_batch flat_map payload];
    now rewrite ?app_nil_r.
Qed.

Lemma sent_pieces_fragment (c : str) (index total : Z) (tr : list attempt) :
  sent_pieces (sendPacked channel_send (Fragment c index total) tr)
  = sent_pieces tr ++ [c].
Proof.
  change (sendPacked channel_send (Fragment c index total) tr)
    with (tr ++ map (attempted channel_send) [Fragment c index total]).
  now rewrite sent_pieces_app, sent_pieces_attempted.
Qed.

Lemma pieces_fit (raw : str) : len raw <= MAX_CONTENT -> pieces raw = [raw].
Proof.
  intros H. unfold pieces.
  now destruct (Z.ltb_spec MAX_CONTENT (len raw)); [lia |].
Qed.

Lemma pieces_oversized (raw : str) :
  MAX_CONTENT < len raw -> pieces raw = chunks raw MAX_CONTENT.
Proof.
  intros H. unfold pieces.
  now destruct (Z.ltb_spec MAX_CONTENT (len raw)); [| lia].
Qed.

(** Within one turn of a call the texts keep their order: what has been
    sent, what the call still has to send and what is left in the queue
    are what had been sent, what the call held and what it found queued. *)
Lemma turn_pieces (q : list str) :
  forall st t,
    turn q st = Some t ->
    current (Async.state t) = []
    /\ sent_pieces (sent (Async.state t)) ++ next_pieces (Async.next t)
       ++ flat_map pieces (Async.rest_queue t)
       = sent_pieces (sent st) ++ current st ++ flat_map pieces q.
Proof.
  induction q as [| raw q IH]; intros st t Ht; cbn [Async.loop] in Ht.
  - injection Ht as <-.
    cbn [Async.state Async.next Async.rest_queue flat_map].
    split; [reflexivity |].
    rewrite sent_pieces_flushCurrent, !app_nil_r.
    destruct (current st); cbn [next_pieces cont_pieces];
      now rewrite app_nil_r.
  - cbn [flat_map].
    destruct (Z.ltb_spec MAX_CONTENT (len raw)) as [Hbig | Hfit].
    + rewrite splitToChunks_chunks in Ht by apply MAX_CONTENT_pos.
      rewrite (pieces_oversized raw Hbig).
      destruct (current st) as [| l ls] eqn:E.
      * destruct (chunks raw MAX_CONTENT) as [| c rest].
        -- destruct (IH _ _ Ht) as [Hc Hp]. rewrite E in Hp.
           split; [exact Hc | exact Hp].
        -- injection Ht as <-.
           cbn [Async.state Async.next Async.rest_queue Async.sendPiece
                  current sent next_pieces cont_pieces].
           split; [exact E |].
           rewrite sent_pieces_fragment, <- !app_assoc. reflexivity.
      * injection Ht as <-.
        cbn [Async.state Async.next Async.rest_queue next_pieces
               cont_pieces].
        split; [reflexivity |].
        rewrite sent_pieces_flushCurrent, E, <- !app_assoc. reflexivity.
    + rewrite (pieces_fit raw Hfit). cbv zeta in Ht.
      destruct ((MAX_CONTENT
                 <? currentLen st
                    + (match current st with [] => 0 | _ :: _ => 1 end
                       + len raw))
                || (MAX_LINES_PER_BATCH <? len_lines (current st) + 1)).
      * destruct (current st) as [| l ls] eqn:E.
        -- destruct (IH _ _ Ht) as [Hc Hp]. split; [exact Hc |].
           rewrite Hp. cbn [Async.push sent current].
           rewrite sent_pieces_flushCurrent, E, app_nil_r. reflexivity.
        -- injection Ht as <-.
           cbn [Async.state Async.next Async.rest_queue next_pieces
                  cont_pieces].
           split; [reflexivity |].
           rewrite sent_pieces_flushCurrent, E, <- !app_assoc. reflexivity.
      * destruct (IH _ _ Ht) as [Hc Hp]. split; [exact Hc |].
        rewrite Hp. cbn [Async.push sent current].
        now rewrite <- !app_assoc.
Qed.

Lemma again_pieces (k : Async.cont) (q : list str) (tr : list attempt)
  (t : Async.turn) :
  again k q {| current := []; currentLen := 0; sent := tr |} = Some t ->
  current (Async.state t) = []
  /\ sent_pieces (sent (Async.state t)) ++ next_pieces (Async.next t)
     ++ flat_map pieces (Async.rest_queue t)
     = sent_pieces tr ++ cont_pieces k ++ flat_map pieces q.
Proof.
  intros Ht. destruct k as [raw addLen | total i [| c rest] |];
    cbn [Async.resume_turn] in Ht.
  - destruct (turn_pieces _ _ _ Ht) as [Hc Hp]. now split.
  - destruct (turn_pieces _ _ _ Ht) as [Hc Hp]. now split.
  - injection Ht as <-.
    cbn [Async.state Async.next Async.rest_queue Async.sendPiece current
           sent next_pieces cont_pieces].
    split; [reflexivity |].
    rewrite sent_pieces_fragment, <- !app_assoc. reflexivity.
  - injection Ht as <-.
    cbn [Async.state Async.next Async.rest_queue sent next_pieces
           cont_pieces app].
    now split.
Qed.

(** The end of a turn keeps the account. *)
Lemma after_turn_account (f : bool) (s s' : system) (t : Async.turn)
  (acts : list Async.activation) (rhs : list str) :
  current (Async.state t) = [] ->
  sent_pieces (sent (Async.state t)) ++ next_pieces (Async.next t)
  ++ flat_map pieces (Async.rest_queue t) = rhs ->
  Async.after_turn f s t = (s', acts) ->
  sent_pieces (outbox s') ++ flat_map activation_pieces acts
  ++ flat_map pieces (queue s') = rhs.
Proof.
  intros Hc Hp. unfold Async.after_turn.
  destruct (Async.next t) as [k |]; intros [= <- <-].
  - cbn [outbox queue flat_map activation_pieces Async.held Async.todo].
    rewrite Hc, app_nil_r. exact Hp.
  - match goal with
      |- context [stopTimerIfForced f ?x] =>
        destruct (stopTimerIfForced_keeps f x) as (_ & Kq & Ko)
    end.
    rewrite Kq, Ko. exact Hp.
Qed.

Lemma perm_move {A} (a p1 x p2 q : list A) :
  Permutation (a ++ (p1 ++ x ++ p2) ++ q) ((p1 ++ p2) ++ a ++ x ++ q).
Proof.
  rewrite <- !app_assoc. rewrite (Permutation_app_swap_app a p1).
  apply Permutation_app_head.
  rewrite (app_assoc a x), (Permutation_app_swap_app (a ++ x) p2).
  now rewrite <- app_assoc.
Qed.

Lemma account_perm {A} (sp sp' p1 x x' p2 q q' : list A) :
  sp' ++ x' ++ q' = sp ++ x ++ q ->
  Permutation (sp' ++ (p1 ++ x' ++ p2) ++ q') (sp ++ (p1 ++ x ++ p2) ++ q).
Proof.
  intros H. rewrite perm_move, H. symmetry. apply perm_move.
Qed.

Lemma nth_error_cut {A} (l : list A) :
  forall (a : nat) (x : A),
    nth_error l a = Some x -> l = firstn a l ++ x :: skipn (S a) l.
Proof.
  induction l as [| y l IH]; intros [| a] x H; try discriminate.
  - now injection H as ->.
  - cbn [nth_error] in H. cbn [firstn skipn app]. f_equal. now apply IH.
Qed.

Lemma enqueued_cons (e : Async.event) (es : list Async.event) :
  Async.enqueued (e :: es) = Async.enqueued [e] ++ Async.enqueued es.
Proof. now destruct e. Qed.

(** One event keeps the account, up to the order of the texts. *)
Lemma step_account (e : Async.event) (w w' : Async.world) :
  good w -> one e w = Some w' ->
  Permutation (account w')
    (account w ++ flat_map pieces (map sanitizeLine (Async.enqueued [e]))).
Proof.
  intros Hgood Hstep. destruct e as [line | f | a]; cbn [Async.step] in Hstep.
  - injection Hstep as <-. unfold account.
    destruct (enqueue_keeps line (Async.sys w)) as (_ & Kq & Ko & _).
    cbn [Async.sys Async.flushes Async.enqueued map].
    rewrite Kq, Ko, flat_map_app, <- !app_assoc. reflexivity.
  - cbn [Async.enqueued map flat_map]. rewrite app_nil_r.
    unfold Async.start in Hstep.
    destruct (negb (channel (Async.sys w))
              || (len_lines (queue (Async.sys w)) =? 0)).
    + injection Hstep as <-. unfold account.
      destruct (stopTimerIfForced_keeps f (Async.sys w)) as (_ & Kq & Ko).
      cbn [Async.sys Async.flushes]. now rewrite Kq, Ko.
    + destruct (turn (queue (Async.sys w)) _) as [t |] eqn:Et;
        [| discriminate].
      destruct (Async.after_turn f (Async.sys w) t) as [s' acts] eqn:Ea.
      injection Hstep as <-.
      destruct (turn_pieces _ _ _ Et) as [Hc Hp].
      pose proof (after_turn_account _ _ _ _ _ _ Hc Hp Ea) as Hacc.
      cbn [sent current] in Hacc.
      pose proof (account_perm
                    (sent_pieces (outbox (Async.sys w)))
                    (sent_pieces (outbox s'))
                    (flat_map activation_pieces (Async.flushes w))
                    [] (flat_map activation_pieces acts) []
                    (flat_map pieces (queue (Async.sys w)))
                    (flat_map pieces (queue s')) Hacc) as Hperm.
      cbn [app] in Hperm. rewrite !app_nil_r in Hperm.
      unfold account. cbn [Async.sys Async.flushes].
      now rewrite flat_map_app.
  - cbn [Async.enqueued map flat_map]. rewrite app_nil_r.
    unfold Async.resume in Hstep.
    destruct (nth_error (Async.flushes w) a) as [act |] eqn:Ea;
      [| now injection Hstep as <-].
    pose proof (nth_error_cut _ _ _ Ea) as Hcut.
    assert (Hact : activation_ok act).
    { apply (proj1 (Forall_forall _ _) Hgood). eapply nth_error_In, Ea. }
    destruct Hact as (Hheld & HheldLen & _).
    rewrite Hheld, HheldLen in Hstep.
    destruct (again (Async.todo act) (queue (Async.sys w)) _) as [t |] eqn:Et;
      [| discriminate].
    destruct (Async.after_turn (Async.force act) (Async.sys w) t)
      as [s' acts] eqn:Eat.
    injection Hstep as <-.
    destruct (again_pieces _ _ _ _ Et) as [Hc Hp].
    pose proof (after_turn_account _ _ _ _ _ _ Hc Hp Eat) as Hacc.
    unfold account. cbn [Async.sys Async.flushes].
    rewrite Hcut at 3. rewrite !flat_map_app. cbn [flat_map].
    unfold activation_pieces at 5. rewrite Hheld. cbn [app].
    now apply account_perm.
Qed.

(** X19. Whatever the schedule (lines arriving, calls
    of [flushQueue] starting and their sends settling in any order, calls
    overlapping or not), every event is handled and the account is kept:
    the texts sent, those held by suspended calls and those of the queued
    lines are, up to their order, the texts there were before and the
    texts of the lines enqueued since, each as often as it was enqueued. *)
Theorem no_text_lost_or_repeated :
  forall (es : list Async.event) (w : Async.world),
    good w ->
    exists w',
      schedule es w = Some w'
      /\ Permutation (account w')
           (account w
            ++ flat_map pieces (map sanitizeLine (Async.enqueued es))).
Proof.
  induction es as [| e es IH]; intros w Hgood.
  - exists w. split; [reflexivity |]. cbn [Async.enqueued map flat_map].
    now rewrite app_nil_r.
  - destruct (event_spec MAX_LINES_PER_BATCH channel_send e w Hgood)
      as (w1 & _ & E1 & G1 & _).
    destruct (IH w1 G1) as (w2 & E2 & P2).
    exists w2. cbn [Async.run]. rewrite E1. split; [exact E2 |].
    rewrite P2, (step_account e w w1 Hgood E1), (enqueued_cons e es).
    now rewrite map_app, flat_map_app, <- app_assoc.
Qed.

End AsyncAccounting.

(** * The theorems at work on concrete inputs *)

Lemma flush_delivers_enqueued_text_witness :
  exists sys' new,
    run 40 accepts_within_limit
      ([Enqueue (lit "hi @everyone"); Enqueue (repeat 120 2000);
        Flush false; Enqueue (lit "bye")] ++ [Flush true]) booted
    = Some sys'
    /\ outbox sys' = outbox booted ++ new
    /\ queue sys' = []
    /\ (no_send_failed new ->
        delivered_text (delivered new)
        = concat (queue booted
                  ++ map sanitizeLine
                       (enqueued [Enqueue (lit "hi @everyone");
                                  Enqueue (repeat 120 2000);
                                  Flush false; Enqueue (lit "bye")]))
        /\ reassemble [] (delivered new)
           = queue booted
             ++ map sanitizeLine
                  (enqueued [Enqueue (lit "hi @everyone");
                             Enqueue (repeat 120 2000);
                             Flush false; Enqueue (lit "bye")])).
Proof.
  apply (flush_delivers_enqueued_text 40 accepts_within_limit booted).
  reflexivity.
Defined.

Lemma flushQueue_batches_within_bounds_witness :
  exists sys' new,
    flushQueue 2 accepts_within_limit true
      {| channel := true; queue := [lit "a"; lit "b"; lit "c"];
         flushTimer := true; outbox := [] |}
    = Some sys'
    /\ outbox sys' = [] ++ map (attempted accepts_within_limit) new
    /\ Forall (fun m => match m with
                        | Batch ls =>
                            len (join [NEWLINE] ls) <= MAX_CONTENT
                            /\ len_lines ls <= 2
                        | Fragment _ _ _ => True
                        end) new
    /\ MAX_CONTENT = 1990.
Proof.
  apply (flushQueue_batches_within_bounds 2 accepts_within_limit true
           {| channel := true; queue := [lit "a"; lit "b"; lit "c"];
              flushTimer := true; outbox := [] |}).
  lia.
Defined.


Lemma exact_fit_line_is_batched_alone_witness :
  exists tpre tpost,
    flush_trace 40 accepts_within_limit [lit "a"] = Some tpre
    /\ flush_trace 40 accepts_within_limit
         ([lit "a"] ++ repeat 120 1990 :: [lit ""; lit "b"])
       = Some (tpre
               ++ attempted accepts_within_limit (Batch [repeat 120 1990])
                  :: map (attempted accepts_within_limit) tpost)
    /\ complete tpost
    /\ reassemble [] tpost = [lit ""; lit "b"]
    /\ (forall l : str,
           MAX_CONTENT < len (join [NEWLINE] [repeat 120 1990; l])
           /\ MAX_CONTENT < len (join [NEWLINE] [l; repeat 120 1990])).
Proof.
  apply (exact_fit_line_is_batched_alone 40 accepts_within_limit
           [lit "a"] [lit ""; lit "b"] (repeat 120 1990)).
  vm_compute. reflexivity.
Defined.

Lemma send_failure_invalidates_session_witness :
  exists w2,
    Rcon.send true numbered_sessions always_failing (lit "list")
      {| Rcon.mgr := Rcon.fresh; Rcon.calls := [] |}
    = (Rcon.Throw (lit "connection reset"), w2)
    /\ Rcon.connected (Rcon.mgr w2) = false
    /\ Rcon.rcon (Rcon.mgr w2) = None
    /\ Rcon.calls w2 = [Rcon.Connect] ++ [Rcon.Exec 0%nat (lit "list")]
    /\ forall command' : str,
        exists res w3,
          Rcon.send true numbered_sessions always_failing command' w2
          = (res, w3)
          /\ Rcon.calls w3
             = Rcon.calls w2
               ++ Rcon.Connect
                  :: match numbered_sessions (Rcon.calls w2) with
                     | Rcon.Return s' => [Rcon.Exec s' command']
                     | Rcon.Throw _ => []
                     end.
Proof.
  apply (send_failure_invalidates_session true numbered_sessions
           always_failing
           {| Rcon.mgr := Rcon.fresh; Rcon.calls := [] |}
           {| Rcon.mgr := {| Rcon.rcon := Some 0%nat; Rcon.connected := true;
                             Rcon.connecting := false |};
              Rcon.calls := [Rcon.Connect] |}
           0%nat (lit "list") (lit "connection reset"));
    reflexivity.
Defined.


Lemma splitToChunks_needs_positive_max_witness :
  (forall fuel, splitLoop fuel (lit "abc") 0 0 [] = None)
  /\ splitToChunks (lit "abc") 0 = None.
Proof.
  apply (splitToChunks_needs_positive_max (lit "abc") 0);
    [lia | discriminate].
Defined.

Lemma splitToChunks_full_chunks_witness :
  len_lines [lit "abc"; lit "def"; lit "g"] = ceil_div (len (lit "abcdefg")) 3
  /\ Forall (fun c => 0 < len c) [lit "abc"; lit "def"; lit "g"]
  /\ (forall (k : nat) (c : str),
         (S k < length [lit "abc"; lit "def"; lit "g"])%nat ->
         nth_error [lit "abc"; lit "def"; lit "g"] k = Some c -> len c = 3).
Proof.
  apply (splitToChunks_full_chunks (lit "abcdefg") 3); [lia | reflexivity].
Defined.

Lemma push_queues_single_lines_witness :
  Forall (fun l => ~ In NEWLINE l)
    (queue (push OUT (lit "one" ++ [CR; NEWLINE] ++ lit "two") booted)).
Proof.
  apply (push_queues_single_lines OUT
           (lit "one" ++ [CR; NEWLINE] ++ lit "two") booted).
  - vm_compute. intuition discriminate.
  - constructor.
Defined.

Lemma push_ignores_blank_data_witness :
  push ERR [SPACE; CR; NEWLINE; 9; NEWLINE] booted = booted.
Proof.
  apply (push_ignores_blank_data ERR [SPACE; CR; NEWLINE; 9; NEWLINE] booted).
  repeat constructor.
Defined.

Lemma push_splits_a_line_across_events_witness :
  queue (push OUT (lit "s)!") (push OUT (lit "Done (3.2") booted))
  = queue booted ++ [sanitizeLine (OUT ++ SPACE :: lit "Done (3.2");
                     sanitizeLine (OUT ++ SPACE :: lit "s)!")]
  /\ queue (push OUT (lit "Done (3.2" ++ lit "s)!") booted)
     = queue booted
       ++ [sanitizeLine (OUT ++ SPACE :: lit "Done (3.2" ++ lit "s)!")].
Proof.
  apply (push_splits_a_line_across_events OUT (lit "Done (3.2") (lit "s)!")
           booted);
    try reflexivity; vm_compute; intuition discriminate.
Defined.

Lemma allowed_user_ids_entries_witness :
  lit "34" <> [] /\ ~ In COMMA (lit "34") /\ trim (lit "34") = lit "34"
  /\ exists piece,
       In piece (split_on COMMA (lit " 12, 34 ,,")) /\ lit "34" = trim piece.
Proof.
  apply (allowed_user_ids_entries (Some (lit " 12, 34 ,,")) (lit "34")).
  vm_compute. right. left. reflexivity.
Defined.

Lemma one_line_per_message_witness :
  flush_trace 1 accepts_within_limit [lit "a"; lit "b"]
  = Some (map (attempted accepts_within_limit)
            (map (fun l => Batch [l]) [lit "a"; lit "b"])).
Proof.
  apply (one_line_per_message 1 accepts_within_limit [lit "a"; lit "b"]);
    [lia |].
  repeat constructor; vm_compute; discriminate.
Defined.

Lemma batch_after_a_flush_is_one_short_witness :
  flush_trace 40 accepts_within_limit [repeat 98 1985; repeat 99 4]
  = Some (map (attempted accepts_within_limit)
            [Batch [repeat 98 1985; repeat 99 4]])
  /\ flush_trace 40 accepts_within_limit
       [repeat 97 10; repeat 98 1985; repeat 99 4]
     = Some (map (attempted accepts_within_limit)
               [Batch [repeat 97 10]; Batch [repeat 98 1985];
                Batch [repeat 99 4]]).
Proof.
  apply (batch_after_a_flush_is_one_short 40 accepts_within_limit
           (repeat 97 10) (repeat 98 1985) (repeat 99 4));
    [lia | vm_compute; discriminate | vm_compute; reflexivity
    | vm_compute; reflexivity].
Defined.


Lemma run_safe_witness :
  exists w' new,
    Async.run 40 accepts_within_limit
      [Async.Enqueue (repeat 97 1000); Async.Enqueue (repeat 98 1000);
       Async.Start false; Async.Enqueue (repeat 99 1000);
       Async.Start true; Async.Resume 1; Async.Resume 0]
      Async.booted
    = Some w'
    /\ good w'
    /\ outbox (Async.sys w')
       = outbox (Async.sys Async.booted)
         ++ map (attempted accepts_within_limit) new
    /\ (1 <= 40 -> batches_ok 40 new).
Proof.
  apply (run_safe 40 accepts_within_limit
           [Async.Enqueue (repeat 97 1000); Async.Enqueue (repeat 98 1000);
            Async.Start false; Async.Enqueue (repeat 99 1000);
            Async.Start true; Async.Resume 1; Async.Resume 0]
           Async.booted).
  constructor.
Defined.

Lemma serial_run_delivers_in_order_witness :
  delivered_text
    (delivered
       (outbox
          (Async.sys
             {| Async.sys :=
                  {| channel := true; queue := []; flushTimer := true;
                     outbox := [(Batch [lit "a"; lit "b"], true)] |};
                Async.flushes := [] |})))
  = concat (map sanitizeLine
              (Async.enqueued
                 [Async.Enqueue (lit "a"); Async.Enqueue (lit "b");
                  Async.Start false; Async.Resume 0])).
Proof.
  apply (serial_run_delivers_in_order 40 accepts_within_limit
           [Async.Enqueue (lit "a"); Async.Enqueue (lit "b");
            Async.Start false; Async.Resume 0]);
    try reflexivity.
  repeat constructor.
Defined.

Lemma contents_within_hard_limit_witness :
  exists sys' new,
    flushQueue 40 accepts_within_limit true
      {| channel := true; queue := [lit "short"; repeat 97 3000];
         flushTimer := true; outbox := [] |}
    = Some sys'
    /\ outbox sys' = [] ++ map (attempted accepts_within_limit) new
    /\ Forall (fun m => len (content m) <= DISCORD_HARD_LIMIT) new.
Proof.
  apply (contents_within_hard_limit 40 accepts_within_limit true
           {| channel := true; queue := [lit "short"; repeat 97 3000];
              flushTimer := true; outbox := [] |}).
  repeat constructor; vm_compute; discriminate.
Defined.

Lemma successful_send_keeps_session_witness :
  exists s,
    Rcon.rcon {| Rcon.rcon := Some 0%nat; Rcon.connected := true;
                 Rcon.connecting := false |} = Some s
    /\ Rcon.connected {| Rcon.rcon := Some 0%nat; Rcon.connected := true;
                         Rcon.connecting := false |} = true
    /\ forall command' : str,
        exists res' w2,
          Rcon.send true numbered_sessions always_done command'
            {| Rcon.mgr := {| Rcon.rcon := Some 0%nat;
                              Rcon.connected := true;
                              Rcon.connecting := false |};
               Rcon.calls := [Rcon.Connect; Rcon.Exec 0%nat (lit "list")] |}
          = (res', w2)
          /\ Rcon.calls w2
             = [Rcon.Connect; Rcon.Exec 0%nat (lit "list")]
               ++ [Rcon.Exec s command'].
Proof.
  apply (successful_send_keeps_session true numbered_sessions always_done
           {| Rcon.mgr := Rcon.fresh; Rcon.calls := [] |}
           {| Rcon.mgr := {| Rcon.rcon := Some 0%nat;
                             Rcon.connected := true;
                             Rcon.connecting := false |};
              Rcon.calls := [Rcon.Connect; Rcon.Exec 0%nat (lit "list")] |}
           (lit "list") (lit "Done")).
  reflexivity.
Defined.

Lemma failed_connect_is_reported_witness :
  exists w1,
    Rcon.send true refusing always_done (lit "list")
      {| Rcon.mgr := Rcon.fresh; Rcon.calls := [] |}
    = (Rcon.Throw (lit "connect ECONNREFUSED"), w1)
    /\ Rcon.calls w1 = [] ++ [Rcon.Connect]
    /\ Rcon.connecting (Rcon.mgr w1) = false
    /\ Rcon.live (Rcon.mgr w1) = false
    /\ forall command' : str,
        exists res w2 later,
          Rcon.send true refusing always_done command' w1 = (res, w2)
          /\ Rcon.calls w2 = Rcon.calls w1 ++ Rcon.Connect :: later.
Proof.
  apply (failed_connect_is_reported true refusing always_done
           {| Rcon.mgr := Rcon.fresh; Rcon.calls := [] |}
           (lit "list") (lit "connect ECONNREFUSED"));
    reflexivity.
Defined.

Lemma messageCreate_ignores_witness :
  Command.messageCreate true (lit "7") (lit "!rcon ") [] [] numbered_sessions
    always_done replies_succeed typing_succeeds bot_asks_list Command.started
  = Some (Rcon.Return tt, Command.started).
Proof.
  apply (messageCreate_ignores true (lit "7") (lit "!rcon ") [] []
           numbered_sessions always_done replies_succeed typing_succeeds
           bot_asks_list Command.started).
  right. left. reflexivity.
Defined.

Lemma console_only_for_permitted_witness :
  permitted true (lit "7") (lit "!rcon ") [lit "42"] (lit "admin") asks_list.
Proof.
  apply (console_only_for_permitted true (lit "7") (lit "!rcon ")
           [lit "42"] (lit "admin") numbered_sessions always_done
           replies_succeed typing_succeeds asks_list Command.started
           {| Command.rconManager :=
                {| Rcon.mgr := {| Rcon.rcon := Some 0%nat;
                                  Rcon.connected := true;
                                  Rcon.connecting := false |};
                   Rcon.calls := [Rcon.Connect;
                                  Rcon.Exec 0%nat (lit "list")] |};
              Command.effects :=
                [Command.Typing; Command.Reply (lit "```Done```")] |}
           (Rcon.Return tt)).
  - reflexivity.
  - discriminate.
Defined.

Lemma replies_fit_a_message_witness :
  exists new,
    [Command.Reply Command.NOT_ALLOWED] = [] ++ new
    /\ Forall (fits (lit "!rcon ")) new.
Proof.
  apply (replies_fit_a_message true (lit "7") (lit "!rcon ")
           [lit "1"] (lit "admin") numbered_sessions always_done
           replies_succeed typing_succeeds asks_list Command.started
           {| Command.rconManager :=
                {| Rcon.mgr := Rcon.fresh; Rcon.calls := [] |};
              Command.effects := [Command.Reply Command.NOT_ALLOWED] |}
           (Rcon.Return tt)).
  reflexivity.
Defined.


Lemma exit_only_after_teardown_witness :
  Shutdown.performed
    (Shutdown.run true false
       (Shutdown.Signal :: repeat (Shutdown.Resume 0) 5) Shutdown.started)
  = Shutdown.teardown true false
  /\ Shutdown.activations
       (Shutdown.run true false
          (Shutdown.Signal :: repeat (Shutdown.Resume 0) 5) Shutdown.started)
     = []
  /\ forall more,
       Shutdown.run true false
         ((Shutdown.Signal :: repeat (Shutdown.Resume 0) 5) ++ more)
         Shutdown.started
       = Shutdown.run true false
           (Shutdown.Signal :: repeat (Shutdown.Resume 0) 5) Shutdown.started.
Proof.
  apply (exit_only_after_teardown true false
           (Shutdown.Signal :: repeat (Shutdown.Resume 0) 5)).
  reflexivity.
Defined.

Lemma shutdown_runs_to_the_exit_witness :
  Shutdown.exited
    (Shutdown.run false true
       ([Shutdown.Resume 0]
        ++ Shutdown.Signal
           :: [Shutdown.Resume 0; Shutdown.Signal; Shutdown.Resume 0;
               Shutdown.Resume 1; Shutdown.Resume 0; Shutdown.Resume 0;
               Shutdown.Resume 0])
       Shutdown.started) = true
  /\ Shutdown.performed
       (Shutdown.run false true
          ([Shutdown.Resume 0]
           ++ Shutdown.Signal
              :: [Shutdown.Resume 0; Shutdown.Signal; Shutdown.Resume 0;
                  Shutdown.Resume 1; Shutdown.Resume 0; Shutdown.Resume 0;
                  Shutdown.Resume 0])
          Shutdown.started)
     = Shutdown.teardown false true.
Proof.
  apply (shutdown_runs_to_the_exit false true [Shutdown.Resume 0]
           [Shutdown.Resume 0; Shutdown.Signal; Shutdown.Resume 0;
            Shutdown.Resume 1; Shutdown.Resume 0; Shutdown.Resume 0;
            Shutdown.Resume 0]).
  vm_compute. lia.
Defined.

Lemma no_text_lost_or_repeated_witness :
  exists w',
    Async.run 40 accepts_within_limit
      [Async.Enqueue (repeat 97 1000); Async.Enqueue (repeat 98 1000);
       Async.Enqueue (repeat 99 1000);
       Async.Start false; Async.Start true;
       Async.Resume 0; Async.Resume 0; Async.Resume 0]
      Async.booted
    = Some w'
    /\ Permutation (account w')
         (account Async.booted
          ++ flat_map pieces
               (map sanitizeLine
                  (Async.enqueued
                     [Async.Enqueue (repeat 97 1000);
                      Async.Enqueue (repeat 98 1000);
                      Async.Enqueue (repeat 99 1000);
                      Async.Start false; Async.Start true;
                      Async.Resume 0; Async.Resume 0; Async.Resume 0]))).
Proof.
  apply (no_text_lost_or_repeated 40 accepts_within_limit
           [Async.Enqueue (repeat 97 1000); Async.Enqueue (repeat 98 1000);
            Async.Enqueue (repeat 99 1000);
            Async.Start false; Async.Start true;
            Async.Resume 0; Async.Resume 0; Async.Resume 0]
           Async.booted).
  constructor.
Defined.

Lemma sanitizeLine_marks_every_at_witness :
  nth_error (sanitizeLine (lit "a@b")) 2 = Some ZWSP.
Proof.
  apply (sanitizeLine_marks_every_at (lit "a@b") 1). reflexivity.
Defined.
